(** * DAPO answer extraction, normalisation and reward: a shallow embedding

    The development follows three source files:
    - [examples/DAPO/parser.py]          ([strip_string], [choice_answer_clean],
                                          [extract_answer] and their helpers),
    - [examples/DAPO/hf_math_verify.py]  ([extract_solution], [_verify_with_sympy],
                                          [_hf_verify], [get_dapo_math_reward]),
    - [examples/search-r1/local_search_server.py] ([local_search]).

    A Python [str] is a sequence of Unicode code points, so a character is a
    code point ([N]) and a string is a list of them.  What Python decides from
    the Unicode character database for code points above 127 (white space,
    alphanumeric, decimal digit, upper case) is taken from a table, a
    parameter of the development; the ASCII range is written out. *)

From Stdlib Require Import Strings.String Strings.Ascii.
From Stdlib Require Import Numbers.DecimalString.
From Stdlib Require Numbers.DecimalPos.
From Stdlib Require Import List NArith ZArith Bool Lia.
Import ListNotations.

Set Implicit Arguments.
Set Warnings "-register-all".
Local Open Scope N_scope.

(* ================================================================== *)
(** ** Code points and string literals *)

Module Str.

Abbreviation char := N (only parsing).
Abbreviation str := (list N) (only parsing).

(** UTF-8 decoding of the bytes of a source literal (the .py files are UTF-8). *)
Fixpoint utf8_decode (bs : list N) : str :=
  match bs with
  | [] => []
  | b :: r =>
    if b <? 128 then b :: utf8_decode r
    else if b <? 224 then
      match r with
      | b1 :: r1 => ((b - 192) * 64 + (b1 - 128)) :: utf8_decode r1
      | [] => [b]
      end
    else if b <? 240 then
      match r with
      | b1 :: b2 :: r2 =>
        ((b - 224) * 4096 + (b1 - 128) * 64 + (b2 - 128)) :: utf8_decode r2
      | _ => [b]
      end
    else
      match r with
      | b1 :: b2 :: b3 :: r3 =>
        ((b - 240) * 262144 + (b1 - 128) * 4096 + (b2 - 128) * 64 + (b3 - 128))
          :: utf8_decode r3
      | _ => [b]
      end
  end.

(** [u "text"] is the Python literal ["text"] (no escapes are read: a
    backslash is a backslash). *)
Definition u (s : string) : str :=
  utf8_decode (map N_of_ascii (list_ascii_of_string s)).

Definition NL : char := 10.   (* "\n" *)
Definition DQ : char := 34.   (* the double quote *)

Definition eqb_str (a b : str) : bool :=
  if list_eq_dec N.eq_dec a b then true else false.

Definition mem (c : char) (cs : str) : bool := existsb (N.eqb c) cs.

(* ------------------------------------------------------------------ *)
(** *** The Unicode character database, for code points above 127 *)

Record unicode := {
  u_isspace : char -> bool;          (* str.isspace, regex \s *)
  u_isalnum : char -> bool;          (* str.isalnum, regex \w (with "_") *)
  u_decimal : char -> option N;      (* decimal digit value: regex \d, int() *)
  u_upper   : char -> str            (* str.upper of one character *)
}.

Section WithUnicode.
Variable U : unicode.

Definition ascii_digit (c : char) : bool := (48 <=? c) && (c <=? 57).
Definition ascii_upper (c : char) : bool := (65 <=? c) && (c <=? 90).
Definition ascii_lower (c : char) : bool := (97 <=? c) && (c <=? 122).

(** [Py_UNICODE_ISSPACE]: in the ASCII range \t \n \v \f \r, 0x1c-0x1f and
    the space. *)
Definition isspace (c : char) : bool :=
  if c <? 128 then ((9 <=? c) && (c <=? 13)) || ((28 <=? c) && (c <=? 32))
  else u_isspace U c.

Definition isalnum_char (c : char) : bool :=
  if c <? 128 then ascii_digit c || ascii_upper c || ascii_lower c
  else u_isalnum U c.

Definition decimal_value (c : char) : option N :=
  if c <? 128 then (if ascii_digit c then Some (c - 48) else None)
  else u_decimal U c.

Definition isdecimal (c : char) : bool :=
  match decimal_value c with Some _ => true | None => false end.

(** regex [\w] on a str pattern: alphanumeric or the underscore. *)
Definition isword (c : char) : bool := isalnum_char c || (c =? 95).

Definition upper_char (c : char) : str :=
  if c <? 128 then [if ascii_lower c then c - 32 else c] else u_upper U c.

(** [s.upper()] *)
Definition upper (s : str) : str := flat_map upper_char s.

(** [s.isalnum()]: every character alphanumeric and at least one character. *)
Definition isalnum (s : str) : bool :=
  match s with [] => false | _ => forallb isalnum_char s end.

(* ------------------------------------------------------------------ *)
(** *** str methods *)

Fixpoint dropwhile (p : char -> bool) (s : str) : str :=
  match s with
  | [] => []
  | c :: s' => if p c then dropwhile p s' else s
  end.

Definition lstrip_by (p : char -> bool) (s : str) : str := dropwhile p s.
Definition rstrip_by (p : char -> bool) (s : str) : str :=
  rev (dropwhile p (rev s)).
Definition strip_by (p : char -> bool) (s : str) : str :=
  rstrip_by p (lstrip_by p s).

(** [s.strip()], [s.strip(chars)], [s.rstrip(chars)], [s.lstrip(chars)] *)
Definition strip (s : str) : str := strip_by isspace s.
Definition strip_chars (cs s : str) : str := strip_by (fun c => mem c cs) s.
Definition rstrip_chars (cs s : str) : str := rstrip_by (fun c => mem c cs) s.
Definition lstrip_chars (cs s : str) : str := lstrip_by (fun c => mem c cs) s.

Fixpoint starts_with (p s : str) : bool :=
  match p, s with
  | [], _ => true
  | a :: p', b :: s' => (a =? b) && starts_with p' s'
  | _ :: _, [] => false
  end.

(** [s.startswith(p)], [s.endswith(p)] *)
Definition startswith (s p : str) : bool := starts_with p s.
Definition endswith (s p : str) : bool := starts_with (rev p) (rev s).

(** [p in s] *)
Fixpoint contains (p s : str) : bool :=
  starts_with p s ||
  match s with
  | [] => false
  | _ :: s' => contains p s'
  end.

(** [s.replace(old, new)]: leftmost occurrences, left to right, not
    overlapping.  [skip] counts the characters of the occurrence just
    replaced that are still to be passed over. *)
Fixpoint replace_go (old new : str) (skip : nat) (s : str) : str :=
  match s with
  | [] => []
  | c :: s' =>
    match skip with
    | S k => replace_go old new k s'
    | O =>
      if starts_with old s
      then new ++ replace_go old new (pred (length old)) s'
      else c :: replace_go old new 0 s'
    end
  end.

Definition replace (old new s : str) : str :=
  match old with
  | [] => new ++ flat_map (fun c => c :: new) s
  | _ => replace_go old new 0 s
  end.

(** [s.count(p)] for a non-empty [p]: occurrences that do not overlap. *)
Fixpoint count_go (p : str) (skip : nat) (s : str) : nat :=
  match s with
  | [] => O
  | _ :: s' =>
    match skip with
    | S k => count_go p k s'
    | O =>
      if starts_with p s then S (count_go p (pred (length p)) s')
      else count_go p 0 s'
    end
  end.

Definition count (p s : str) : nat :=
  match p with
  | [] => S (length s)
  | _ => count_go p 0 s
  end.

Definition cons_head (c : char) (l : list str) : list str :=
  match l with
  | h :: t => (c :: h) :: t
  | [] => [[c]]
  end.

(** [s.split(sep)] for a non-empty [sep] (Python raises [ValueError] on an
    empty separator; every separator of the source is a non-empty literal).
    [limit] is [maxsplit]: [None] for no limit. *)
Fixpoint split_go (sep : str) (limit : option nat) (skip : nat) (s : str)
  : list str :=
  match s with
  | [] => [[]]
  | c :: s' =>
    match skip with
    | S k => split_go sep limit k s'
    | O =>
      match limit with
      | Some O => [s]
      | _ =>
        if starts_with sep s
        then [] :: split_go sep (option_map pred limit) (pred (length sep)) s'
        else cons_head c (split_go sep limit 0 s')
      end
    end
  end.

Definition split (sep s : str) : list str := split_go sep None 0 s.
Definition split_max (sep : str) (n : nat) (s : str) : list str :=
  split_go sep (Some n) 0 s.

(** slices *)
Definition slice_from (n : nat) (s : str) : str := skipn n s.          (* s[n:] *)
Definition slice_drop_last (s : str) : str := removelast s.            (* s[:-1] *)
Definition slice_inner (s : str) : str := removelast (skipn 1 s).      (* s[1:-1] *)
Definition slice_last (n : nat) (s : str) : str :=                     (* s[-n:] *)
  skipn (length s - n) s.

(** CPython refuses to convert between [int] and [str] a numeral of more
    digits than [sys.get_int_max_str_digits()], and raises [ValueError];
    the number is [sys.int_info.default_max_str_digits] unless the
    interpreter is configured otherwise. *)
Definition max_str_digits : N := 4300.

(** [int(s)] on a str: white space around, an optional sign, decimal digits
    with single underscores between them, and no more digits than the
    limit.  [None] is [ValueError]. *)
Fixpoint int_digits (acc : N) (after_digit : bool) (s : str) : option N :=
  match s with
  | [] => if after_digit then Some acc else None
  | c :: s' =>
    if c =? 95 then (if after_digit then int_digits acc false s' else None)
    else match decimal_value c with
         | Some d => int_digits (10 * acc + d) true s'
         | None => None
         end
  end.

(** the digits of a numeral are its characters other than the underscore *)
Definition count_digits (s : str) : N :=
  N.of_nat (length (filter (fun c => negb (c =? 95)) s)).

Definition int_limited (s : str) : option N :=
  if max_str_digits <? count_digits s then None else int_digits 0 false s.

Definition py_int (s : str) : option Z :=
  match strip s with
  | [] => None
  | c :: r =>
    if c =? 45 then option_map (fun n => Z.opp (Z.of_N n)) (int_limited r)
    else if c =? 43 then option_map Z.of_N (int_limited r)
    else option_map Z.of_N (int_limited (c :: r))
  end.

End WithUnicode.

(** the decimal numeral of an integer: a minus sign for a negative one, no
    leading zero *)
Definition int_numeral (z : Z) : str :=
  map N_of_ascii (list_ascii_of_string (NilZero.string_of_int (Z.to_int z))).

(** the number of digits of the numeral, the sign not counted *)
Definition numeral_digits (z : Z) : N :=
  N.of_nat match z with
           | Zneg _ => pred (length (int_numeral z))
           | _ => length (int_numeral z)
           end.

(** [str(n)] for an int; [None] is the [ValueError] of a numeral with more
    digits than the limit *)
Definition py_str_int (z : Z) : option str :=
  if max_str_digits <? numeral_digits z then None else Some (int_numeral z).

End Str.

(* ================================================================== *)
(** ** The regular expressions of the source

    The patterns of the three files use literals, character classes, [.],
    greedy and lazy repetition of one character class, alternation, groups,
    [^], [$] and [\b].  The matcher below is the backtracking matcher of
    Python's [re] for that fragment: alternatives left to right, greedy
    repetition longest first, lazy repetition shortest first. *)

Module Re.
Import Str.

Inductive cset :=
| CLit (c : char)        (* a literal character *)
| CDot                   (* .   anything but a newline *)
| CAll                   (* .   under re.DOTALL *)
| CDigit | CNotDigit     (* \d  [^\d] *)
| CWord | CNotWord       (* \w  \W *)
| CSpace.                (* \s *)

Inductive regex :=
| REps
| RSet (cs : cset)
| RSeq (r1 r2 : regex)
| RAlt (r1 r2 : regex)
| RStar (greedy : bool) (cs : cset)      (* cs* and cs*? *)
| RGroup (n : nat) (r : regex)
| RBol                                    (* ^ *)
| REol                                    (* $ *)
| RWordB.                                 (* \b *)

Fixpoint lit (s : str) : regex :=
  match s with
  | [] => REps
  | c :: s' => RSeq (RSet (CLit c)) (lit s')
  end.

Definition plus (cs : cset) : regex := RSeq (RSet cs) (RStar true cs).
Definition opt (r : regex) : regex := RAlt r REps.

(** Position in the subject: the character before it ([None] at the start
    of the string), what is left, and the groups captured so far. *)
Record mstate := {
  prev : option char;
  rest : str;
  caps : list (nat * str)
}.

Fixpoint star {A : Type} (greedy : bool) (ok : char -> bool)
  (p : option char) (s : str) (k : option char -> str -> option A) : option A :=
  match s with
  | c :: s' =>
    if ok c then
      if greedy then
        match star greedy ok (Some c) s' k with
        | Some r => Some r
        | None => k p s
        end
      else
        match k p s with
        | Some r => Some r
        | None => star greedy ok (Some c) s' k
        end
    else k p s
  | [] => k p s
  end.

Section WithUnicode.
Variable U : unicode.

Definition in_cset (cs : cset) (c : char) : bool :=
  match cs with
  | CLit a => c =? a
  | CDot => negb (c =? NL)
  | CAll => true
  | CDigit => isdecimal U c
  | CNotDigit => negb (isdecimal U c)
  | CWord => isword U c
  | CNotWord => negb (isword U c)
  | CSpace => isspace U c
  end.

Definition word_before (st : mstate) : bool :=
  match prev st with Some c => isword U c | None => false end.
Definition word_after (st : mstate) : bool :=
  match rest st with c :: _ => isword U c | [] => false end.

Fixpoint run (r : regex) (st : mstate) (k : mstate -> option mstate)
  : option mstate :=
  match r with
  | REps => k st
  | RSet cs =>
    match rest st with
    | c :: s' =>
      if in_cset cs c
      then k {| prev := Some c; rest := s'; caps := caps st |}
      else None
    | [] => None
    end
  | RSeq r1 r2 => run r1 st (fun st1 => run r2 st1 k)
  | RAlt r1 r2 =>
    match run r1 st k with
    | Some x => Some x
    | None => run r2 st k
    end
  | RStar g cs =>
    star g (in_cset cs) (prev st) (rest st)
         (fun p s => k {| prev := p; rest := s; caps := caps st |})
  | RGroup n r1 =>
    run r1 st (fun st1 =>
      k {| prev := prev st1; rest := rest st1;
           caps := (n, firstn (length (rest st) - length (rest st1)) (rest st))
                     :: caps st1 |})
  | RBol => match prev st with None => k st | Some _ => None end
  | REol =>
    match rest st with
    | [] => k st
    | [c] => if c =? NL then k st else None
    | _ => None
    end
  | RWordB => if xorb (word_before st) (word_after st) then k st else None
  end.

(** One attempt at one position.  [must_advance] refuses the empty match
    (sre sets it for the attempt that follows an empty match).  The answer
    is the length of the match and its groups. *)
Definition try_match (re : regex) (must_advance : bool) (p : option char)
  (s : str) : option (nat * list (nat * str)) :=
  match run re {| prev := p; rest := s; caps := [] |}
            (fun st => if must_advance && (length (rest st) =? length s)%nat
                       then None else Some st) with
  | Some st => Some ((length s - length (rest st))%nat, caps st)
  | None => None
  end.

Record rmatch := { m_text : str; m_caps : list (nat * str) }.

Fixpoint lookup (n : nat) (l : list (nat * str)) : str :=
  match l with
  | [] => []
  | (i, v) :: l' => if (i =? n)%nat then v else lookup n l'
  end.

(** [m.group(n)]; a group that took no part in the match gives the empty
    string in a replacement template. *)
Definition group (n : nat) (m : rmatch) : str :=
  match n with
  | O => m_text m
  | _ => lookup n (m_caps m)
  end.

Definition mk (s : str) (n : nat) (cs : list (nat * str)) : rmatch :=
  {| m_text := firstn n s; m_caps := cs |}.

Definition scanned := (list (str * rmatch) * str)%type.

Definition put_char (c : char) (r : scanned) : scanned :=
  match r with
  | ((pre, m) :: l, t) => ((c :: pre, m) :: l, t)
  | ([], t) => ([], c :: t)
  end.

Definition put_match (m : rmatch) (r : scanned) : scanned :=
  (([], m) :: fst r, snd r).

(** The search loop shared by [re.sub], [re.findall] and [re.split]: the
    matches from left to right, each with the text between it and the match
    before, and the text after the last one.  [skip] counts the characters of
    the current match still to be passed over. *)
Fixpoint scan (re : regex) (skip : nat) (p : option char) (s : str)
  {struct s} : scanned :=
  match skip with
  | S k =>
    match s with
    | c :: s' => scan re k (Some c) s'
    | [] => ([], [])
    end
  | O =>
    let step :=
      match s with
      | c :: s' => put_char c (scan re 0 (Some c) s')
      | [] => ([], [])
      end in
    let after (n : nat) :=
      match s with
      | c :: s' => scan re (pred n) (Some c) s'
      | [] => ([], [])
      end in
    match try_match re false p s with
    | None => step
    | Some (S n, cs) => put_match (mk s (S n) cs) (after (S n))
    | Some (O, cs) =>
      put_match (mk s 0 cs)
        match try_match re true p s with
        | Some (S n, cs') => put_match (mk s (S n) cs') (after (S n))
        | _ => step
        end
    end
  end.

Definition finditer (re : regex) (s : str) : scanned := scan re 0 None s.

End WithUnicode.

(** Replacement templates: literal text and group references [\n]. *)
Inductive titem := TLit (s : str) | TGroup (n : nat).

Definition expand (t : list titem) (m : rmatch) : str :=
  flat_map (fun i => match i with TLit s => s | TGroup n => group n m end) t.

Fixpoint sub_segs (t : list titem) (limit : option nat)
  (l : list (str * rmatch)) : str :=
  match l with
  | [] => []
  | (pre, m) :: l' =>
    match limit with
    | Some O => pre ++ m_text m ++ sub_segs t limit l'
    | _ => pre ++ expand t m ++ sub_segs t (option_map pred limit) l'
    end
  end.

(** [re.sub(re, t, s)] and [re.sub(re, t, s, count=n)] *)
Definition sub (U : unicode) (re : regex) (t : list titem) (s : str) : str :=
  let r := finditer U re s in sub_segs t None (fst r) ++ snd r.
Definition sub_count (U : unicode) (re : regex) (t : list titem) (n : nat)
  (s : str) : str :=
  let r := finditer U re s in sub_segs t (Some n) (fst r) ++ snd r.

(** [re.findall(re, s)]: group [g] of every match ([g] is 1 for a pattern
    with one group, 0 for a pattern without). *)
Definition findall (U : unicode) (re : regex) (g : nat) (s : str) : list str :=
  map (fun x => group g (snd x)) (fst (finditer U re s)).

(** [re.split(re, s)] for a pattern without groups *)
Definition re_split (U : unicode) (re : regex) (s : str) : list str :=
  let r := finditer U re s in map fst (fst r) ++ [snd r].

End Re.

(* ================================================================== *)
(** ** Results of code that can raise *)

Module Py.

Inductive exn :=
| IndexError | KeyError | TypeError | AttributeError | ValueError
| OtherError.

Inductive result (A : Type) :=
| Ok (a : A)
| Raise (e : exn).
Arguments Ok {A} a.
Arguments Raise {A} e.

Definition bind {A B : Type} (r : result A) (f : A -> result B) : result B :=
  match r with
  | Ok a => f a
  | Raise e => Raise e
  end.

(** [l[0]], [l[1]], [l[-1]] on a list *)
Definition index {A : Type} (l : list A) (n : nat) : result A :=
  match nth_error l n with
  | Some a => Ok a
  | None => Raise IndexError
  end.

Definition index_last {A : Type} (l : list A) : result A :=
  match rev l with
  | a :: _ => Ok a
  | [] => Raise IndexError
  end.

End Py.

Notation "x <- c1 ;; c2" := (Py.bind c1 (fun x => c2))
  (at level 61, c1 at next level, right associativity).

(* ================================================================== *)
(** ** examples/DAPO/parser.py *)

Module Parser.
Import Str Re Py.

Definition ch (s : string) : char := hd 0 (u s).

Fixpoint rseq (l : list regex) : regex :=
  match l with
  | [] => REps
  | [r] => r
  | r :: l' => RSeq r (rseq l')
  end.

(** The unit vocabulary, as written in the source; the plural forms are
    added by [UNIT_TEXTS.extend([t + "s" for t in UNIT_TEXTS])]. *)
Definition UNIT_TEXTS_base : list string := [
  "east"; "degree"; "mph"; "kmph"; "ft"; "m sqaure"; " m east"; "sq m";
  "deg"; "mile"; "q ."; "monkey"; "prime"; "ratio"; "profit of rs"; "rd";
  "o"; "gm"; "p . m"; "lb"; "tile"; "per"; "dm"; "lt"; "gain"; "ab"; "way";
  "west"; "a ."; "b ."; "c ."; "d ."; "e ."; "f ."; "g ."; "h ."; "t"; "a";
  "h"; "no change"; "men"; "soldier"; "pie"; "bc"; "excess"; "st"; "inches";
  "noon"; "percent"; "by"; "gal"; "kmh"; "c"; "acre"; "rise"; "a . m"; "th";
  "π r 2"; "sq"; "mark"; "l"; "toy"; "coin"; "sq . m"; "gallon"; "° f";
  "profit"; "minw"; "yr"; "women"; "feet"; "am"; "pm"; "hr"; "cu cm";
  "square"; "v â € ™"; "are"; "rupee"; "rounds"; "cubic"; "cc"; "mtr"; "s";
  "ohm"; "number"; "kmph"; "day"; "hour"; "minute"; "min"; "second"; "man";
  "woman"; "sec"; "cube"; "mt"; "sq inch"; "mp"; "∏ cm ³"; "hectare"; "more";
  "sec"; "unit"; "cu . m"; "cm 2"; "rs ."; "rs"; "kg"; "g"; "month"; "km";
  "m"; "cm"; "mm"; "apple"; "liter"; "loss"; "yard"; "pure"; "year";
  "increase"; "decrease"; "d"; "less"; "Surface"; "litre"; "pi sq m"; "s .";
  "metre"; "meter"; "inch"
]%string.

Definition UNIT_TEXTS : list str :=
  map u UNIT_TEXTS_base ++ map (fun t => u t ++ u "s") UNIT_TEXTS_base.

(** A unit text is pasted into the pattern as it is; its only character
    that [re] reads as an operator is the dot. *)
Definition unit_atom (c : char) : regex :=
  if c =? ch "." then RSet CDot else RSet (CLit c).

Definition unit_pat (t : str) : regex := rseq (map unit_atom t).

(** [r"(^|\W)" + unit_text + r"($|\W)"] *)
Definition unit_re (t : str) : regex :=
  rseq [RGroup 1 (RAlt RBol (RSet CNotWord)); unit_pat t;
        RGroup 2 (RAlt REol (RSet CNotWord))].

(** [r"\\begin\{array\}\{.*?\}"] *)
Definition re_begin_array : regex :=
  rseq [lit (u "\begin{array}{"); RStar false CDot; lit (u "}")].
(** [r"\\end\{array\}"] *)
Definition re_end_array : regex := lit (u "\end{array}").
(** [r"\\text{.*?}$"] *)
Definition re_text_end : regex :=
  rseq [lit (u "\text{"); RStar false CDot; lit (u "}"); REol].
(** [r"\\text\{(.*?)\}"] *)
Definition re_text : regex :=
  rseq [lit (u "\text{"); RGroup 1 (RStar false CDot); lit (u "}")].
(** [r"\\mbox{.*?}"] *)
Definition re_mbox : regex :=
  rseq [lit (u "\mbox{"); RStar false CDot; lit (u "}")].
(** [r"(\d+)\.0*([^\d])"] *)
Definition re_zeros_mid : regex :=
  rseq [RGroup 1 (plus CDigit); RSet (CLit (ch ".")); RStar true (CLit (ch "0"));
        RGroup 2 (RSet CNotDigit)].
(** [r"(\d+)\.0*$"] *)
Definition re_zeros_end : regex :=
  rseq [RGroup 1 (plus CDigit); RSet (CLit (ch ".")); RStar true (CLit (ch "0"));
        REol].
(** [r"\\sqrt(\w+)"] *)
Definition re_sqrt : regex := rseq [lit (u "\sqrt"); RGroup 1 (plus CWord)].
(** ["choice is|answer is"] *)
Definition re_trigger : regex := RAlt (lit (u "choice is")) (lit (u "answer is")).
(** [r"\b(A|B|C|D|E)\b"] *)
Definition re_choice : regex :=
  rseq [RWordB;
        RGroup 1 (RAlt (lit (u "A")) (RAlt (lit (u "B")) (RAlt (lit (u "C"))
                 (RAlt (lit (u "D")) (lit (u "E"))))));
        RWordB].
(** [r"-?\d*\.?\d+"] *)
Definition re_number : regex :=
  rseq [opt (RSet (CLit (ch "-"))); RStar true CDigit;
        opt (RSet (CLit (ch "."))); plus CDigit].
(** [r"\n\s*"] *)
Definition re_newline : regex := rseq [RSet (CLit NL); RStar true CSpace].

(** What one piece after a ["\\frac"] contributes; [None] is the failed
    [assert len(substr) >= 2], on which [_fix_fracs] gives its argument back. *)
Definition fix_frac_piece (substr : str) : option str :=
  let braced := match substr with c :: _ => c =? ch "{" | [] => false end in
  if braced then Some substr
  else
    match substr with
    | a :: b :: post_substr =>
      if negb (b =? ch "{") then
        match post_substr with
        | _ :: _ => Some (u "{" ++ [a] ++ u "}{" ++ [b] ++ u "}" ++ post_substr)
        | [] => Some (u "{" ++ [a] ++ u "}{" ++ [b] ++ u "}")
        end
      else
        match post_substr with
        | _ :: _ => Some (u "{" ++ [a] ++ u "}" ++ [b] ++ post_substr)
        | [] => Some (u "{" ++ [a] ++ u "}" ++ [b])
        end
    | _ => None
    end.

Fixpoint fix_fracs_loop (new_str : str) (substrs : list str) : option str :=
  match substrs with
  | [] => Some new_str
  | substr :: tl =>
    match fix_frac_piece substr with
    | Some piece => fix_fracs_loop (new_str ++ u "\frac" ++ piece) tl
    | None => None
    end
  end.

Definition _fix_fracs (string : str) : str :=
  match split (u "\frac") string with
  | new_str :: substr :: substrs =>
    match fix_fracs_loop new_str (substr :: substrs) with
    | Some r => r
    | None => string
    end
  | [new_str] => new_str
  | [] => string
  end.

Inductive str_or_int := VStr (s : str) | VInt (z : Z).

(** [f"{v}"] and [str(v)]; [None] where [str] raises *)
Definition fmt (v : str_or_int) : option str :=
  match v with
  | VStr s => Some s
  | VInt z => py_str_int z
  end.

Section WithEnv.
Variable U : unicode.

(** The number-word library (word2number) is outside the repository:
    [word_to_num text] is the text of [str(w2n.word_to_num(text))], and
    [None] where the call raises. *)
Variable word_to_num : str -> option str.

(** [a = int(a)] unless ["sqrt" in a]; [None] where [int] raises *)
Definition int_unless_sqrt (a : str) : option str_or_int :=
  if contains (u "sqrt") a then Some (VStr a)
  else option_map VInt (py_int U a).

Definition _fix_a_slash_b (string : str) : str :=
  match split (u "/") string with
  | [a; b] =>
    match int_unless_sqrt a, int_unless_sqrt b with
    | Some a', Some b' =>
      match fmt a', fmt b' with
      | Some sa, Some sb =>
        if eqb_str string (sa ++ u "/" ++ sb)
        then u "\frac{" ++ sa ++ u "}{" ++ sb ++ u "}"
        else string
      | _, _ => string
      end
    | _, _ => string
    end
  | _ => string
  end.

Definition _fix_sqrt (string : str) : str :=
  sub U re_sqrt [TLit (u "\sqrt{"); TGroup 1; TLit (u "}")] string.

Definition convert_word_number (text : str) : str :=
  match word_to_num text with
  | Some t => t
  | None => text
  end.

(** lines 219-236: trimming and LaTeX synonyms *)
Definition pass_latex (string : str) : str :=
  let string := strip U string in
  let string := replace [NL] [] string in
  let string := rstrip_chars (u ".") string in
  let string := replace (u "\!") [] string in
  let string := sub U re_begin_array [TLit (u "\begin{pmatrix}")] string in
  let string := sub U re_end_array [TLit (u "\end{pmatrix}")] string in
  let string := replace (u "bmatrix") (u "pmatrix") string in
  let string := replace (u "tfrac") (u "frac") string in
  let string := replace (u "dfrac") (u "frac") string in
  let string := replace (u "\geq") (u "\ge")
                  (replace (u "\leq") (u "\le")
                     (replace (u "\neq") (u "\ne") string)) in
  let string := replace (u "\left") [] string in
  let string := replace (u "\right") [] string in
  let string := replace (u "\{") (u "{") string in
  let string := replace (u "\}") (u "}") string in
  string.

(** lines 239-241: a trailing [\text{...}] *)
Definition pass_text_unit (string : str) : str :=
  let _string := strip U (sub U re_text_end [] string) in
  if negb (eqb_str _string []) && negb (eqb_str _string string)
  then _string else string.

(** lines 245-248: one unit text *)
Definition strip_unit (string unit_text : str) : str :=
  let _string := sub U (unit_re unit_text) [TGroup 1; TGroup 2] string in
  if negb (eqb_str _string []) then _string else string.

(** lines 243-248 *)
Definition pass_units (skip_unit : bool) (string : str) : str :=
  if negb skip_unit
  then fold_left strip_unit UNIT_TEXTS (fold_left strip_unit UNIT_TEXTS string)
  else string.

(** lines 251-257: degree and currency symbols, [\(] and [\)] *)
Definition pass_symbols (string : str) : str :=
  let string := replace (u "^{\circ}") [] string in
  let string := replace (u "^\circ") [] string in
  let string := replace (u "\$") [] string in
  let string := replace (u "$") [] string in
  let string := replace (u "\)") [] (replace (u "\(") [] string) in
  string.

(** lines 263-267 *)
Definition pass_text_format (string : str) : str :=
  let string := sub U re_text [TGroup 1] string in
  let string :=
    fold_left (fun s key => replace key [] s)
      (map u ["x="; "y="; "z="; "x\in"; "y\in"; "z\in"; "x\to"; "y\to"; "z\to"]%string)
      string in
  let string := replace (u "\emptyset") (u "{}") string in
  let string := replace (u "(-\infty,\infty)") (u "\mathbb{R}") string in
  string.

(** lines 270-272 *)
Definition pass_percent (string : str) : str :=
  let string := replace (u "\%") [] string in
  let string := replace (u "\%") [] string in
  let string := replace (u "%") [] string in
  string.

(** lines 275-276 *)
Definition pass_decimal (string : str) : str :=
  let string := replace (u " .") (u " 0.") string in
  let string := replace (u "{.") (u "{0.") string in
  string.

(** lines 279-290: [and] binds tighter than [or] *)
Definition pass_brackets (string : str) : str :=
  if (startswith string (u "{") && endswith string (u "}") && isalnum U string)
     || (startswith string (u "(") && endswith string (u ")") && isalnum U string)
     || (startswith string (u "[") && endswith string (u "]") && isalnum U string)
  then slice_inner string
  else string.

(** lines 293-296 *)
Definition pass_infinity (string : str) : str :=
  let string := replace (u "infinity") (u "\infty") string in
  let string :=
    if negb (contains (u "\infty") string)
    then replace (u "inf") (u "\infty") string else string in
  let string := replace (u "+\inity") (u "\infty") string in
  string.

(** lines 298-305; the two [string.replace] calls of lines 301-302 (on the
    quote characters) drop their result, so they change nothing *)
Definition pass_misc (string : str) : str :=
  let string := replace (u "and") [] string in
  let string := replace (u "\mathbf") [] string in
  let string := sub U re_mbox [] string in
  let string :=
    if contains (u "j") string && negb (contains (u "i") string)
    then replace (u "j") (u "i") string else string in
  string.

(** lines 308-309 *)
Definition pass_trailing_zeros (string : str) : str :=
  let string := sub U re_zeros_mid [TGroup 1; TGroup 2] string in
  let string := sub U re_zeros_end [TGroup 1] string in
  string.

(** lines 317-319 *)
Definition pass_equation (string : str) : str :=
  match split (u "=") string with
  | [lhs; rhs] => if (length lhs <=? 2)%nat then rhs else string
  | _ => string
  end.

(** lines 311-326 *)
Definition pass_final (string : str) : str :=
  match string with
  | [] => string
  | c :: _ =>
    let string := if c =? ch "." then u "0" ++ string else string in
    let string := pass_equation string in
    let string := _fix_sqrt string in
    let string := replace (u " ") [] string in
    let string := _fix_fracs string in
    let string := _fix_a_slash_b string in
    string
  end.

(** what [strip_string] does before and after the number-word step *)
Definition strip_string_head (skip_unit : bool) (string : str) : str :=
  pass_symbols (pass_units skip_unit (pass_text_unit (pass_latex string))).

Definition strip_string_tail (string : str) : str :=
  pass_final (pass_trailing_zeros (pass_misc (pass_infinity (pass_brackets
    (pass_decimal (pass_percent (pass_text_format string))))))).

Definition strip_string (string : str) (skip_unit : bool) : str :=
  strip_string_tail (convert_word_number (strip_string_head skip_unit string)).

(* ------------------------------------------------------------------ *)

Definition direct_answer_trigger : list str := [u "choice is"; u "answer is"].

(** lines 331-340: the text cut at the first blank line when a trigger
    phrase occurs more than once *)
Definition choice_icl (pred : str) : result str :=
  let pred := strip_chars [NL] pred in
  let ICL := existsb (fun trigger => (1 <? count trigger pred)%nat)
                     direct_answer_trigger in
  if ICL then index (split [NL; NL] pred) 0 else Ok pred.

(** lines 343-348: [answer_flag] and the segment kept *)
Definition choice_split (pred : str) : result (bool * str) :=
  let preds := re_split U re_trigger pred in
  if (1 <? length preds)%nat
  then (p <- index_last preds ;; Ok (true, p))
  else Ok (false, pred).

(** line 350 *)
Definition choice_trim (pred : str) : str :=
  lstrip_chars (u ":") (strip_chars (u " ")
    (rstrip_chars (u "/") (rstrip_chars (u ".") (strip_chars [NL] pred)))).

(** line 353 *)
Definition choice_letters (pred : str) : list str :=
  findall U re_choice 1 (upper U pred).

Definition choice_answer_clean (pred : str) : result str :=
  pred <- choice_icl pred ;;
  x <- choice_split pred ;;
  let '(answer_flag, pred) := x in
  let pred := choice_trim pred in
  let tmp := choice_letters pred in
  let pred :=
    match tmp with
    | _ :: _ => tmp
    | [] => [strip_chars (u ".") (strip U pred)]
    end in
  pred <- (if (length pred =? 0)%nat then Ok []
           else if answer_flag then index pred 0 else index_last pred) ;;
  Ok (rstrip_chars (u "/") (rstrip_chars (u ".") pred)).

(** lines 399-411: the text between the opening brace and its match *)
Fixpoint boxed_scan (stack : Z) (s : str) : str :=
  match s with
  | [] => []
  | c :: s' =>
    if c =? ch "{" then c :: boxed_scan (stack + 1) s'
    else if c =? ch "}" then
      if (stack - 1 =? 0)%Z then [] else c :: boxed_scan (stack - 1) s'
    else c :: boxed_scan stack s'
  end.

Definition is_choice_name (data_name : str) : bool :=
  existsb (eqb_str data_name)
          (map u ["mmlu_stem"; "sat_math"; "aqua"; "gaokao2023"]%string).

(** lines 389-431: the strategies; [None] is the early return of
    the empty string (line 397) *)
Definition extract_raw (pred_str : str) (use_last_number : bool)
  : result (option str) :=
  if contains (u "final answer is $") pred_str
     && contains (u "$. I hope") pred_str then
    tmp <- index (split_max (u "final answer is $") 1 pred_str) 1 ;;
    p <- index (split_max (u "$. I hope") 1 tmp) 0 ;;
    Ok (Some (strip U p))
  else if contains (u "boxed") pred_str then
    ans <- index_last (split (u "boxed") pred_str) ;;
    match ans with
    | [] => Ok None
    | c :: ans1 =>
      if c =? ch "{" then Ok (Some (boxed_scan 1 ans1))
      else
        a <- index (split (u "$") ans) 0 ;;
        Ok (Some (strip U a))
    end
  else if contains (u "he answer is") pred_str then
    p <- index_last (split (u "he answer is") pred_str) ;;
    Ok (Some (strip U p))
  else if contains (u "final answer is") pred_str then
    p <- index_last (split (u "final answer is") pred_str) ;;
    Ok (Some (strip U p))
  else if contains (u "答案是") pred_str then
    p <- index (split (u "答案是") pred_str) 1 ;;
    q <- index (split [NL; NL] (strip U p)) 0 ;;
    Ok (Some (strip U q))
  else if use_last_number then
    let pred := findall U re_number 0 (replace (u ",") [] pred_str) in
    if (1 <=? length pred)%nat
    then (p <- index_last pred ;; Ok (Some p))
    else Ok (Some [])
  else Ok (Some []).

(** lines 434-448 *)
Definition extract_cleanup (data_name pred : str) : result str :=
  pred <- (if existsb (eqb_str data_name) [u "sat_math"; u "aqua"]
              || contains (u "mmlu") data_name
           then
             let tmp := findall U re_choice 1 (upper U pred) in
             match tmp with
             | _ :: _ => index_last tmp
             | [] => Ok (strip_chars (u ".") (strip U pred))
             end
           else Ok pred) ;;
  let pred := sub U re_newline [] pred in
  let pred := match pred with
              | c :: p' => if c =? ch ":" then p' else pred
              | [] => pred
              end in
  let drop_last_if (x : char) (pred : str) :=
    match rev pred with
    | c :: _ => if c =? x then slice_drop_last pred else pred
    | [] => pred
    end in
  let pred := drop_last_if (ch ".") pred in
  let pred := drop_last_if (ch "/") pred in
  Ok pred.

(** line 382 *)
Definition remove_ki (pred_str : str) : str := replace (u "ки") [] pred_str.

Definition skips_unit (data_name : str) : bool :=
  existsb (eqb_str data_name) [u "carp_en"; u "minerva_math"].

Definition extract_answer (pred_str data_name : str) (use_last_number : bool)
  : result str :=
  let pred_str := remove_ki pred_str in
  if is_choice_name data_name then choice_answer_clean pred_str
  else
    r <- extract_raw pred_str use_last_number ;;
    match r with
    | None => Ok []
    | Some pred =>
      pred <- extract_cleanup data_name pred ;;
      Ok (strip_string pred (skips_unit data_name))
    end.

End WithEnv.
End Parser.

(* ================================================================== *)
(** ** examples/DAPO/hf_math_verify.py *)

Module Verify.
Import Str Re Py Parser.

(** [r"^.*?<\|im_start\|>assistant"] under [re.DOTALL] *)
Definition re_prompt : regex :=
  rseq [RBol; RStar false CAll; lit (u "<|im_start|>assistant")].

Definition stop_words : list str :=
  map u ["</s>"; "<|im_end|>"; "<|endoftext|>"; "[END]"]%string.

(** The label handed to the reward function: a string, an int or [None]. *)
Inductive label_t := LNone | LStr (s : str) | LInt (z : Z).

Definition truthy (l : label_t) : bool :=
  match l with
  | LNone => false
  | LStr s => negb (eqb_str s [])
  | LInt z => negb (z =? 0)%Z
  end.

(** [str(label)], line 113; it raises on an int with more digits than the
    limit *)
Definition str_of_label (l : label_t) : result str :=
  match l with
  | LNone => Ok (u "None")
  | LStr s => Ok s
  | LInt z =>
    match py_str_int z with
    | Some s => Ok s
    | None => Raise ValueError
    end
  end.

(** The calls the reward function makes to its collaborators, in order. *)
Inductive call :=
| CallExtract (response : str)
| CallVerify (gold target : str).

(** What the symbolic parser hands back: instances of sympy's [Basic] or
    [MatrixBase], strings, or anything else; alone or in a list. *)
Inductive pyobj (expr : Type) :=
| OExpr (e : expr)
| OStr (s : str)
| OOther.
Arguments OStr {expr} s.
Arguments OOther {expr}.

Inductive parsed (expr : Type) :=
| PList (l : list (pyobj expr))
| POne (o : pyobj expr).

(** [if not isinstance(x, list): x = [x]] *)
Definition promote {expr : Type} (x : parsed expr) : list (pyobj expr) :=
  match x with
  | PList l => l
  | POne o => [o]
  end.

Section WithEnv.
Variable U : unicode.
Variable word_to_num : str -> option str.

(** The symbolic-math library (math_verify, sympy) is outside the
    repository; both of its entry points can raise. *)
Variable expr : Type.
Variable parse : str -> result (parsed expr).
Variable sympy_expr_eq : expr -> expr -> Z -> Z -> bool -> result bool.

(** the first response-trimming steps of [extract_solution], lines 36-42 *)
Definition cut_stop_word (model_output stop_word : str) : result str :=
  if contains stop_word model_output
  then (x <- index (split stop_word model_output) 0 ;; Ok (strip U x))
  else Ok model_output.

Fixpoint cut_stop_words (model_output : str) (l : list str) : result str :=
  match l with
  | [] => Ok model_output
  | w :: l' => x <- cut_stop_word model_output w ;; cut_stop_words x l'
  end.

Definition trim_response (response : str) : result str :=
  let model_output :=
    sub_count U re_prompt [TLit (u "<|im_start|>assistant")] 1 response in
  cut_stop_words model_output stop_words.

Definition extract_solution (response : str) : result str :=
  model_output <- trim_response response ;;
  let model_output := slice_last 300 model_output in
  extract_answer U word_to_num model_output (u "math") false.

Section VerifyWithSympy.
Variables (float_rounding numeric_precision : Z) (strict : bool).

Definition compare_single (gold target : pyobj expr) : result bool :=
  match gold, target with
  | OExpr g, OExpr t => sympy_expr_eq g t float_rounding numeric_precision strict
  | OStr g, OStr t =>
    let g := strip U g in
    let t := strip U t in
    Ok ((0 <? length g)%nat && (0 <? length t)%nat && eqb_str g t)
  | _, _ => Ok false
  end.

Definition safe_compare (g t : pyobj expr) : bool :=
  match compare_single g t with
  | Ok b => b
  | Raise _ => false
  end.

Definition _verify_with_sympy (gold target : parsed expr) : bool :=
  existsb (fun gt => safe_compare (fst gt) (snd gt))
          (list_prod (promote gold) (promote target)).

End VerifyWithSympy.

Definition _hf_verify (gold target : str) : bool :=
  if eqb_str gold target then true
  else
    match (parsed_target <- parse target ;;
           parsed_gold <- parse gold ;;
           Ok (_verify_with_sympy 6 15 true parsed_gold parsed_target)) with
    | Ok b => b
    | Raise _ => false
    end.

(** [f"\\boxed{{{x}}}"] unless ["\\boxed" in x] *)
Definition box (x : str) : str :=
  if negb (contains (u "\boxed") x) then u "\boxed{" ++ x ++ u "}" else x.

Definition get_dapo_math_reward (response : str) (label : label_t)
  : result Z * list call :=
  if negb (truthy label) then (Ok 0%Z, [])
  else
    match str_of_label label with
    | Raise e => (Raise e, [])
    | Ok label =>
      match extract_solution response with
      | Raise e => (Raise e, [CallExtract response])
      | Ok extracted_answer =>
        if eqb_str extracted_answer [] then (Ok 0%Z, [CallExtract response])
        else
          let boxed_answer := box extracted_answer in
          let boxed_label := box label in
          let is_correct := _hf_verify boxed_label boxed_answer in
          (Ok (if is_correct then 1%Z else 0%Z),
           [CallExtract response; CallVerify boxed_label boxed_answer])
      end
    end.

End WithEnv.
End Verify.

(* ================================================================== *)
(** ** examples/search-r1/local_search_server.py *)

Module Search.
Import Str Py.

(** What [await resp.json()] gives.  Of a number the code only asks whether
    it is zero.  A dict is its items in order. *)
Inductive json :=
| JNull
| JBool (b : bool)
| JNum (nonzero : bool)
| JStr (s : str)
| JList (l : list json)
| JDict (items : list (str * json)).

(** How the request inside the [try] block ends. *)
Inductive transport :=
| ConnectionFailed          (* the session or the POST raises *)
| BadStatus                 (* resp.raise_for_status() raises *)
| BadBody                   (* resp.json() raises *)
| Body (result : json).

Fixpoint dict_get (items : list (str * json)) (key : str) (default : json)
  : json :=
  match items with
  | [] => default
  | (k, v) :: items' => if eqb_str k key then v else dict_get items' key default
  end.

(** [x.get(key, default)]: only a dict has [get] *)
Definition get (x : json) (key : str) (default : json) : result json :=
  match x with
  | JDict items => Ok (dict_get items key default)
  | _ => Raise AttributeError
  end.

(** [x[0]] *)
Definition first (x : json) : result json :=
  match x with
  | JList (a :: _) => Ok a
  | JList [] => Raise IndexError
  | JStr (c :: _) => Ok (JStr [c])
  | JStr [] => Raise IndexError
  | JDict _ => Raise KeyError
  | _ => Raise TypeError
  end.

(** [for item in x] *)
Definition iterate (x : json) : result (list json) :=
  match x with
  | JList l => Ok l
  | JStr s => Ok (map (fun c => JStr [c]) s)
  | JDict items => Ok (map (fun kv => JStr (fst kv)) items)
  | _ => Raise TypeError
  end.

Definition json_truthy (x : json) : bool :=
  match x with
  | JNull => false
  | JBool b => b
  | JNum nz => nz
  | JStr s => negb (eqb_str s [])
  | JList l => negb (length l =? 0)%nat
  | JDict l => negb (length l =? 0)%nat
  end.

Record context := { document_contents : str }.

Definition no_title : str := [DQ] ++ u "No title." ++ [DQ].
Definition no_snippet : str := u "No snippet available.".

Section WithUnicode.
Variable U : unicode.

(** lines 95-111 *)
Definition format_content (content : json) : result str :=
  match content with
  | JStr content =>
    let lines := split_max [NL] 1 content in
    let title := match lines with l0 :: _ => strip U l0 | [] => u "No title." end in
    let text := match lines with _ :: l1 :: _ => strip U l1 | _ => [] end in
    let title := strip_chars [DQ] title in
    let title := match title with _ :: _ => [DQ] ++ title ++ [DQ] | [] => no_title end in
    let text := match text with [] => no_snippet | _ => text end in
    Ok (title ++ [NL] ++ text)
  | _ => Raise AttributeError
  end.

(** lines 86-120, one turn of the loop: what is appended, if anything *)
Definition format_item (item : json) : result (list context) :=
  match item with
  | JDict _ =>
    content <- get item (u "contents") (JStr []) ;;
    if json_truthy content
    then (c <- format_content content ;; Ok [{| document_contents := c |}])
    else Ok [{| document_contents := no_title ++ [NL] ++ no_snippet |}]
  | _ => Ok []
  end.

Fixpoint format_items (items : list json) : result (list context) :=
  match items with
  | [] => Ok []
  | item :: items' =>
    c <- format_item item ;;
    cs <- format_items items' ;;
    Ok (c ++ cs)
  end.

Definition local_search (outcome : transport) : result (list context) :=
  match outcome with
  | ConnectionFailed | BadStatus | BadBody => Ok []
  | Body result =>
    r <- get result (u "result") (JList [JList []]) ;;
    retrieval_results <- first r ;;
    items <- iterate retrieval_results ;;
    format_items items
  end.

End WithUnicode.
End Search.

(* ================================================================== *)
(** ** Instances for the closed examples *)

Module Sample.
Import Str Py Verify.

(** The character database on the Cyrillic small letters U+0430..U+044F
    (alphabetic, upper case 32 below); no other code point above 127 is
    classified. *)
Definition cyrillic_small (c : char) : bool := (1072 <=? c) && (c <=? 1103).

Definition table : unicode := {|
  u_isspace := fun _ => false;
  u_isalnum := cyrillic_small;
  u_decimal := fun _ => None;
  u_upper := fun c => [if cyrillic_small c then c - 32 else c]
|}.

(** The number-word step on the texts of the examples: a string of ASCII
    digits is read as its value, a text without any number word is
    rejected.  (No example holds an English number word.) *)
Definition w2n (text : str) : option str :=
  match text with
  | [] => None
  | _ :: _ =>
    if forallb ascii_digit text
    then match py_int table text with
         | Some z => py_str_int z
         | None => None
         end
    else None
  end.

(** A symbolic library that rejects every text, and one that finds nothing
    in any text. *)
Definition parse_raises : str -> result (parsed unit) :=
  fun _ => Raise ValueError.
Definition parse_nothing : str -> result (parsed unit) :=
  fun _ => Ok (PList []).
Definition expr_eq : unit -> unit -> Z -> Z -> bool -> result bool :=
  fun _ _ _ _ _ => Ok true.

(** A response of 310 characters: a boxed 5, then 291 letters x, then the
    word boxed with a step tag inside it and a braced 5. *)
Definition split_marker_response : str :=
  u "\boxed{5}" ++ repeat 120 291 ++ u "boкиxed{5}".

End Sample.

(* ================================================================== *)
(** ** Predicates used in the statements *)

Module Props.
Import Str Re Py Parser Verify Search.

(** one of the answer markers of [extract_answer] (lines 389-419) occurs *)
Definition answer_pattern (s : str) : bool :=
  (contains (u "final answer is $") s && contains (u "$. I hope") s)
  || contains (u "boxed") s
  || contains (u "he answer is") s
  || contains (u "final answer is") s
  || contains (u "答案是") s.

(** a retrieval result the formatting loop can take: not a dict, or a dict
    whose [contents] is a string or falsy *)
Definition item_ok (item : json) : bool :=
  match item with
  | JDict items =>
    match dict_get items (u "contents") (JStr []) with
    | JStr _ => true
    | c => negb (json_truthy c)
    end
  | _ => true
  end.

(** the documented body: a dict whose [result], when present, is a list
    that starts with a list of such items *)
Definition well_shaped (body : json) : bool :=
  match body with
  | JDict items =>
    match dict_get items (u "result") (JList [JList []]) with
    | JList (JList rs :: _) => forallb item_ok rs
    | _ => false
    end
  | _ => false
  end.

(** the letters a choice can be *)
Definition letters : list str := map u ["A"; "B"; "C"; "D"; "E"]%string.

(** where a match attempt starts *)
Definition start (p : option char) (s : str) : mstate :=
  {| prev := p; rest := s; caps := [] |}.

(** What a repetition can consume: a run of characters of the class. *)
Inductive star_rel (ok : char -> bool)
  : option char -> str -> option char -> str -> Prop :=
| star_stop p s : star_rel ok p s p s
| star_more p c s p' s' :
    ok c = true -> star_rel ok (Some c) s p' s' -> star_rel ok p (c :: s) p' s'.

(** [matches U r st st']: the pattern [r] can take the matcher from [st] to
    [st'] (without regard to the order in which the matcher tries). *)
Fixpoint matches (U : unicode) (r : regex) (st st' : mstate) : Prop :=
  match r with
  | REps => st' = st
  | RSet cs =>
    exists c, rest st = c :: rest st' /\ in_cset U cs c = true
              /\ prev st' = Some c /\ caps st' = caps st
  | RSeq r1 r2 => exists st1, matches U r1 st st1 /\ matches U r2 st1 st'
  | RAlt r1 r2 => matches U r1 st st' \/ matches U r2 st st'
  | RStar _ cs =>
    star_rel (in_cset U cs) (prev st) (rest st) (prev st') (rest st')
    /\ caps st' = caps st
  | RGroup n r1 =>
    exists st1,
      matches U r1 st st1
      /\ st' = {| prev := prev st1; rest := rest st1;
                  caps := (n, firstn (length (rest st) - length (rest st1))
                                     (rest st)) :: caps st1 |}
  | RBol => st' = st /\ prev st = None
  | REol => st' = st /\ (rest st = [] \/ rest st = [NL])
  | RWordB => st' = st /\ xorb (word_before U st) (word_after U st) = true
  end.

(** strings over a class of characters *)
Definition over (D : char -> bool) (s : str) : Prop :=
  Forall (fun c => D c = true) s.

(** digits and the decimal point *)
Definition numchar (c : char) : bool := ascii_digit c || (c =? 46).

(** a pattern that asks for a literal character outside the class [D]
    somewhere on every path *)
Fixpoint blocked (D : char -> bool) (r : regex) : bool :=
  match r with
  | RSet (CLit a) => negb (D a)
  | RSeq r1 r2 => blocked D r1 || blocked D r2
  | RAlt r1 r2 => blocked D r1 && blocked D r2
  | RGroup _ r1 => blocked D r1
  | _ => false
  end.

(** the character before the position reached after reading [l] *)
Fixpoint prev_after (p : option char) (l : str) : option char :=
  match l with
  | [] => p
  | c :: l' => prev_after (Some c) l'
  end.

(** the suffixes of a numeral [d.e]: digits only, or digits, the point
    and [e] *)
Definition frac_form (e s : str) : Prop :=
  over ascii_digit s \/ exists d, over ascii_digit d /\ s = d ++ 46 :: e.

(** the part the two trailing-zero patterns share: [(\d+)\.0*] *)
Definition zeros_then (X : regex) : regex :=
  RSeq (RGroup 1 (plus CDigit))
       (RSeq (RSet (CLit 46)) (RSeq (RStar true (CLit 48)) X)).

(** balanced braces: reading [s] from depth [d], no closing brace comes at
    depth 0 and the depth at the end is 0 *)
Fixpoint well_nested (d : nat) (s : str) : bool :=
  match s with
  | [] => (d =? 0)%nat
  | c :: s' =>
    if c =? 123 then well_nested (S d) s'
    else if c =? 125 then
      match d with
      | O => false
      | S d' => well_nested d' s'
      end
    else well_nested d s'
  end.

(** no proper non-empty suffix of [sep] is a prefix of it, so that two
    occurrences of [sep] cannot overlap *)
Definition border_free (sep : str) : bool :=
  forallb (fun k => negb (starts_with (skipn k sep) sep))
          (seq 1 (length sep - 1)).

(** [s1] occurs inside [s2] *)
Definition substring (s1 s2 : str) : Prop := exists a b, s2 = a ++ s1 ++ b.

Definition is_dict (j : json) : bool :=
  match j with
  | JDict _ => true
  | _ => false
  end.

(** a string that [strip] with the class [p] leaves as it is: neither its
    first nor its last character is in the class *)
Definition trimmed (p : char -> bool) (s : str) : Prop :=
  match s with [] => True | c :: _ => p c = false end
  /\ match rev s with [] => True | c :: _ => p c = false end.

(** the class stripped from the title at line 100: the double quote *)
Definition is_quote (c : char) : bool := mem c [DQ].

(** the characters of a decimal numeral: the digits and the minus sign *)
Definition signed_digit (c : char) : bool := ascii_digit c || (c =? 45).

(** the code points of a sequence of decimal digits *)
Definition digit_chars (d : Decimal.uint) : str :=
  map N_of_ascii (list_ascii_of_string (NilEmpty.string_of_uint d)).

(** [sep.join(l)] for a non-empty list *)
Definition join (sep : str) (l : list str) : str :=
  match l with
  | [] => []
  | p :: ps => p ++ concat (map (app sep) ps)
  end.

(** the piece starts with an opening brace *)
Definition braced (q : str) : bool :=
  match q with c :: _ => c =? ch "{" | [] => false end.

(** every occurrence of [\frac] in [s] is followed by an opening brace *)
Fixpoint every_frac_braced (s : str) : bool :=
  (negb (starts_with (u "\frac") s) || starts_with (u "\frac{") s)
  && match s with [] => true | _ :: s' => every_frac_braced s' end.

(** *** Multiple-choice cleaning, said without patterns *)

(** the letters a choice can be, as characters: A to E *)
Definition is_choice_letter (c : char) : bool := (65 <=? c) && (c <=? 69).

Definition word_opt (U : unicode) (p : option char) : bool :=
  match p with Some c => isword U c | None => false end.

(** the standalone letters A-E of [s], left to right: a letter with no word
    character before it ([p] is the character before [s]) and none after *)
Fixpoint standalone_letters (U : unicode) (p : option char) (s : str)
  : list char :=
  match s with
  | [] => []
  | c :: s' =>
    (if is_choice_letter c && negb (word_opt U p)
        && negb (word_opt U (hd_error s'))
     then [c] else [])
    ++ standalone_letters U (Some c) s'
  end.

(** a trigger phrase starts here *)
Definition trigger_here (s : str) : bool :=
  starts_with (u "choice is") s || starts_with (u "answer is") s.

(** the text after the last trigger phrase of [s], if there is one *)
Fixpoint after_last_trigger (s : str) : option str :=
  match s with
  | [] => None
  | _ :: s' =>
    match after_last_trigger s' with
    | Some t => Some t
    | None => if trigger_here s then Some (skipn 9 s) else None
    end
  end.

(** the text before the first blank line *)
Fixpoint before_blank_line (s : str) : str :=
  match s with
  | [] => []
  | c :: s' => if starts_with [NL; NL] s then [] else c :: before_blank_line s'
  end.

(** the prediction without the newlines around it, cut at the first blank
    line when a trigger phrase occurs more than once *)
Definition icl_cut (pred : str) : str :=
  let pred := strip_chars [NL] pred in
  if (1 <? count (u "choice is") pred)%nat || (1 <? count (u "answer is") pred)%nat
  then before_blank_line pred else pred.

(** a trigger phrase occurs in what is left: the split gives more than one
    segment *)
Definition answer_flag (pred : str) : bool :=
  match after_last_trigger (icl_cut pred) with Some _ => true | None => false end.

(** the last segment, its boundary punctuation stripped *)
Definition kept_segment (pred : str) : str :=
  let p := icl_cut pred in
  let seg := match after_last_trigger p with Some t => t | None => p end in
  lstrip_chars (u ":") (strip_chars (u " ")
    (rstrip_chars (u "/") (rstrip_chars (u ".") (strip_chars [NL] seg)))).

(** *** Strings that the normaliser leaves as they are *)

(** the substrings that some pass of [strip_string] rewrites or removes
    wherever they occur ([$] stands for itself and for the escaped form, and
    so does [%]; [=] for the prefixes [x=], [y=], [z=] and for the equation
    of lines 317-319; a pattern stands by the literal text it starts
    with) *)
Definition rewritten : list str := map u [
  "\!"; "\begin{array}{"; "\end{array}"; "bmatrix"; "tfrac"; "dfrac";
  "\neq"; "\leq"; "\geq"; "\left"; "\right"; "\{"; "\}"; "\text{";
  "^{\circ}"; "^\circ"; "$"; "\("; "\)"; "="; "x\in"; "y\in"; "z\in";
  "x\to"; "y\to"; "z\to"; "\emptyset"; "(-\infty,\infty)"; "%"; "{.";
  "infinity"; "+\inity"; "and"; "\mathbf"; "\mbox{"
]%string.

(** the unit text, read as the pattern reads it (a dot stands for any
    character but the newline), is at the start of [s] *)
Fixpoint unit_at (w s : str) : bool :=
  match w, s with
  | [], _ => true
  | a :: w', c :: s' =>
    (if a =? ch "." then negb (c =? NL) else c =? a) && unit_at w' s'
  | _ :: _, [] => false
  end.

(** the unit text occurs in [s] as a whole token: at the start of the
    string or after a character that is not a word character ([p] is the
    character before [s]), and up to the end of the string or a character
    that is not a word character *)
Fixpoint stands_alone (U : unicode) (w : str) (p : option char) (s : str)
  : bool :=
  (unit_at w s && negb (word_opt U p)
   && negb (word_opt U (hd_error (skipn (length w) s))))
  || match s with
     | [] => false
     | c :: s' => stands_alone U w (Some c) s'
     end.

(** after the zeros at the start of [s] comes a decimal digit *)
Fixpoint digit_after_zeros (U : unicode) (s : str) : bool :=
  match s with
  | [] => false
  | c :: s' => if c =? 48 then digit_after_zeros U s' else isdecimal U c
  end.

(** every point that follows a digit has, after the zeros behind it, a
    further digit: neither trailing-zero pattern matches *)
Fixpoint points_ok (U : unicode) (after_digit : bool) (s : str) : bool :=
  match s with
  | [] => true
  | c :: s' =>
    (negb (after_digit && (c =? 46)) || digit_after_zeros U s')
    && points_ok U (isdecimal U c) s'
  end.

(** no [\sqrt] is followed by a word character *)
Fixpoint sqrt_ok (U : unicode) (s : str) : bool :=
  negb (starts_with (u "\sqrt") s && word_opt U (hd_error (skipn 5 s)))
  && match s with [] => true | _ :: s' => sqrt_ok U s' end.

(** no slash, or no [sqrt] and a character that a printed integer and the
    slash do not have: the string is not a quotient [a/b] that
    [_fix_a_slash_b] rewrites *)
Definition slash_ok (s : str) : bool :=
  negb (contains (u "/") s)
  || (negb (contains (u "sqrt") s)
      && existsb (fun c => negb (signed_digit c || (c =? 47))) s).

(** [stable U skip_unit t]: no pass of [strip_string] finds anything to do
    in [t] (the number-word step apart, which is the library's) *)
Definition stable (U : unicode) (skip_unit : bool) (t : str) : bool :=
  forallb (fun c => negb (isspace U c)) t
  && forallb (fun w => negb (contains w t)) rewritten
  && (contains (u "\infty") t || negb (contains (u "inf") t))
  && (negb (contains (u "j") t) || contains (u "i") t)
  && (skip_unit
      || forallb (fun w => negb (stands_alone U w None t)) UNIT_TEXTS)
  && negb (starts_with (u ".") t)
  && negb (endswith t (u "."))
  && points_ok U false t
  && sqrt_ok U t
  && every_frac_braced t
  && slash_ok t.

End Props.

(* ================================================================== *)
(** * Properties *)

Import Str Re Py Parser Verify Search Props.

Lemma eqb_str_true (a b : str) : eqb_str a b = true <-> a = b.
Proof.
  unfold eqb_str. destruct (list_eq_dec N.eq_dec a b); split; congruence.
Qed.

Lemma eqb_str_refl (a : str) : eqb_str a a = true.
Proof. now apply eqb_str_true. Qed.

Lemma eqb_str_false (a b : str) : eqb_str a b = false <-> a <> b.
Proof.
  unfold eqb_str. destruct (list_eq_dec N.eq_dec a b); split; congruence.
Qed.

(* ------------------------------------------------------------------ *)
(** ** The equivalence checker *)

Section CheckerFacts.
Variable U : unicode.
Variable expr : Type.
Variable parse : str -> result (parsed expr).
Variable sympy_expr_eq : expr -> expr -> Z -> Z -> bool -> result bool.

Lemma safe_compare_true fr np st (g t : pyobj expr) :
  safe_compare U sympy_expr_eq fr np st g t = true
  <-> compare_single U sympy_expr_eq fr np st g t = Ok true.
Proof.
  unfold safe_compare.
  destruct (compare_single U sympy_expr_eq fr np st g t) as [b|e];
    split; intro H; congruence.
Qed.

Lemma verify_with_sympy_true fr np st (gold target : parsed expr) :
  _verify_with_sympy U sympy_expr_eq fr np st gold target = true
  <-> exists g t, In g (promote gold) /\ In t (promote target)
                  /\ compare_single U sympy_expr_eq fr np st g t = Ok true.
Proof.
  unfold _verify_with_sympy. rewrite existsb_exists. split.
  - intros [[g t] [Hin Hc]]. apply in_prod_iff in Hin. simpl in Hc.
    exists g, t. rewrite <- safe_compare_true. tauto.
  - intros (g & t & Hg & Ht & Hc). exists (g, t). split.
    + now apply in_prod_iff.
    + simpl. now apply safe_compare_true.
Qed.

End CheckerFacts.

(** C5, as the code has it: [_hf_verify] answers true exactly when the two
    strings are identical (the fast path, taken before any parsing) or both
    parse and some pairing of the promoted operands compares equal.  A
    pairing whose comparison raises counts as not equal and the other
    pairings are still tried; a parse that raises gives false. *)
Theorem C5_hf_verify_true
  (U : unicode) (expr : Type) (parse : str -> result (parsed expr))
  (sympy_expr_eq : expr -> expr -> Z -> Z -> bool -> result bool)
  (gold target : str) :
  _hf_verify U parse sympy_expr_eq gold target = true
  <-> gold = target
      \/ exists pg pt,
           parse gold = Ok pg /\ parse target = Ok pt
           /\ exists g t, In g (promote pg) /\ In t (promote pt)
                /\ compare_single U sympy_expr_eq 6 15 true g t = Ok true.
Proof.
  unfold _hf_verify.
  destruct (eqb_str gold target) eqn:E.
  - apply eqb_str_true in E. tauto.
  - apply eqb_str_false in E.
    destruct (parse target) as [pt|e1] eqn:Et; simpl.
    + destruct (parse gold) as [pg|e2] eqn:Eg; simpl.
      * rewrite verify_with_sympy_true. split.
        -- intros H. right. exists pg, pt. tauto.
        -- intros [H | (pg' & pt' & Hg & Ht & H)]; [contradiction|].
           now inversion Hg; inversion Ht; subst.
      * split; [discriminate|].
        intros [H | (pg' & pt' & Hg & _)]; [contradiction|discriminate].
    + split; [discriminate|].
      intros [H | (pg' & pt' & _ & Ht & _)]; [contradiction|discriminate].
Qed.

(** C5 as stated fails on the fast path: two identical strings compare
    equal although the parser finds nothing in them, so that there is no
    pairing at all, and also although the parser raises on them. *)
Lemma C5_fast_path_counterexample :
  _hf_verify Sample.table Sample.parse_nothing Sample.expr_eq (u "x") (u "x")
  = true
  /\ Sample.parse_nothing (u "x") = Ok (PList [])
  /\ list_prod (promote (PList (expr:=unit) [])) (promote (PList (expr:=unit) []))
     = []
  /\ _hf_verify Sample.table Sample.parse_raises Sample.expr_eq (u "x") (u "x")
     = true
  /\ Sample.parse_raises (u "x") = Raise ValueError.
Proof. repeat split. Qed.

(* ------------------------------------------------------------------ *)
(** ** The retrieval wrapper *)

Lemma format_items_ok (U : unicode) (rs : list json) :
  forallb item_ok rs = true -> exists l, format_items U rs = Ok l.
Proof.
  induction rs as [|r rs IH]; simpl; intros H.
  - now exists [].
  - apply andb_prop in H. destruct H as [Hr Hrs].
    destruct (IH Hrs) as [l Hl]. rewrite Hl.
    destruct r as [| b | nz | s | l0 | items]; simpl; eauto.
    unfold item_ok in Hr.
    destruct (dict_get items (u "contents") (JStr [])) as [| b | nz | s | l0 | it];
      simpl in *; try (rewrite (proj1 (negb_true_iff _) Hr)); simpl; eauto.
    + destruct (negb (eqb_str s [])); simpl; eauto.
Qed.

(** C9, as the code has it: a failure inside the request (connection, HTTP
    status, JSON decoding) gives the empty list, and a decoded body of the
    documented shape gives a list; neither raises. *)
Theorem C9_local_search_guarded (U : unicode) :
  local_search U ConnectionFailed = Ok []
  /\ local_search U BadStatus = Ok []
  /\ local_search U BadBody = Ok []
  /\ forall body, well_shaped body = true ->
                  exists l, local_search U (Body body) = Ok l.
Proof.
  repeat split; try reflexivity.
  intros body H. unfold well_shaped in H.
  destruct body as [| | | | |items]; try discriminate.
  simpl.
  destruct (dict_get items (u "result") (JList [JList []]))
    as [| | | |[|[| | | | rs |] ?]|]; try discriminate.
  simpl. now apply format_items_ok.
Qed.

Lemma C9_local_search_guarded_witness :
  well_shaped (JDict [(u "result", JList [JList [JDict [(u "contents", JStr (u "T"))]]])])
  = true
  /\ exists l,
       local_search Sample.table
         (Body (JDict [(u "result", JList [JList [JDict [(u "contents", JStr (u "T"))]]])]))
       = Ok l.
Proof.
  split; [reflexivity|].
  apply (proj2 (proj2 (proj2 (C9_local_search_guarded Sample.table)))).
  reflexivity.
Defined.

(** C9 as stated fails: a body whose [result] is an empty list makes
    [local_search] raise [IndexError]. *)
Lemma C9_empty_result_counterexample :
  local_search Sample.table (Body (JDict [(u "result", JList [])]))
  = Raise IndexError.
Proof. reflexivity. Qed.

(* ------------------------------------------------------------------ *)
(** ** Facts about [str] methods *)

Lemma replace_go_absent (old new s : str) :
  contains old s = false -> replace_go old new 0 s = s.
Proof.
  induction s as [|c s IH]; intros H; [reflexivity|].
  cbn [contains] in H. apply orb_false_iff in H. destruct H as [H1 H2].
  cbn [replace_go]. rewrite H1. f_equal. auto.
Qed.

Lemma replace_absent (old new s : str) :
  old <> [] -> contains old s = false -> replace old new s = s.
Proof.
  intros Hne H. destruct old as [|a old]; [congruence|].
  unfold replace. now apply replace_go_absent.
Qed.

Lemma split_go_nonempty (sep : str) (limit : option nat) (skip : nat) (s : str) :
  split_go sep limit skip s <> [].
Proof.
  revert limit skip. induction s as [|c s IH]; intros limit skip; simpl.
  - discriminate.
  - destruct skip; [|apply IH].
    destruct limit as [[|n]|]; try discriminate;
      (destruct (starts_with sep (c :: s)); [discriminate|]);
      match goal with |- cons_head _ ?l <> _ => destruct l; discriminate end.
Qed.

Lemma index_0_split (sep s : str) :
  exists x, index (split sep s) 0 = Ok x.
Proof.
  unfold split. pose proof (split_go_nonempty sep None 0 s) as H.
  destruct (split_go sep None 0 s) as [|x l]; [congruence|]. now exists x.
Qed.

Lemma index_last_ok {A : Type} (l : list A) (d : A) :
  l <> [] -> index_last l = Ok (last l d).
Proof.
  intros Hne. unfold index_last.
  destruct (rev l) as [|a r] eqn:E.
  - apply (f_equal (@rev A)) in E. rewrite rev_involutive in E. now subst.
  - apply (f_equal (@rev A)) in E. rewrite rev_involutive in E. subst l.
    simpl. now rewrite last_last.
Qed.

(* ------------------------------------------------------------------ *)
(** ** The bracket stage of the normaliser *)

Lemma isalnum_no_bracket (U : unicode) (s : str) (b : char) :
  isalnum_char U b = false -> isalnum U s = true -> starts_with [b] s = false.
Proof.
  intros Hb H. destruct s as [|c s]; [reflexivity|].
  simpl in *. apply andb_prop in H. destruct H as [Hc _].
  destruct (b =? c) eqn:E; [|reflexivity].
  apply N.eqb_eq in E. subst. congruence.
Qed.

Lemma pass_brackets_id (U : unicode) (s : str) : pass_brackets U s = s.
Proof.
  unfold pass_brackets, startswith.
  change (u "{") with ([123] : str).
  change (u "(") with ([40] : str).
  change (u "[") with ([91] : str).
  destruct (isalnum U s) eqn:E.
  - pose proof (@isalnum_no_bracket U s 123 eq_refl E) as H1.
    pose proof (@isalnum_no_bracket U s 40 eq_refl E) as H2.
    pose proof (@isalnum_no_bracket U s 91 eq_refl E) as H3.
    now rewrite H1, H2, H3.
  - now rewrite !andb_false_r.
Qed.

Lemma strip_string_rejected (U : unicode) (w2n : str -> option str)
  (s h : str) (skip : bool) :
  strip_string_head U skip s = h -> w2n h = None ->
  strip_string U w2n s skip = strip_string_tail U h.
Proof.
  intros Hh Hw. unfold strip_string, convert_word_number. now rewrite Hh, Hw.
Qed.

(** C3: the bracket stage (lines 279-290) leaves every string as it is,
    because [isalnum] is asked of the string with its brackets; so the
    enclosing pair of the alphanumeric [(5)] is not stripped, neither by the
    normaliser nor by the extractor on [\boxed{(5)}]. *)
Theorem C3_brackets_never_stripped (U : unicode) :
  (forall s, pass_brackets U s = s)
  /\ strip_string U Sample.w2n (u "(5)") false = u "(5)"
  /\ extract_answer U Sample.w2n (u "\boxed{(5)}") (u "math") true
     = Ok (u "(5)").
Proof.
  split; [apply pass_brackets_id|].
  assert (E : strip_string U Sample.w2n (u "(5)") false = u "(5)")
    by (rewrite (@strip_string_rejected U Sample.w2n (u "(5)") (u "(5)") false);
        vm_compute; reflexivity).
  split; [exact E|].
  unfold extract_answer.
  replace (is_choice_name (u "math")) with false by (vm_compute; reflexivity).
  replace (extract_raw U (remove_ki (u "\boxed{(5)}")) true)
    with (Ok (Some (u "(5)"))) by (vm_compute; reflexivity).
  cbn [bind].
  replace (extract_cleanup U (u "math") (u "(5)")) with (Ok (u "(5)"))
    by (vm_compute; reflexivity).
  cbn [bind].
  replace (skips_unit (u "math")) with false by (vm_compute; reflexivity).
  now rewrite E.
Qed.

(* ------------------------------------------------------------------ *)
(** ** The reward function: guards *)

(** C7: a falsy label gives 0 at once, with no call to the extractor or the
    checker.  A truthy label is first turned into a string (line 113): when
    that returns, an empty candidate gives 0 with no call to the checker,
    and no exception comes out; when it raises (an int with more digits
    than the limit), the exception comes out of the reward function before
    the extractor is called. *)
Theorem C7_reward_guards
  (U : unicode) (w2n : str -> option str) (expr : Type)
  (parse : str -> result (parsed expr))
  (sympy_expr_eq : expr -> expr -> Z -> Z -> bool -> result bool)
  (response : str) (label : label_t) :
  (truthy label = false ->
   get_dapo_math_reward U w2n parse sympy_expr_eq response label = (Ok 0%Z, []))
  /\ (forall l, str_of_label label = Ok l ->
      extract_solution U w2n response = Ok [] ->
      fst (get_dapo_math_reward U w2n parse sympy_expr_eq response label) = Ok 0%Z
      /\ forall g t,
           ~ In (CallVerify g t)
                (snd (get_dapo_math_reward U w2n parse sympy_expr_eq response label)))
  /\ (forall e, truthy label = true -> str_of_label label = Raise e ->
      get_dapo_math_reward U w2n parse sympy_expr_eq response label
      = (Raise e, [])).
Proof.
  unfold get_dapo_math_reward. split; [|split].
  - intros H. now rewrite H.
  - intros l Hl H. rewrite Hl, H. cbn [eqb_str].
    destruct (truthy label); cbn [negb fst snd]; split; try reflexivity;
      intros g t Hin; simpl in Hin; intuition discriminate.
  - intros e Ht He. now rewrite Ht, He.
Qed.

Lemma C7_reward_guards_witness :
  truthy (LStr []) = false
  /\ str_of_label (LStr (u "1")) = Ok (u "1")
  /\ extract_solution Sample.table Sample.w2n (u "no answer here") = Ok []
  /\ get_dapo_math_reward Sample.table Sample.w2n Sample.parse_raises
       Sample.expr_eq (u "\boxed{1}") (LStr [])
     = (Ok 0%Z, [])
  /\ fst (get_dapo_math_reward Sample.table Sample.w2n Sample.parse_raises
            Sample.expr_eq (u "no answer here") (LStr (u "1")))
     = Ok 0%Z.
Proof.
  split; [reflexivity|]. split; [reflexivity|].
  split; [vm_compute; reflexivity|]. split.
  - apply (proj1 (@C7_reward_guards Sample.table Sample.w2n unit
                    Sample.parse_raises Sample.expr_eq (u "\boxed{1}") (LStr []))).
    reflexivity.
  - apply (proj1 (proj2 (@C7_reward_guards Sample.table Sample.w2n unit
                           Sample.parse_raises Sample.expr_eq
                           (u "no answer here") (LStr (u "1")))) (u "1")).
    + reflexivity.
    + vm_compute. reflexivity.
Defined.

(** C7 as stated fails for a label that [str] cannot print: the candidate
    of the response is empty, the label is the int 10^4300 (4301 digits),
    and the reward function raises [ValueError] instead of returning 0. *)
Lemma C7_long_int_label_counterexample :
  extract_solution Sample.table Sample.w2n (u "no answer here") = Ok []
  /\ truthy (LInt (10 ^ 4300)) = true
  /\ get_dapo_math_reward Sample.table Sample.w2n Sample.parse_raises
       Sample.expr_eq (u "no answer here") (LInt (10 ^ 4300))
     = (Raise ValueError, []).
Proof. split; [|split]; vm_compute; reflexivity. Qed.

(* ------------------------------------------------------------------ *)
(** ** The extractor on concrete texts *)

Lemma extract_answer_rejected (U : unicode) (w2n : str -> option str)
  (s d p q h : str) (un : bool) :
  is_choice_name d = false ->
  extract_raw U (remove_ki s) un = Ok (Some p) ->
  extract_cleanup U d p = Ok q ->
  strip_string_head U (skips_unit d) q = h ->
  w2n h = None ->
  extract_answer U w2n s d un = Ok (strip_string_tail U h).
Proof.
  intros Hd Hr Hc Hh Hw. unfold extract_answer.
  rewrite Hd, Hr. simpl. rewrite Hc. simpl.
  now rewrite (strip_string_rejected U w2n q (skips_unit d) Hh Hw).
Qed.

(** C1, as the code has it: on [\boxed{{a}+{b}}] the brace-depth scan
    yields [{a}+{b}] with both inner pairs kept.  Where unit stripping is
    skipped (carp_en, minerva_math) that is also what [extract_answer]
    returns; for the data set [math] the unit pass then deletes the unit
    text [a], and the answer is [{}+{b}]. *)
Theorem C1_boxed_nested_braces
  (U : unicode) (w2n : str -> option str) (un : bool) :
  w2n (u "{a}+{b}") = None ->
  w2n (u "{}+{b}") = None ->
  extract_raw U (remove_ki (u "\boxed{{a}+{b}}")) un = Ok (Some (u "{a}+{b}"))
  /\ extract_answer U w2n (u "\boxed{{a}+{b}}") (u "carp_en") un
     = Ok (u "{a}+{b}")
  /\ extract_answer U w2n (u "\boxed{{a}+{b}}") (u "minerva_math") un
     = Ok (u "{a}+{b}")
  /\ extract_answer U w2n (u "\boxed{{a}+{b}}") (u "math") un
     = Ok (u "{}+{b}").
Proof.
  intros H1 H2.
  assert (Hraw : extract_raw U (remove_ki (u "\boxed{{a}+{b}}")) un
                 = Ok (Some (u "{a}+{b}")))
    by (destruct un; vm_compute; reflexivity).
  split; [exact Hraw|].
  repeat split.
  - rewrite (@extract_answer_rejected U w2n _ (u "carp_en") _ (u "{a}+{b}")
               (u "{a}+{b}") un eq_refl Hraw); try assumption;
      vm_compute; reflexivity.
  - rewrite (@extract_answer_rejected U w2n _ (u "minerva_math") _ (u "{a}+{b}")
               (u "{a}+{b}") un eq_refl Hraw); try assumption;
      vm_compute; reflexivity.
  - rewrite (@extract_answer_rejected U w2n _ (u "math") _ (u "{a}+{b}")
               (u "{}+{b}") un eq_refl Hraw); try assumption;
      vm_compute; reflexivity.
Qed.

Lemma C1_boxed_nested_braces_witness :
  Sample.w2n (u "{a}+{b}") = None
  /\ Sample.w2n (u "{}+{b}") = None
  /\ extract_answer Sample.table Sample.w2n (u "\boxed{{a}+{b}}")
       (u "minerva_math") true
     = Ok (u "{a}+{b}").
Proof.
  split; [reflexivity|]. split; [reflexivity|].
  apply (@C1_boxed_nested_braces Sample.table Sample.w2n true);
    reflexivity.
Defined.

(** C1 as stated fails for the general-math data set: the answer is
    [{}+{b}], not [{a}+{b}]. *)
Lemma C1_math_counterexample :
  extract_answer Sample.table Sample.w2n (u "\boxed{{a}+{b}}") (u "math") true
  = Ok (u "{}+{b}").
Proof. vm_compute. reflexivity. Qed.

(* ------------------------------------------------------------------ *)
(** ** The deletion of the step tag (line 382) *)

(** C10, as the code has it: the strategies see the text after line 382,
    [remove_ki pred_str], one pass of [str.replace] from left to right.  When that pass leaves no occurrence
    behind, extracting from the text and from the text without its
    occurrences give the same answer. *)
Theorem C10_step_tag_removed_first
  (U : unicode) (w2n : str -> option str) (s d : str) (un : bool) :
  contains (u "ки") (remove_ki s) = false ->
  extract_answer U w2n s d un = extract_answer U w2n (remove_ki s) d un.
Proof.
  intros H. unfold extract_answer.
  assert (E : remove_ki (remove_ki s) = remove_ki s).
  { unfold remove_ki at 1. apply replace_absent; [discriminate|exact H]. }
  now rewrite E.
Qed.

Lemma C10_step_tag_removed_first_witness :
  contains (u "ки") (remove_ki (u "so boкиxed{5}")) = false
  /\ extract_answer Sample.table Sample.w2n (u "so boкиxed{5}") (u "math") true
     = extract_answer Sample.table Sample.w2n (remove_ki (u "so boкиxed{5}"))
         (u "math") true.
Proof.
  split; [reflexivity|].
  apply (@C10_step_tag_removed_first Sample.table Sample.w2n).
  reflexivity.
Defined.

(** C10 as stated fails when deleting the occurrences brings the halves of
    a new one together: from [boxed{ккии}] the answer is [ки], from the same
    text without its occurrence, [boxed{ки}], it is empty. *)
Lemma C10_overlap_counterexample :
  remove_ki (u "boxed{ккии}") = u "boxed{ки}"
  /\ extract_answer Sample.table Sample.w2n (u "boxed{ккии}") (u "math") true
     = Ok (u "ки")
  /\ extract_answer Sample.table Sample.w2n (remove_ki (u "boxed{ккии}"))
       (u "math") true
     = Ok [].
Proof. repeat split; vm_compute; reflexivity. Qed.

(* ------------------------------------------------------------------ *)
(** ** The normaliser on concrete texts *)


(** C4 as stated fails on [3.10]: zeros that follow a non-zero decimal digit
    are kept. *)
Lemma C4_kept_zero_counterexample :
  strip_string Sample.table Sample.w2n (u "3.10") false = u "3.10".
Proof. vm_compute. reflexivity. Qed.

(* ------------------------------------------------------------------ *)
(** ** The reward function: the 300-character window *)

Lemma cut_stop_word_total (U : unicode) (m w : str) :
  exists t, cut_stop_word U m w = Ok t.
Proof.
  unfold cut_stop_word. destruct (contains w m); [|now exists m].
  destruct (index_0_split w m) as [x Hx]. rewrite Hx. simpl. eauto.
Qed.

Lemma cut_stop_words_total (U : unicode) (l : list str) (m : str) :
  exists t, cut_stop_words U m l = Ok t.
Proof.
  revert m. induction l as [|w l IH]; intros m; simpl; [eauto|].
  destruct (cut_stop_word_total U m w) as [x Hx]. rewrite Hx. simpl. apply IH.
Qed.

Lemma trim_response_total (U : unicode) (response : str) :
  exists t, trim_response U response = Ok t.
Proof. unfold trim_response. apply cut_stop_words_total. Qed.

Lemma extract_raw_no_pattern (U : unicode) (s : str) :
  answer_pattern s = false -> extract_raw U s false = Ok (Some []).
Proof.
  unfold answer_pattern, extract_raw. intros H.
  repeat (apply orb_false_iff in H; destruct H as [H ?]).
  rewrite H.
  repeat match goal with E : contains _ s = false |- _ => rewrite E; clear E end.
  reflexivity.
Qed.

Lemma extract_answer_no_pattern (U : unicode) (w2n : str -> option str) (s : str) :
  w2n [] = None ->
  answer_pattern (remove_ki s) = false ->
  extract_answer U w2n s (u "math") false = Ok [].
Proof.
  intros Hw H.
  rewrite (@extract_answer_rejected U w2n s (u "math") [] [] [] false);
    try reflexivity; try assumption.
  now apply extract_raw_no_pattern.
Qed.

(** C6, as the code has it: the extractor is run on the last 300
    characters of the trimmed response (text before the assistant marker
    dropped, cut at the stop tokens).  When none of its answer markers
    occurs in that window once the step tag has been deleted from it, the
    candidate is empty and the reward is 0, whatever precedes the window and
    for every label that [str] can print (line 113 raises on an int with
    more digits than the limit). *)
Theorem C6_answer_before_window_not_seen
  (U : unicode) (w2n : str -> option str) (expr : Type)
  (parse : str -> result (parsed expr))
  (sympy_expr_eq : expr -> expr -> Z -> Z -> bool -> result bool)
  (response : str) (label : label_t) (l : str) :
  w2n [] = None ->
  str_of_label label = Ok l ->
  exists t,
    trim_response U response = Ok t
    /\ extract_solution U w2n response
       = extract_answer U w2n (slice_last 300 t) (u "math") false
    /\ (answer_pattern (remove_ki (slice_last 300 t)) = false ->
        fst (get_dapo_math_reward U w2n parse sympy_expr_eq response label)
        = Ok 0%Z).
Proof.
  intros Hw Hl. destruct (trim_response_total U response) as [t Ht].
  exists t. split; [exact Ht|].
  assert (E : extract_solution U w2n response
              = extract_answer U w2n (slice_last 300 t) (u "math") false)
    by (unfold extract_solution; now rewrite Ht).
  split; [exact E|].
  intros Hp. unfold get_dapo_math_reward.
  rewrite Hl, E, (extract_answer_no_pattern U w2n _ Hw Hp).
  now destruct (truthy label).
Qed.

Lemma C6_answer_before_window_not_seen_witness :
  Sample.w2n [] = None
  /\ fst (get_dapo_math_reward Sample.table Sample.w2n Sample.parse_nothing
            Sample.expr_eq
            (u "so \boxed{5}" ++ repeat 120 301 ++ u "<|im_end|>\boxed{5}")
            (LStr (u "5")))
     = Ok 0%Z.
Proof.
  split; [reflexivity|].
  destruct (@C6_answer_before_window_not_seen Sample.table Sample.w2n unit
              Sample.parse_nothing Sample.expr_eq
              (u "so \boxed{5}" ++ repeat 120 301 ++ u "<|im_end|>\boxed{5}")
              (LStr (u "5")) (u "5") eq_refl eq_refl) as (t & Ht & _ & H).
  vm_compute in Ht. injection Ht as <-. apply H. vm_compute. reflexivity.
Defined.

(** C6 as stated fails when a marker appears in the window only after the
    step tag is deleted: the boxed 5 ends 301 characters before the end, no
    marker occurs in the last 300 characters as they stand, and the reward
    for the label 5 is 1. *)
Lemma C6_split_marker_counterexample :
  trim_response Sample.table Sample.split_marker_response
  = Ok Sample.split_marker_response
  /\ firstn 9 Sample.split_marker_response = u "\boxed{5}"
  /\ length Sample.split_marker_response = 310%nat
  /\ answer_pattern (slice_last 300 Sample.split_marker_response) = false
  /\ fst (get_dapo_math_reward Sample.table Sample.w2n Sample.parse_raises
            Sample.expr_eq Sample.split_marker_response (LStr (u "5")))
     = Ok 1%Z.
Proof. repeat split; vm_compute; reflexivity. Qed.

(* ------------------------------------------------------------------ *)
(** ** What the matcher finds *)

Section MatchFacts.
Variable U : unicode.

Lemma star_sound {A : Type} (g : bool) (ok : char -> bool) (s : str) :
  forall p (k : option char -> str -> option A) x,
    star g ok p s k = Some x ->
    exists p' s', star_rel ok p s p' s' /\ k p' s' = Some x.
Proof.
  induction s as [|c s IH]; intros p k x H; simpl in H.
  - exists p, []. split; [constructor|exact H].
  - destruct (ok c) eqn:Hc.
    + destruct g.
      * destruct (star true ok (Some c) s k) as [y|] eqn:E.
        -- inversion H; subst y. destruct (IH _ _ _ E) as (p' & s' & R & K).
           exists p', s'. split; [now apply star_more|exact K].
        -- exists p, (c :: s). split; [constructor|exact H].
      * destruct (k p (c :: s)) as [y|] eqn:E.
        -- inversion H; subst y. exists p, (c :: s). split; [constructor|exact E].
        -- destruct (IH _ _ _ H) as (p' & s' & R & K).
           exists p', s'. split; [now apply star_more|exact K].
    + exists p, (c :: s). split; [constructor|exact H].
Qed.

Lemma star_complete {A : Type} (g : bool) (ok : char -> bool) p s p' s' :
  star_rel ok p s p' s' ->
  forall (k : option char -> str -> option A) x,
    k p' s' = Some x -> exists y, star g ok p s k = Some y.
Proof.
  induction 1 as [p s|p c s p' s' Hc R IH]; intros k x K.
  - destruct s as [|c s]; simpl; [eauto|].
    destruct (ok c); [|eauto].
    destruct g.
    + destruct (star true ok (Some c) s k); eauto.
    + rewrite K. eauto.
  - simpl. rewrite Hc. destruct (IH k x K) as [y Hy].
    destruct g.
    + rewrite Hy. eauto.
    + destruct (k p (c :: s)); eauto.
Qed.

Lemma run_sound (r : regex) :
  forall st k x, run U r st k = Some x ->
                 exists st', matches U r st st' /\ k st' = Some x.
Proof.
  induction r as [|cs|r1 IH1 r2 IH2|r1 IH1 r2 IH2|g cs|n r1 IH1| | |];
    intros st k x H; simpl in H.
  - exists st. now split.
  - destruct (rest st) as [|c s'] eqn:Er; [discriminate|].
    destruct (in_cset U cs c) eqn:Ec; [|discriminate].
    eexists. split; [|exact H]. simpl. exists c. now rewrite Er.
  - destruct (IH1 _ _ _ H) as (st1 & M1 & K1).
    destruct (IH2 _ _ _ K1) as (st2 & M2 & K2).
    exists st2. split; [|exact K2]. simpl. eauto.
  - destruct (run U r1 st k) as [y|] eqn:E.
    + inversion H; subst y. destruct (IH1 _ _ _ E) as (st' & M & K).
      exists st'. simpl. auto.
    + destruct (IH2 _ _ _ H) as (st' & M & K). exists st'. simpl. auto.
  - destruct (star_sound _ _ _ _ _ H) as (p' & s' & R & K).
    eexists. split; [|exact K]. simpl. now split.
  - destruct (IH1 _ _ _ H) as (st1 & M & K).
    eexists. split; [|exact K]. simpl. eauto.
  - destruct (prev st) eqn:E; [discriminate|]. exists st. simpl. auto.
  - exists st. simpl.
    destruct (rest st) as [|c [|c' s']] eqn:E; try discriminate; auto.
    destruct (c =? NL) eqn:Ec; [|discriminate].
    apply N.eqb_eq in Ec. subst. auto.
  - destruct (xorb (word_before U st) (word_after U st)) eqn:E; [|discriminate].
    exists st. simpl. auto.
Qed.

Lemma run_complete (r : regex) :
  forall st st' k x, matches U r st st' -> k st' = Some x ->
                     exists y, run U r st k = Some y.
Proof.
  induction r as [|cs|r1 IH1 r2 IH2|r1 IH1 r2 IH2|g cs|n r1 IH1| | |];
    intros st st' k x M K; simpl in M |- *.
  - subst. eauto.
  - destruct M as (c & Er & Ec & Ep & Ecaps). rewrite Er, Ec.
    exists x. rewrite <- K. f_equal. destruct st'; simpl in *. now subst.
  - destruct M as (st1 & M1 & M2).
    destruct (IH2 _ _ _ _ M2 K) as [y Hy].
    exact (IH1 _ _ _ _ M1 Hy).
  - destruct M as [M|M].
    + destruct (IH1 _ _ _ _ M K) as [y Hy]. rewrite Hy. eauto.
    + destruct (run U r1 st k); [eauto|]. exact (IH2 _ _ _ _ M K).
  - destruct M as [R Ec].
    eapply star_complete; [exact R|].
    rewrite <- K. f_equal. destruct st'; simpl in *. now subst.
  - destruct M as (st1 & M & ->). exact (IH1 _ _ _ _ M K).
  - destruct M as [-> E]. rewrite E. eauto.
  - destruct M as [-> [E|E]]; rewrite E; eauto.
  - destruct M as [-> E]. rewrite E. eauto.
Qed.

End MatchFacts.


Section ScanFacts.
Variable U : unicode.
Variable re : regex.

Lemma try_match_sound adv p s n cs :
  try_match U re adv p s = Some (n, cs) ->
  exists st', matches U re (start p s) st'
              /\ n = (length s - length (rest st'))%nat /\ cs = caps st'.
Proof.
  unfold try_match. fold (start p s).
  destruct (run U re (start p s) _) as [st|] eqn:E; [|discriminate].
  intros H. inversion H; subst. clear H.
  destruct (run_sound _ _ _ _ E) as (st' & M & K).
  exists st'. split; [exact M|].
  destruct (adv && _); [discriminate|]. now inversion K; subst.
Qed.

Lemma try_match_none adv p s :
  (forall st', ~ matches U re (start p s) st') ->
  try_match U re adv p s = None.
Proof.
  intros H. destruct (try_match U re adv p s) as [[n cs]|] eqn:E; [|reflexivity].
  destruct (try_match_sound _ _ _ E) as (st' & M & _). now destruct (H st').
Qed.

Section Each.
Variable P : rmatch -> Prop.
Hypothesis try_P : forall adv p s n cs,
  try_match U re adv p s = Some (n, cs) -> P (mk s n cs).

Lemma put_char_Forall c (r : scanned) :
  Forall (fun x => P (snd x)) (fst r) ->
  Forall (fun x => P (snd x)) (fst (put_char c r)).
Proof.
  destruct r as [[|[pre m] l] t]; simpl; auto.
  intros H. inversion H; subst. constructor; auto.
Qed.

Lemma scan_Forall (s : str) : forall skip p,
  Forall (fun x => P (snd x)) (fst (scan U re skip p s)).
Proof.
  induction s as [|c s IH]; intros skip p.
  - destruct skip; simpl; [|constructor].
    destruct (try_match U re false p []) as [[[|n] cs]|] eqn:E; simpl.
    + constructor; [eapply try_P, E|].
      destruct (try_match U re true p []) as [[[|n'] cs']|] eqn:E'; simpl;
        try constructor; try (eapply try_P, E'); constructor.
    + constructor; [eapply try_P, E|constructor].
    + constructor.
  - destruct skip; [|simpl; apply IH].
    cbn [scan].
    destruct (try_match U re false p (c :: s)) as [[[|n] cs]|] eqn:E.
    + simpl. constructor; [eapply try_P, E|].
      destruct (try_match U re true p (c :: s)) as [[[|n'] cs']|] eqn:E'; simpl.
      * apply put_char_Forall, IH.
      * constructor; [eapply try_P, E'|apply IH].
      * apply put_char_Forall, IH.
    + simpl. constructor; [eapply try_P, E|apply IH].
    + apply put_char_Forall, IH.
Qed.
End Each.

(** a pattern that matches nowhere in the strings of a class closed under
    suffixes finds nothing in them *)
Variable Q : str -> Prop.
Hypothesis Q_tail : forall c s, Q (c :: s) -> Q s.
Hypothesis no_match : forall p s st', Q s -> ~ matches U re (start p s) st'.

Lemma scan_no_match (s : str) : forall p,
  Q s -> scan U re 0 p s = ([], s).
Proof.
  induction s as [|c s IH]; intros p H; cbn [scan].
  - rewrite try_match_none; [reflexivity|]. intros st'. now apply no_match.
  - rewrite try_match_none by (intros st'; now apply no_match).
    rewrite IH by (eapply Q_tail; eassumption). reflexivity.
Qed.

Lemma sub_no_match (t : list titem) (s : str) :
  Q s -> sub U re t s = s.
Proof.
  intros H. unfold sub, finditer. now rewrite scan_no_match.
Qed.

End ScanFacts.

(* ------------------------------------------------------------------ *)
(** ** Multiple-choice cleaning *)

Lemma firstn_one (c : char) (r : str) :
  firstn (length (c :: r) - length r) (c :: r) = [c].
Proof.
  replace (length (c :: r) - length r)%nat with 1%nat by (cbn [length]; lia).
  reflexivity.
Qed.

Lemma try_match_choice U adv p s n cs :
  try_match U re_choice adv p s = Some (n, cs) ->
  In (group 1 (mk s n cs)) letters.
Proof.
  intros H. destruct (try_match_sound _ _ _ _ _ H) as (st' & M & _ & ->).
  simpl in M.
  destruct M as (st1 & [-> _] & st2 & (st3 & M & ->) & [-> _]).
  simpl.
  assert (E : exists c, In [c] letters /\ rest (start p s) = c :: rest st3).
  { repeat (destruct M as [M|M]);
      destruct M as (st4 & (c & Er & Ec & _) & ->);
      apply N.eqb_eq in Ec; subst c; eexists; (split; [|exact Er]);
      simpl; tauto. }
  destruct E as (c & Hin & Er). simpl in Er. subst s. simpl rest.
  now rewrite firstn_one.
Qed.

Lemma choice_letters_in U (s : str) :
  Forall (fun l => In l letters) (choice_letters U s).
Proof.
  unfold choice_letters, findall, finditer.
  apply Forall_map.
  apply (@scan_Forall U re_choice (fun m => In (group 1 m) letters)).
  intros adv p s0 n cs. apply try_match_choice.
Qed.

Lemma rstrip_letter (l : str) :
  In l letters -> rstrip_chars (u "/") (rstrip_chars (u ".") l) = l.
Proof.
  simpl. intros H. repeat (destruct H as [<-|H]; [reflexivity|]). contradiction.
Qed.

Lemma last_In {A : Type} (l : list A) (d : A) : l <> [] -> In (last l d) l.
Proof.
  induction l as [|a [|b l] IH]; intros H; [congruence|simpl; auto|].
  right. apply IH. discriminate.
Qed.

Lemma re_split_nonempty U re (s : str) : re_split U re s <> [].
Proof.
  unfold re_split. destruct (map fst (fst (finditer U re s))); discriminate.
Qed.

(* ------------------------------------------------------------------ *)
(** ** Strings over a class of characters *)

Section ClassFacts.
Variable D : char -> bool.

Lemma over_tail c s : over D (c :: s) -> over D s.
Proof. intros H. now inversion H. Qed.

Lemma starts_with_outside (old s : str) :
  D (hd 48 old) = false -> D 48 = true -> over D s -> starts_with old s = false.
Proof.
  intros Ho H48 Hs. destruct old as [|a old]; [simpl in Ho; congruence|].
  destruct s as [|c s]; [reflexivity|]. simpl in *.
  destruct (a =? c) eqn:E; [|reflexivity].
  apply N.eqb_eq in E. subst. inversion Hs. congruence.
Qed.

Lemma contains_outside (old s : str) :
  D (hd 48 old) = false -> D 48 = true -> over D s -> contains old s = false.
Proof.
  intros Ho H48. induction s as [|c s IH]; intros Hs.
  - simpl. rewrite starts_with_outside; auto.
  - cbn [contains]. rewrite starts_with_outside, IH; auto.
    now apply over_tail in Hs.
Qed.

Lemma replace_outside (old new s : str) :
  D (hd 48 old) = false -> D 48 = true -> over D s -> replace old new s = s.
Proof.
  intros Ho H48 Hs. apply replace_absent.
  - intros ->. simpl in Ho. congruence.
  - now apply contains_outside.
Qed.

Lemma split_go_absent (sep s : str) :
  contains sep s = false -> split_go sep None 0 s = [s].
Proof.
  induction s as [|c s IH]; intros H; [reflexivity|].
  cbn [contains] in H. apply orb_false_iff in H. destruct H as [H1 H2].
  cbn [split_go]. rewrite H1, IH by assumption. reflexivity.
Qed.

Lemma split_outside (sep s : str) :
  D (hd 48 sep) = false -> D 48 = true -> over D s -> split sep s = [s].
Proof.
  intros. apply split_go_absent. now apply contains_outside.
Qed.

Lemma dropwhile_outside (p : char -> bool) (s : str) :
  (forall c, D c = true -> p c = false) -> over D s -> dropwhile p s = s.
Proof.
  intros Hp Hs. destruct s as [|c s]; [reflexivity|].
  simpl. inversion Hs; subst. now rewrite Hp.
Qed.

Lemma strip_by_outside (p : char -> bool) (s : str) :
  (forall c, D c = true -> p c = false) -> over D s -> strip_by p s = s.
Proof.
  intros Hp Hs. unfold strip_by, rstrip_by, lstrip_by.
  rewrite (dropwhile_outside p Hp Hs).
  rewrite (dropwhile_outside p Hp (s := rev s)).
  - apply rev_involutive.
  - now apply Forall_rev.
Qed.

Lemma over_rstrip (p : char -> bool) (s : str) : over D s -> over D (rstrip_by p s).
Proof.
  intros Hs. unfold rstrip_by. apply Forall_rev.
  apply Forall_rev in Hs. induction (rev s) as [|c l IH]; simpl; [constructor|].
  destruct (p c); [|assumption]. apply IH. now inversion Hs.
Qed.

Section Blocked.
Variable U : unicode.

Lemma star_rel_over ok p s p' s' :
  star_rel ok p s p' s' -> over D s -> over D s'.
Proof. induction 1; intros Hs; auto. apply IHstar_rel. now inversion Hs. Qed.

Lemma matches_blocked (r : regex) :
  forall st st', matches U r st st' -> over D (rest st) ->
                 over D (rest st') /\ blocked D r = false.
Proof.
  induction r as [|cs|r1 IH1 r2 IH2|r1 IH1 r2 IH2|g cs|n r1 IH1| | |];
    intros st st' M Hs; simpl in M.
  - subst. auto.
  - destruct M as (c & Er & Ec & _). rewrite Er in Hs. inversion Hs; subst.
    split; [assumption|]. destruct cs; try reflexivity. simpl in *.
    apply N.eqb_eq in Ec. subst. now rewrite H1.
  - destruct M as (st1 & M1 & M2).
    destruct (IH1 _ _ M1 Hs) as [Hs1 B1].
    destruct (IH2 _ _ M2 Hs1) as [Hs2 B2].
    split; [assumption|]. simpl. now rewrite B1, B2.
  - destruct M as [M|M].
    + destruct (IH1 _ _ M Hs) as [Hs1 B1]. simpl. now rewrite B1.
    + destruct (IH2 _ _ M Hs) as [Hs1 B1]. simpl. now rewrite B1, andb_false_r.
  - destruct M as [R _]. split; [|reflexivity]. eapply star_rel_over; eauto.
  - destruct M as (st1 & M & ->). simpl. eauto.
  - destruct M as [-> _]. auto.
  - destruct M as [-> _]. auto.
  - destruct M as [-> _]. auto.
Qed.

Lemma sub_blocked (re : regex) (t : list titem) (s : str) :
  blocked D re = true -> over D s -> sub U re t s = s.
Proof.
  intros B Hs. apply (@sub_no_match U re (over D)); [exact over_tail| |exact Hs].
  intros p s0 st' Hs0 M.
  destruct (matches_blocked re _ _ M Hs0) as [_ B']. congruence.
Qed.

End Blocked.
End ClassFacts.

(* ------------------------------------------------------------------ *)
(** ** The normaliser on strings of digits and points *)

Lemma numchar_ascii (c : char) :
  numchar c = true -> (c <? 128) = true /\ (c =? 95) = false.
Proof.
  unfold numchar, ascii_digit. intros H.
  destruct (N.ltb_spec c 128), (N.eqb_spec c 95), (N.leb_spec 48 c),
    (N.leb_spec c 57), (N.eqb_spec c 46); simpl in H; try discriminate;
    split; try reflexivity; lia.
Qed.

Lemma numchar_not_space (U : unicode) (c : char) :
  numchar c = true -> isspace U c = false.
Proof.
  intros H. unfold isspace. rewrite (proj1 (numchar_ascii c H)).
  unfold numchar, ascii_digit in H.
  destruct (N.leb_spec 48 c), (N.leb_spec c 57), (N.eqb_spec c 46),
    (N.leb_spec 9 c), (N.leb_spec c 13), (N.leb_spec 28 c), (N.leb_spec c 32);
    simpl in *; try discriminate; try reflexivity; lia.
Qed.

Lemma units_blocked :
  forallb (fun t => blocked numchar (unit_re t)) UNIT_TEXTS = true.
Proof. vm_compute. reflexivity. Qed.

Section NumFacts.
Variable U : unicode.

Ltac inert s H :=
  repeat first
    [ rewrite (@replace_outside numchar _ _ s) by (reflexivity || exact H)
    | rewrite (@sub_blocked numchar U _ _ s) by (reflexivity || exact H)
    | rewrite (@split_outside numchar _ s) by (reflexivity || exact H) ].

Lemma strip_num (s : str) : over numchar s -> strip U s = s.
Proof.
  intros H. apply (@strip_by_outside numchar); [|exact H].
  intros c. apply numchar_not_space.
Qed.

Lemma pass_latex_num (s : str) :
  over numchar s -> pass_latex U s = rstrip_chars (u ".") s.
Proof.
  intros H. unfold pass_latex. rewrite (strip_num H).
  inert s H.
  assert (H1 : over numchar (rstrip_chars (u ".") s)) by now apply over_rstrip.
  set (s1 := rstrip_chars (u ".") s) in *.
  inert s1 H1. reflexivity.
Qed.

Lemma pass_text_unit_num (s : str) : over numchar s -> pass_text_unit U s = s.
Proof.
  intros H. unfold pass_text_unit. inert s H. rewrite (strip_num H).
  now rewrite eqb_str_refl, andb_false_r.
Qed.

Lemma strip_unit_num (s t : str) :
  blocked numchar (unit_re t) = true -> over numchar s -> strip_unit U s t = s.
Proof.
  intros B H. unfold strip_unit. rewrite (@sub_blocked numchar U _ _ s B H).
  now destruct (negb (eqb_str s [])).
Qed.

Lemma strip_units_num (l : list str) (s : str) :
  forallb (fun t => blocked numchar (unit_re t)) l = true ->
  over numchar s -> fold_left (strip_unit U) l s = s.
Proof.
  induction l as [|t l IH]; intros B H; simpl in *; [reflexivity|].
  apply andb_prop in B. destruct B as [B1 B2].
  rewrite strip_unit_num by assumption. now apply IH.
Qed.

Lemma pass_units_num (skip : bool) (s : str) :
  over numchar s -> pass_units U skip s = s.
Proof.
  intros H. unfold pass_units. destruct skip; cbn [negb]; [reflexivity|].
  rewrite (@strip_units_num UNIT_TEXTS s units_blocked H).
  exact (@strip_units_num UNIT_TEXTS s units_blocked H).
Qed.

Lemma pass_symbols_num (s : str) : over numchar s -> pass_symbols s = s.
Proof. intros H. unfold pass_symbols. inert s H. reflexivity. Qed.

Lemma strip_string_head_num (skip : bool) (s : str) :
  over numchar s -> strip_string_head U skip s = rstrip_chars (u ".") s.
Proof.
  intros H. unfold strip_string_head.
  assert (H1 : over numchar (rstrip_chars (u ".") s)) by now apply over_rstrip.
  rewrite (pass_latex_num H), (pass_text_unit_num H1), (pass_units_num _ H1).
  now apply pass_symbols_num.
Qed.

Lemma pass_middle_num (s : str) :
  over numchar s ->
  pass_misc U (pass_infinity (pass_brackets U (pass_decimal (pass_percent
    (pass_text_format U s))))) = s.
Proof.
  intros H.
  unfold pass_text_format. cbn [map fold_left]. inert s H.
  unfold pass_percent. inert s H.
  unfold pass_decimal. inert s H.
  rewrite pass_brackets_id.
  unfold pass_infinity. inert s H.
  replace (if negb (contains (u "\infty") s) then s else s) with s
    by (now destruct (negb _)).
  inert s H.
  unfold pass_misc. inert s H.
  now destruct (contains (u "j") s && negb (contains (u "i") s)); inert s H.
Qed.

Lemma pass_final_num (s : str) :
  over numchar s -> ascii_digit (hd 48 s) = true -> pass_final U s = s.
Proof.
  intros H Hd. destruct s as [|c s]; [reflexivity|].
  unfold pass_final. simpl in Hd.
  assert (E : (c =? ch ".") = false).
  { destruct (N.eqb_spec c (ch ".")) as [->|]; [discriminate|reflexivity]. }
  rewrite E. set (s0 := c :: s) in *.
  unfold pass_equation. inert s0 H.
  unfold _fix_sqrt. inert s0 H.
  unfold _fix_fracs. inert s0 H.
  unfold _fix_a_slash_b. inert s0 H. reflexivity.
Qed.

Lemma strip_string_num (w2n : str -> option str) (skip : bool) (s : str) :
  over numchar s ->
  w2n (rstrip_chars (u ".") s) = None
  \/ w2n (rstrip_chars (u ".") s) = Some (rstrip_chars (u ".") s) ->
  strip_string U w2n s skip
  = pass_final U (pass_trailing_zeros U (rstrip_chars (u ".") s)).
Proof.
  intros H Hw. unfold strip_string, strip_string_tail, convert_word_number.
  rewrite (strip_string_head_num skip H).
  assert (H1 : over numchar (rstrip_chars (u ".") s)) by now apply over_rstrip.
  replace (match w2n (rstrip_chars (u ".") s) with Some t => t | None => rstrip_chars (u ".") s end)
    with (rstrip_chars (u ".") s) by (destruct Hw as [-> | ->]; reflexivity).
  now rewrite (pass_middle_num H1).
Qed.

End NumFacts.

(* ------------------------------------------------------------------ *)
(** ** The trailing-zero patterns *)

Lemma star_rel_split ok p s p' s' :
  star_rel ok p s p' s' ->
  exists l, s = l ++ s' /\ Forall (fun c => ok c = true) l.
Proof.
  induction 1 as [p s|p c s p' s' Hc R (l & -> & Hl)].
  - now exists [].
  - exists (c :: l). split; [reflexivity|now constructor].
Qed.

Lemma star_rel_app ok (l : str) : forall p s,
  Forall (fun c => ok c = true) l -> star_rel ok p (l ++ s) (prev_after p l) s.
Proof.
  induction l as [|c l IH]; intros p s H; simpl.
  - constructor.
  - inversion H; subst. apply star_more; auto.
Qed.

Lemma firstn_prefix {A : Type} (l r : list A) :
  firstn (length (l ++ r) - length r) (l ++ r) = l.
Proof.
  rewrite length_app. replace (length l + length r - length r)%nat
    with (length l + 0)%nat by lia.
  rewrite firstn_app_2. simpl. apply app_nil_r.
Qed.

Lemma split_at_first {A : Type} (x : A) (l1 : list A) : forall l2 r1 r2,
  ~ In x l1 -> ~ In x l2 -> l1 ++ x :: r1 = l2 ++ x :: r2 ->
  l1 = l2 /\ r1 = r2.
Proof.
  induction l1 as [|a l1 IH]; intros [|b l2] r1 r2 H1 H2 E; simpl in *.
  - now inversion E.
  - inversion E; subst. tauto.
  - inversion E; subst. tauto.
  - inversion E; subst. destruct (IH l2 r1 r2) as [-> ->]; tauto.
Qed.

Lemma digit_decimal (U : unicode) (c : char) :
  ascii_digit c = true -> isdecimal U c = true.
Proof.
  intros H. unfold isdecimal, decimal_value. rewrite H.
  unfold ascii_digit in H.
  destruct (N.ltb_spec c 128), (N.leb_spec 48 c), (N.leb_spec c 57);
    simpl in *; try discriminate; try reflexivity; lia.
Qed.

Lemma digits_no_point (d : str) : over ascii_digit d -> ~ In 46 d.
Proof.
  intros H Hin. unfold over in H. rewrite Forall_forall in H.
  now specialize (H _ Hin).
Qed.

Lemma decimals_no_point (U : unicode) (d : str) :
  Forall (fun c => isdecimal U c = true) d -> ~ In 46 d.
Proof.
  intros H Hin. rewrite Forall_forall in H. now specialize (H _ Hin).
Qed.

Section ZeroFacts.
Variable U : unicode.

Lemma zeros_then_matches (X : regex) p s st' :
  matches U (zeros_then X) (start p s) st' ->
  exists ds zs st3,
    s = ds ++ 46 :: zs ++ rest st3
    /\ ds <> []
    /\ Forall (fun c => isdecimal U c = true) ds
    /\ Forall (fun c => c = 48) zs
    /\ caps st3 = [(1%nat, ds)]
    /\ matches U X st3 st'.
Proof.
  intros M. simpl in M.
  destruct M as (st1 & (st0 & (sta & (c & Er & Ec & _ & Eca) & (R & Ecs)) & ->)
                 & st2 & (c2 & Er2 & Ec2 & _ & Eca2) & st3 & (R3 & Ecs3) & MX).
  simpl in *.
  destruct (star_rel_split R) as (l & El & Hl).
  destruct (star_rel_split R3) as (zs & Ez & Hz).
  apply N.eqb_eq in Ec2. subst c2.
  exists (c :: l), zs, st3. repeat split.
  - rewrite Er, El, Er2, Ez. reflexivity.
  - discriminate.
  - now constructor.
  - eapply Forall_impl; [|exact Hz]. intros a Ha. now apply N.eqb_eq in Ha.
  - rewrite Ecs3, Eca2. f_equal; [|congruence]. f_equal.
    rewrite Er, El. change (c :: l ++ rest st0) with ((c :: l) ++ rest st0).
    apply firstn_prefix.
  - exact MX.
Qed.

Lemma frac_form_tail (e : str) c s :
  over ascii_digit e -> frac_form e (c :: s) -> frac_form e s.
Proof.
  intros He [H|(d & Hd & E)].
  - left. now inversion H.
  - destruct d as [|a d]; simpl in E; inversion E; subst.
    + now left.
    + right. exists d. split; [now inversion Hd|reflexivity].
Qed.

(** what follows the point, when the subject is of the form [d.e] *)
Lemma frac_form_after_point (e s ds r : str) :
  frac_form e s -> s = ds ++ 46 :: r ->
  Forall (fun c => isdecimal U c = true) ds -> r = e.
Proof.
  intros [H|(d & Hd & ->)] E Hds.
  - subst s. exfalso. apply (digits_no_point H). apply in_or_app. simpl. auto.
  - symmetry in E.
    destruct (split_at_first 46 ds d r e) as [_ ->]; auto.
    + now apply decimals_no_point with (U := U).
    + now apply digits_no_point.
Qed.

Lemma zeros_mid_no_match (e : str) p s st' :
  over ascii_digit e -> frac_form e s ->
  ~ matches U re_zeros_mid (start p s) st'.
Proof.
  intros He Hs M.
  destruct (@zeros_then_matches (RGroup 2 (RSet CNotDigit)) p s st' M)
    as (ds & zs & st3 & E & _ & Hds & _ & _ & MX).
  simpl in MX. destruct MX as (st4 & (c & Er & Ec & _) & _).
  rewrite Er in E.
  pose proof (@frac_form_after_point e s ds _ Hs E Hds) as Ee.
  assert (Hc : ascii_digit c = true).
  { unfold over in He. rewrite Forall_forall in He. apply He.
    rewrite <- Ee. apply in_or_app. simpl. auto. }
  apply (digit_decimal U) in Hc. now rewrite Hc in Ec.
Qed.

Lemma zeros_end_no_match (e : str) p s st' :
  over ascii_digit e -> (exists x, In x e /\ x <> 48) -> frac_form e s ->
  ~ matches U re_zeros_end (start p s) st'.
Proof.
  intros He (x & Hx & Hx0) Hs M.
  destruct (@zeros_then_matches REol p s st' M)
    as (ds & zs & st3 & E & _ & Hds & Hzs & _ & MX).
  simpl in MX. destruct MX as [-> Hr].
  pose proof (@frac_form_after_point e s ds _ Hs E Hds) as Ee.
  rewrite <- Ee in Hx. apply in_app_or in Hx. destruct Hx as [Hx|Hx].
  - rewrite Forall_forall in Hzs. now apply Hzs in Hx.
  - destruct Hr as [Hr|Hr]; rewrite Hr in Hx, Ee; simpl in Hx; [tauto|].
    destruct Hx as [<-|[]].
    unfold over in He. rewrite Forall_forall in He.
    assert (Hn : ascii_digit NL = true)
      by (apply He; rewrite <- Ee; apply in_or_app; simpl; auto).
    discriminate.
Qed.

Lemma sub_zeros_mid_kept (e s : str) :
  over ascii_digit e -> frac_form e s ->
  sub U re_zeros_mid [TGroup 1; TGroup 2] s = s.
Proof.
  intros He Hs.
  apply (@sub_no_match U re_zeros_mid (frac_form e)); [| |exact Hs].
  - intros c s0. now apply frac_form_tail.
  - intros p s0 st'. now apply zeros_mid_no_match.
Qed.

Lemma sub_zeros_end_kept (e s : str) :
  over ascii_digit e -> (exists x, In x e /\ x <> 48) -> frac_form e s ->
  sub U re_zeros_end [TGroup 1] s = s.
Proof.
  intros He Hx Hs.
  apply (@sub_no_match U re_zeros_end (frac_form e)); [| |exact Hs].
  - intros c s0. now apply frac_form_tail.
  - intros p s0 st'. now apply zeros_end_no_match.
Qed.

Lemma pass_trailing_zeros_kept (d e : str) :
  over ascii_digit d -> over ascii_digit e -> (exists x, In x e /\ x <> 48) ->
  pass_trailing_zeros U (d ++ 46 :: e) = d ++ 46 :: e.
Proof.
  intros Hd He Hx. unfold pass_trailing_zeros.
  assert (Hs : frac_form e (d ++ 46 :: e)) by (right; eauto).
  rewrite (@sub_zeros_mid_kept e _ He Hs). now apply (@sub_zeros_end_kept e).
Qed.

Lemma pass_trailing_zeros_digits (s : str) :
  over ascii_digit s -> pass_trailing_zeros U s = s.
Proof.
  intros Hs. unfold pass_trailing_zeros.
  assert (He : over ascii_digit [49]) by (repeat constructor).
  assert (Hf : frac_form [49] s) by now left.
  rewrite (@sub_zeros_mid_kept [49] s He Hf).
  apply (@sub_zeros_end_kept [49] s He); [|exact Hf].
  exists 49. simpl. split; [auto|discriminate].
Qed.

End ZeroFacts.

Lemma star_greedy_max {A : Type} (ok : char -> bool) (l : str) :
  forall p s (k : option char -> str -> option A) r,
    Forall (fun c => ok c = true) l ->
    ok (hd 0 s) = false \/ s = [] ->
    k (prev_after p l) s = Some r ->
    star true ok p (l ++ s) k = Some r.
Proof.
  induction l as [|c l IH]; intros p s k r Hl Hs K.
  - cbn [app prev_after] in *. destruct s as [|c s]; [exact K|].
    cbn [star hd] in *.
    destruct Hs as [Hs|Hs]; [|discriminate]. now rewrite Hs.
  - inversion Hl as [|? ? Hc Hl']; subst. cbn [app star prev_after] in *.
    rewrite Hc. now rewrite (IH _ _ _ _ Hl' Hs K).
Qed.

Lemma scan_skip_all (U : unicode) (re : regex) (s : str) : forall p,
  scan U re (length s) p s = scan U re 0 (prev_after p s) [].
Proof.
  induction s as [|c s IH]; intros p; [reflexivity|]. simpl length.
  cbn [scan prev_after]. apply IH.
Qed.

Section ZeroTrim.
Variable U : unicode.

Lemma run_zeros_end (d z : str) (p : option char)
  (k : mstate -> option mstate) (r : mstate) :
  d <> [] -> over ascii_digit d -> Forall (fun c => c = 48) z ->
  k {| prev := prev_after (Some 46) z; rest := []; caps := [(1%nat, d)] |}
  = Some r ->
  run U re_zeros_end (start p (d ++ 46 :: z)) k = Some r.
Proof.
  intros Hne Hd Hz K. destruct d as [|c0 d]; [congruence|].
  inversion Hd as [|? ? Hc0 Hd']; subst.
  unfold re_zeros_end. cbn [rseq plus run start rest prev caps app].
  change (in_cset U CDigit c0) with (isdecimal U c0).
  rewrite (digit_decimal U c0 Hc0).
  erewrite star_greedy_max; [reflexivity| | |].
  - eapply Forall_impl; [|exact Hd']. intros a Ha. now apply digit_decimal.
  - left. reflexivity.
  - cbn [run rest prev caps].
    change (in_cset U (CLit (ch ".")) 46) with true. cbv iota.
    rewrite <- (app_nil_r z) at 1.
    erewrite star_greedy_max; [reflexivity| | |].
    + eapply Forall_impl; [|exact Hz]. intros a ->. reflexivity.
    + now right.
    + cbv beta iota. rewrite <- K. do 3 f_equal.
      change (c0 :: d ++ 46 :: z) with ((c0 :: d) ++ 46 :: z).
      now rewrite firstn_prefix.
Qed.

Lemma try_match_zeros_end (d z : str) (p : option char) :
  d <> [] -> over ascii_digit d -> Forall (fun c => c = 48) z ->
  try_match U re_zeros_end false p (d ++ 46 :: z)
  = Some (length (d ++ 46 :: z), [(1%nat, d)]).
Proof.
  intros Hne Hd Hz. unfold try_match. fold (start p (d ++ 46 :: z)).
  match goal with
  | |- context [run U _ _ ?k] =>
    rewrite (@run_zeros_end d z p k
               {| prev := prev_after (Some 46) z; rest := [];
                  caps := [(1%nat, d)] |} Hne Hd Hz eq_refl)
  end.
  cbn [rest caps length]. now rewrite Nat.sub_0_r.
Qed.

Lemma scan_zeros_end_trim (d z : str) :
  d <> [] -> over ascii_digit d -> Forall (fun c => c = 48) z ->
  scan U re_zeros_end 0 None (d ++ 46 :: z)
  = ([([], mk (d ++ 46 :: z) (length (d ++ 46 :: z)) [(1%nat, d)])], []).
Proof.
  intros Hne Hd Hz.
  pose proof (@try_match_zeros_end d z None Hne Hd Hz) as T.
  destruct (d ++ 46 :: z) as [|c s] eqn:Es.
  { destruct d; discriminate. }
  cbn [scan]. rewrite T. cbn [length pred].
  rewrite scan_skip_all.
  cbn [scan]. rewrite try_match_none; [reflexivity|].
  intros st' M.
  destruct (@zeros_then_matches U REol _ _ _ M) as (ds & zs & st3 & E & _).
  destruct ds; discriminate.
Qed.

Lemma sub_zeros_end_trim (d z : str) :
  d <> [] -> over ascii_digit d -> Forall (fun c => c = 48) z ->
  sub U re_zeros_end [TGroup 1] (d ++ 46 :: z) = d.
Proof.
  intros Hne Hd Hz. unfold sub, finditer.
  rewrite (scan_zeros_end_trim Hne Hd Hz). simpl. now rewrite !app_nil_r.
Qed.

Lemma pass_trailing_zeros_trim (d : str) (k : nat) :
  d <> [] -> over ascii_digit d ->
  pass_trailing_zeros U (d ++ 46 :: repeat 48 k) = d.
Proof.
  intros Hne Hd. unfold pass_trailing_zeros.
  assert (Hz : over ascii_digit (repeat 48 k)).
  { apply Forall_forall. intros x Hx. apply repeat_spec in Hx. now subst. }
  rewrite (@sub_zeros_mid_kept U (repeat 48 k) _ Hz) by (right; eauto).
  apply sub_zeros_end_trim; auto.
  apply Forall_forall. intros x Hx. now apply repeat_spec in Hx.
Qed.

End ZeroTrim.

(* ------------------------------------------------------------------ *)
(** ** The normaliser on numerals *)

Lemma digits_num (s : str) : over ascii_digit s -> over numchar s.
Proof.
  apply Forall_impl. intros c H. unfold numchar. now rewrite H.
Qed.

Lemma rstrip_point_digits (s e : str) :
  over ascii_digit e -> e <> [] ->
  rstrip_chars (u ".") (s ++ e) = s ++ e.
Proof.
  intros He Hne. destruct (exists_last Hne) as (e' & c & ->).
  unfold rstrip_chars, rstrip_by. rewrite app_assoc, rev_app_distr.
  cbn [rev app dropwhile].
  assert (Hc : ascii_digit c = true).
  { unfold over in He. rewrite Forall_forall in He. apply He.
    apply in_or_app. simpl. auto. }
  assert (E : mem c (u ".") = false).
  { cbn. destruct (N.eqb_spec c 46) as [->|]; [discriminate|reflexivity]. }
  rewrite E. change (c :: rev (s ++ e')) with (rev [c] ++ rev (s ++ e')).
  rewrite <- rev_app_distr. apply rev_involutive.
Qed.

Section Numerals.
Variable U : unicode.
Variable w2n : str -> option str.

Lemma strip_string_digits (s : str) (skip : bool) :
  over ascii_digit s ->
  w2n s = None \/ w2n s = Some s ->
  strip_string U w2n s skip = s.
Proof.
  intros Hs Hw.
  assert (R : rstrip_chars (u ".") s = s).
  { destruct s as [|c s]; [reflexivity|].
    apply (@rstrip_point_digits [] (c :: s)); [exact Hs|discriminate]. }
  rewrite strip_string_num; [|now apply digits_num|now rewrite R].
  rewrite R, (pass_trailing_zeros_digits U Hs).
  apply pass_final_num; [now apply digits_num|].
  destruct s as [|c s]; [reflexivity|]. now inversion Hs.
Qed.

End Numerals.

(** C4, as the code has it: a point followed only by zeros is dropped
    together with the zeros; when the digits after the point include a
    non-zero digit the numeral is returned as it is, final zeros included. *)
Theorem C4_zero_fraction_trimmed
  (U : unicode) (w2n : str -> option str) (d e : str) (k : nat) (skip : bool) :
  d <> [] -> over ascii_digit d ->
  over ascii_digit e -> (exists x, In x e /\ x <> ch "0") ->
  w2n (d ++ u "." ++ repeat (ch "0") (S k)) = None ->
  w2n (d ++ u "." ++ e) = None ->
  strip_string U w2n (d ++ u "." ++ repeat (ch "0") (S k)) skip = d
  /\ strip_string U w2n (d ++ u "." ++ e) skip = d ++ u "." ++ e.
Proof.
  change (ch "0") with 48.
  change (u "." ++ repeat 48 (S k)) with (46 :: repeat 48 (S k)).
  change (u "." ++ e) with (46 :: e).
  intros Hne Hd He Hx Hw1 Hw2.
  assert (Hz : over ascii_digit (repeat 48 (S k))).
  { apply Forall_forall. intros x Hin. apply repeat_spec in Hin. now subst. }
  assert (Hdn : ascii_digit (hd 48 d) = true).
  { destruct d as [|c d]; [congruence|]. now inversion Hd. }
  assert (Hn : forall f, over ascii_digit f -> over numchar (d ++ 46 :: f)).
  { intros f Hf. apply Forall_app. split; [now apply digits_num|].
    constructor; [reflexivity|now apply digits_num]. }
  assert (Hr : forall f, over ascii_digit f -> f <> [] ->
                rstrip_chars (u ".") (d ++ 46 :: f) = d ++ 46 :: f).
  { intros f Hf Hfn.
    change (d ++ 46 :: f) with (d ++ [46] ++ f). rewrite app_assoc.
    now apply rstrip_point_digits. }
  split.
  - rewrite strip_string_num;
      [|now apply Hn|rewrite Hr by (assumption || discriminate); now left].
    rewrite Hr by (assumption || discriminate).
    rewrite pass_trailing_zeros_trim by assumption.
    apply pass_final_num; [now apply digits_num|assumption].
  - assert (Hen : e <> []) by (destruct Hx as (x & Hin & _); now destruct e).
    rewrite strip_string_num;
      [|now apply Hn|rewrite Hr by assumption; now left].
    rewrite Hr by assumption.
    rewrite pass_trailing_zeros_kept by assumption.
    apply pass_final_num; [now apply Hn|].
    destruct d as [|c d]; [congruence|]. now inversion Hd.
Qed.

Lemma C4_zero_fraction_trimmed_witness :
  Sample.w2n (u "3.00") = None
  /\ Sample.w2n (u "3.10") = None
  /\ strip_string Sample.table Sample.w2n (u "3.00") false = u "3"
  /\ strip_string Sample.table Sample.w2n (u "3.10") false = u "3.10".
Proof.
  split; [reflexivity|]. split; [reflexivity|].
  apply (@C4_zero_fraction_trimmed Sample.table Sample.w2n (u "3") (u "10") 1 false).
  - discriminate.
  - repeat constructor.
  - repeat constructor.
  - exists (ch "1"). split; [simpl; auto|discriminate].
  - reflexivity.
  - reflexivity.
Defined.

(* ================================================================== *)
(** * Further properties of the code *)

(* ------------------------------------------------------------------ *)
(** ** The brace-depth scan *)

Lemma boxed_scan_balanced (body post : str) : forall d,
  well_nested d body = true ->
  boxed_scan (Z.of_nat d + 1) (body ++ ch "}" :: post) = body.
Proof.
  change (ch "}") with 125.
  induction body as [|c body IH]; intros d H; simpl in H.
  - apply Nat.eqb_eq in H. subst d. reflexivity.
  - cbn [app boxed_scan]. change (ch "{") with 123. change (ch "}") with 125.
    destruct (c =? 123) eqn:E1.
    + f_equal. replace (Z.of_nat d + 1 + 1)%Z with (Z.of_nat (S d) + 1)%Z by lia.
      now apply IH.
    + destruct (c =? 125) eqn:E2.
      * destruct d as [|d]; [discriminate|].
        replace (Z.of_nat (S d) + 1 - 1)%Z with (Z.of_nat d + 1)%Z by lia.
        destruct (Z.eqb_spec (Z.of_nat d + 1) 0) as [E|_]; [lia|].
        f_equal. now apply IH.
      * f_equal. now apply IH.
Qed.

Lemma boxed_scan_prefix (s : str) : forall stack,
  exists r, s = boxed_scan stack s ++ r.
Proof.
  induction s as [|c s IH]; intros stack; simpl.
  - now exists [].
  - destruct (c =? ch "{").
    + destruct (IH (stack + 1)%Z) as [r Hr]. exists r. simpl. now f_equal.
    + destruct (c =? ch "}").
      * destruct (stack - 1 =? 0)%Z.
        -- now exists (c :: s).
        -- destruct (IH (stack - 1)%Z) as [r Hr]. exists r. simpl. now f_equal.
      * destruct (IH stack) as [r Hr]. exists r. simpl. now f_equal.
Qed.

Lemma boxed_scan_unclosed (s : str) : forall stack,
  ~ In (ch "}") s -> boxed_scan stack s = s.
Proof.
  induction s as [|c s IH]; intros stack H; simpl; [reflexivity|].
  simpl in H.
  destruct (c =? ch "{"); [f_equal; apply IH; tauto|].
  destruct (N.eqb_spec c (ch "}")) as [->|_]; [tauto|].
  f_equal. apply IH. tauto.
Qed.

(* ------------------------------------------------------------------ *)
(** ** Splitting at occurrences that cannot overlap *)

Lemma starts_with_app_skip (p x y : str) :
  starts_with p (x ++ y) = true -> (length x <= length p)%nat ->
  starts_with (skipn (length x) p) y = true.
Proof.
  revert p. induction x as [|c x IH]; intros p H L; [exact H|].
  destruct p as [|a p]; [simpl in L; lia|].
  simpl in *. apply andb_prop in H. destruct H as [_ H].
  apply IH; [exact H|lia].
Qed.

Lemma starts_with_shorter (q s t : str) :
  starts_with q (s ++ t) = true -> (length q <= length s)%nat ->
  starts_with q s = true.
Proof.
  revert s. induction q as [|a q IH]; intros s H L; [reflexivity|].
  destruct s as [|c s]; [simpl in L; lia|].
  simpl in *. apply andb_prop in H. destruct H as [H1 H2].
  rewrite H1. apply IH; [exact H2|lia].
Qed.

Lemma starts_with_extend (q s t : str) :
  starts_with q s = true -> starts_with q (s ++ t) = true.
Proof.
  revert s. induction q as [|a q IH]; intros s H; [reflexivity|].
  destruct s as [|c s]; [discriminate|].
  simpl in *. apply andb_prop in H. destruct H as [H1 H2].
  rewrite H1. now apply IH.
Qed.

Lemma starts_with_self (p t : str) : starts_with p (p ++ t) = true.
Proof. induction p as [|a p IH]; simpl; [reflexivity|]. now rewrite N.eqb_refl. Qed.

Lemma border_free_spec (sep : str) (k : nat) :
  border_free sep = true -> (1 <= k)%nat -> (k < length sep)%nat ->
  starts_with (skipn k sep) sep = false.
Proof.
  unfold border_free. rewrite forallb_forall. intros H L1 L2.
  apply negb_true_iff, H, in_seq. lia.
Qed.

(** an occurrence that starts inside [pre] ends inside it *)
Lemma occurrence_fits (sep pre tail : str) :
  border_free sep = true -> pre <> [] ->
  starts_with sep (pre ++ sep ++ tail) = true ->
  starts_with sep pre = true.
Proof.
  intros B Hne H.
  destruct (Nat.le_gt_cases (length sep) (length pre)) as [L|L].
  - now apply starts_with_shorter with (t := sep ++ tail).
  - exfalso.
    assert (H1 : starts_with (skipn (length pre) sep) (sep ++ tail) = true)
      by (apply starts_with_app_skip; [exact H|lia]).
    assert (H2 : starts_with (skipn (length pre) sep) sep = true).
    { apply starts_with_shorter with (t := tail); [exact H1|].
      rewrite length_skipn. lia. }
    rewrite border_free_spec in H2; try discriminate; try assumption.
    destruct pre; [congruence|simpl; lia].
Qed.

Lemma split_go_skip (sep : str) (limit : option nat) (x s : str) :
  split_go sep limit (length x) (x ++ s) = split_go sep limit 0 s.
Proof.
  induction x as [|c x IH]; [reflexivity|]. exact IH.
Qed.

Lemma split_go_at_sep (sep t : str) :
  sep <> [] -> split_go sep None 0 (sep ++ t) = [] :: split_go sep None 0 t.
Proof.
  intros Hne. destruct sep as [|a sep]; [congruence|].
  cbn [app split_go]. change (a :: sep ++ t) with ((a :: sep) ++ t).
  rewrite starts_with_self. cbn [option_map length pred]. f_equal.
  apply split_go_skip.
Qed.

Lemma cons_head_app (c : char) (A B : list str) :
  A <> [] -> cons_head c (A ++ B) = cons_head c A ++ B.
Proof. destruct A; [congruence|reflexivity]. Qed.

Lemma split_go_app (sep tail : str) :
  sep <> [] -> border_free sep = true ->
  forall pre k, (k <= length pre)%nat ->
    split_go sep None k (pre ++ sep ++ tail)
    = split_go sep None k pre ++ split_go sep None 0 tail.
Proof.
  intros Hne B. induction pre as [|c pre IH]; intros k L.
  - simpl in L. replace k with O by lia. simpl app at 1.
    now rewrite split_go_at_sep.
  - destruct k as [|k].
    + cbn [app split_go].
      destruct (starts_with sep (c :: pre ++ sep ++ tail)) eqn:E.
      * assert (E' : starts_with sep (c :: pre) = true).
        { apply occurrence_fits with (tail := tail); [exact B|discriminate|exact E]. }
        rewrite E'. cbn [option_map app]. f_equal. apply IH.
        destruct sep as [|a sep]; [congruence|].
        simpl in E'. apply andb_prop in E'. destruct E' as [_ E'].
        cbn [length pred].
        clear - E'. revert pre E'.
        induction sep as [|b sep IHs]; intros pre E'; simpl; [lia|].
        destruct pre as [|c' pre]; [discriminate|].
        simpl in E'. apply andb_prop in E'. destruct E' as [_ E']. simpl.
        apply le_n_S. now apply IHs.
      * assert (E' : starts_with sep (c :: pre) = false).
        { destruct (starts_with sep (c :: pre)) eqn:E'; [|reflexivity].
          apply starts_with_extend with (t := sep ++ tail) in E'.
          simpl app in E'. congruence. }
        rewrite E'. rewrite IH by lia.
        apply cons_head_app. apply split_go_nonempty.
    + cbn [app split_go]. apply IH. simpl in L. lia.
Qed.

(** [(pre + sep + tail).split(sep) == pre.split(sep) + tail.split(sep)] *)
Lemma split_app (sep pre tail : str) :
  sep <> [] -> border_free sep = true ->
  split sep (pre ++ sep ++ tail) = split sep pre ++ split sep tail.
Proof.
  intros Hne B. unfold split. apply split_go_app; auto. lia.
Qed.

Lemma split_absent (sep s : str) :
  contains sep s = false -> split sep s = [s].
Proof. apply split_go_absent. Qed.

Lemma index_last_app {A : Type} (l : list A) (a : A) :
  index_last (l ++ [a]) = Ok a.
Proof. unfold index_last. now rewrite rev_app_distr. Qed.

Lemma split_last_piece (sep pre tail : str) :
  sep <> [] -> border_free sep = true -> contains sep tail = false ->
  index_last (split sep (pre ++ sep ++ tail)) = Ok tail.
Proof.
  intros Hne B H. rewrite split_app by assumption.
  rewrite (split_absent _ _ H). apply index_last_app.
Qed.

(* ------------------------------------------------------------------ *)
(** ** Occurrences *)

Lemma contains_intro (p a b : str) : contains p (a ++ p ++ b) = true.
Proof.
  induction a as [|c a IH].
  - cbn [app]. pose proof (starts_with_self p b) as H.
    destruct (p ++ b); cbn [contains]; now rewrite H.
  - cbn [app contains]. rewrite IH. apply orb_true_r.
Qed.

Lemma contains_elim (p s : str) :
  contains p s = true -> exists a b, s = a ++ p ++ b.
Proof.
  induction s as [|c s IH]; intros H; cbn [contains] in H.
  - rewrite orb_false_r in H. destruct p; [|discriminate]. now exists [], [].
  - apply orb_prop in H. destruct H as [H|H].
    + exists []. simpl. clear IH. revert H. generalize (c :: s) as t.
      induction p as [|a p IHp]; intros t H; [now exists t|].
      destruct t as [|c' t]; [discriminate|]. simpl in H.
      apply andb_prop in H. destruct H as [H1 H2]. apply N.eqb_eq in H1. subst.
      destruct (IHp _ H2) as [b ->]. now exists b.
    + destruct (IH H) as (a & b & ->). now exists (c :: a), b.
Qed.

Lemma contains_substring (p s1 s2 : str) :
  substring s1 s2 -> contains p s2 = false -> contains p s1 = false.
Proof.
  intros (a & b & ->) H. destruct (contains p s1) eqn:E; [|reflexivity].
  destruct (contains_elim _ _ E) as (a' & b' & ->).
  replace (a ++ (a' ++ p ++ b') ++ b) with ((a ++ a') ++ p ++ (b' ++ b)) in H
    by (now rewrite <- !app_assoc).
  now rewrite contains_intro in H.
Qed.

Lemma split_go_two (sep : str) (limit : option nat) (s : str) :
  sep <> [] -> limit <> Some O -> contains sep s = true ->
  exists a b l, split_go sep limit 0 s = a :: b :: l.
Proof.
  intros Hne Hl. induction s as [|c s IH]; intros H; cbn [contains] in H.
  - rewrite orb_false_r in H. destruct sep; [congruence|discriminate].
  - cbn [split_go].
    assert (Hm : forall X : list str,
               match limit with Some O => [c :: s] | _ => X end = X)
      by (intros X; destruct limit as [[|n]|]; congruence).
    rewrite Hm.
    destruct (starts_with sep (c :: s)) eqn:E.
    + pose proof (split_go_nonempty sep (option_map pred limit)
                    (pred (length sep)) s) as N.
      destruct (split_go sep (option_map pred limit) (pred (length sep)) s)
        as [|b l]; [congruence|]. now exists [], b, l.
    + simpl in H. destruct (IH H) as (a & b & l & ->). now exists (c :: a), b, l.
Qed.

Lemma index_1_split (sep s : str) (limit : option nat) :
  sep <> [] -> limit <> Some O -> contains sep s = true ->
  exists x, index (split_go sep limit 0 s) 1 = Ok x.
Proof.
  intros Hne Hl H. destruct (@split_go_two sep limit s Hne Hl H) as (a & b & l & ->).
  now exists b.
Qed.

Lemma index_0_split_go (sep s : str) (limit : option nat) :
  exists x, index (split_go sep limit 0 s) 0 = Ok x.
Proof.
  pose proof (split_go_nonempty sep limit 0 s) as H.
  destruct (split_go sep limit 0 s) as [|x l]; [congruence|]. now exists x.
Qed.

Lemma index_last_split (sep s : str) :
  exists x, index_last (split sep s) = Ok x.
Proof.
  exists (last (split sep s) []). apply index_last_ok. apply split_go_nonempty.
Qed.

(* ------------------------------------------------------------------ *)
(** ** The extractor never raises *)

Section Total.
Variable U : unicode.
Variable w2n : str -> option str.

Lemma extract_raw_total (s : str) (un : bool) :
  exists r, extract_raw U s un = Ok r.
Proof.
  unfold extract_raw.
  destruct (contains (u "final answer is $") s && contains (u "$. I hope") s) eqn:E1.
  { apply andb_prop in E1. destruct E1 as [E1 _].
    destruct (@index_1_split (u "final answer is $") s (Some 1%nat)) as [x Hx];
      try discriminate; try assumption.
    unfold split_max. rewrite Hx. simpl bind.
    destruct (index_0_split_go (u "$. I hope") x (Some 1%nat)) as [y Hy].
    rewrite Hy. simpl. eauto. }
  destruct (contains (u "boxed") s).
  { destruct (index_last_split (u "boxed") s) as [x Hx]. rewrite Hx. simpl bind.
    destruct x as [|c x]; [eauto|]. destruct (c =? ch "{"); [eauto|].
    destruct (index_0_split_go (u "$") (c :: x) None) as [y Hy].
    unfold split. rewrite Hy. simpl. eauto. }
  destruct (contains (u "he answer is") s).
  { destruct (index_last_split (u "he answer is") s) as [x Hx]. rewrite Hx.
    simpl. eauto. }
  destruct (contains (u "final answer is") s).
  { destruct (index_last_split (u "final answer is") s) as [x Hx]. rewrite Hx.
    simpl. eauto. }
  destruct (contains (u "答案是") s) eqn:E5.
  { destruct (@index_1_split (u "答案是") s None) as [x Hx];
      try discriminate; try assumption.
    unfold split. rewrite Hx. simpl bind.
    destruct (index_0_split_go [NL; NL] (strip U x) None) as [y Hy].
    rewrite Hy. simpl. eauto. }
  destruct un; [|eauto].
  destruct (1 <=? length _)%nat eqn:E6; [|eauto].
  rewrite (@index_last_ok _ _ []).
  - simpl. eauto.
  - intros E. rewrite E in E6. discriminate.
Qed.

Lemma extract_cleanup_total (d p : str) :
  exists r, extract_cleanup U d p = Ok r.
Proof.
  unfold extract_cleanup.
  destruct (existsb _ _ || contains (u "mmlu") d); [|simpl; eauto].
  destruct (findall U re_choice 1 (upper U p)) as [|a l] eqn:E.
  - simpl. eauto.
  - rewrite (@index_last_ok _ (a :: l) []) by discriminate. simpl. eauto.
Qed.

Lemma choice_clean_returns (pred : str) :
  exists r, choice_answer_clean U pred = Ok r.
Proof.
  unfold choice_answer_clean.
  assert (Hicl : exists p, choice_icl pred = Ok p).
  { unfold choice_icl. destruct (existsb _ _); [|eauto]. apply index_0_split. }
  destruct Hicl as [p ->]. cbn [bind].
  assert (Hsplit : exists x, choice_split U p = Ok x).
  { unfold choice_split. destruct (1 <? length _)%nat; [|eauto].
    rewrite (index_last_ok [] (@re_split_nonempty U re_trigger p)).
    simpl. eauto. }
  destruct Hsplit as [[flag seg] ->]. cbn [bind].
  destruct (choice_letters U (choice_trim seg)) as [|a l].
  - simpl. destruct flag; simpl; eauto.
  - cbn [length Nat.eqb]. destruct flag.
    + simpl. eauto.
    + rewrite (@index_last_ok _ (a :: l) []) by discriminate. simpl. eauto.
Qed.

Lemma extract_answer_total (s d : str) (un : bool) :
  exists r, extract_answer U w2n s d un = Ok r.
Proof.
  unfold extract_answer.
  destruct (is_choice_name d); [apply choice_clean_returns|].
  destruct (extract_raw_total (remove_ki s) un) as [[p|] ->]; simpl; [|eauto].
  destruct (extract_cleanup_total d p) as [q ->]. simpl. eauto.
Qed.

Lemma extract_solution_total (response : str) :
  exists r, extract_solution U w2n response = Ok r.
Proof.
  unfold extract_solution.
  destruct (trim_response_total U response) as [t ->]. simpl.
  apply extract_answer_total.
Qed.

End Total.

(* ------------------------------------------------------------------ *)
(** ** Extra properties of the extractor *)

Lemma extract_raw_last_boxed
  (U : unicode) (pre body post : str) (un : bool) :
  contains (u "final answer is $")
           (pre ++ u "boxed" ++ u "{" ++ body ++ u "}" ++ post)
  && contains (u "$. I hope")
              (pre ++ u "boxed" ++ u "{" ++ body ++ u "}" ++ post) = false ->
  contains (u "boxed") (u "{" ++ body ++ u "}" ++ post) = false ->
  well_nested 0 body = true ->
  extract_raw U (pre ++ u "boxed" ++ u "{" ++ body ++ u "}" ++ post) un
  = Ok (Some body).
Proof.
  intros Hm Hb Hw. unfold extract_raw. rewrite Hm.
  rewrite (contains_intro (u "boxed") pre _).
  rewrite split_last_piece; [|discriminate|reflexivity|exact Hb].
  cbn [bind]. change (u "{" ++ body ++ u "}" ++ post)
    with (ch "{" :: body ++ ch "}" :: post).
  cbv beta iota. change (ch "{" =? ch "{") with true. cbv iota.
  do 2 f_equal. exact (@boxed_scan_balanced body post 0 Hw).
Qed.

(** X1: when the text after the last [boxed] is an opening brace, a body
    with balanced braces, the closing brace and then anything that holds no
    further [boxed], the boxed strategy yields exactly the body, whatever
    comes before (earlier boxed expressions included). *)
Theorem X1_last_boxed_balanced
  (U : unicode) (pre body post : str) (un : bool) :
  contains (u "final answer is $")
           (pre ++ u "boxed" ++ u "{" ++ body ++ u "}" ++ post)
  && contains (u "$. I hope")
              (pre ++ u "boxed" ++ u "{" ++ body ++ u "}" ++ post) = false ->
  contains (u "boxed") (u "{" ++ body ++ u "}" ++ post) = false ->
  well_nested 0 body = true ->
  extract_raw U (pre ++ u "boxed" ++ u "{" ++ body ++ u "}" ++ post) un
  = Ok (Some body).
Proof. apply extract_raw_last_boxed. Qed.

Lemma X1_last_boxed_balanced_witness :
  well_nested 0 (u "\frac{1}{2}") = true
  /\ extract_raw Sample.table
       (u "first \boxed{7}, then \" ++ u "boxed" ++ u "{" ++ u "\frac{1}{2}"
          ++ u "}" ++ u " is final.") false
     = Ok (Some (u "\frac{1}{2}")).
Proof.
  split; [reflexivity|].
  apply (@X1_last_boxed_balanced Sample.table (u "first \boxed{7}, then \")
           (u "\frac{1}{2}") (u " is final.") false); reflexivity.
Defined.

(** X2: the brace-depth scan only copies: its result is a prefix of the
    text it reads, at any starting depth; and on a text without a closing
    brace (an unterminated box) it is the whole text. *)
Theorem X2_boxed_scan_prefix (stack : Z) (s : str) :
  (exists r, s = boxed_scan stack s ++ r)
  /\ (contains (u "}") s = false -> boxed_scan stack s = s).
Proof.
  split; [apply boxed_scan_prefix|].
  intros H. apply boxed_scan_unclosed. intros Hin.
  apply in_split in Hin. destruct Hin as (a & b & ->).
  change (a ++ ch "}" :: b) with (a ++ u "}" ++ b) in H.
  now rewrite contains_intro in H.
Qed.

Lemma X2_boxed_scan_prefix_witness :
  contains (u "}") (u "{a+{b") = false
  /\ boxed_scan 1 (u "{a+{b") = u "{a+{b".
Proof.
  split; [reflexivity|].
  apply (proj2 (X2_boxed_scan_prefix 1 (u "{a+{b"))). reflexivity.
Defined.

(** X3: when no boxed expression and no Minerva pair is present, the
    candidate is the stripped text after the last occurrence of
    [he answer is]. *)
Theorem X3_after_last_answer_marker
  (U : unicode) (pre tail : str) (un : bool) :
  contains (u "final answer is $") (pre ++ u "he answer is" ++ tail)
  && contains (u "$. I hope") (pre ++ u "he answer is" ++ tail) = false ->
  contains (u "boxed") (pre ++ u "he answer is" ++ tail) = false ->
  contains (u "he answer is") tail = false ->
  extract_raw U (pre ++ u "he answer is" ++ tail) un = Ok (Some (strip U tail)).
Proof.
  intros Hm Hb Ht. unfold extract_raw. rewrite Hm, Hb.
  rewrite (contains_intro (u "he answer is") pre tail).
  rewrite split_last_piece; [reflexivity|discriminate|reflexivity|exact Ht].
Qed.

Lemma X3_after_last_answer_marker_witness :
  extract_raw Sample.table
    (u "The answer is 3? No: t" ++ u "he answer is" ++ u " 4 ") true
  = Ok (Some (u "4")).
Proof.
  apply (@X3_after_last_answer_marker Sample.table
           (u "The answer is 3? No: t") (u " 4 ") true); reflexivity.
Defined.

Lemma extract_raw_marker (U : unicode) (s : str) :
  answer_pattern s = true -> extract_raw U s true = extract_raw U s false.
Proof.
  unfold answer_pattern, extract_raw. intros H.
  destruct (contains (u "final answer is $") s && contains (u "$. I hope") s);
    [reflexivity|].
  destruct (contains (u "boxed") s); [reflexivity|].
  destruct (contains (u "he answer is") s); [reflexivity|].
  destruct (contains (u "final answer is") s); [reflexivity|].
  destruct (contains (u "答案是") s); [reflexivity|discriminate].
Qed.

(** X4: the last-number fallback is consulted only when no answer marker is
    found: for a multiple-choice data set, or when a marker occurs in the
    text (after the deletion of the step tag), [extract_answer] gives the
    same result with [use_last_number] on and off. *)
Theorem X4_fallback_only_without_marker
  (U : unicode) (w2n : str -> option str) (s d : str) :
  is_choice_name d = true \/ answer_pattern (remove_ki s) = true ->
  extract_answer U w2n s d true = extract_answer U w2n s d false.
Proof.
  intros H. unfold extract_answer.
  destruct (is_choice_name d); [reflexivity|].
  destruct H as [H|H]; [discriminate|].
  now rewrite (extract_raw_marker U _ H).
Qed.

Lemma X4_fallback_only_without_marker_witness :
  answer_pattern (remove_ki (u "12 apples so the answer is 7")) = true
  /\ extract_answer Sample.table Sample.w2n (u "12 apples so the answer is 7")
       (u "math") true
     = extract_answer Sample.table Sample.w2n (u "12 apples so the answer is 7")
         (u "math") false.
Proof.
  split; [reflexivity|].
  apply (@X4_fallback_only_without_marker Sample.table Sample.w2n).
  right. reflexivity.
Defined.

(** X5: [extract_answer] never raises: each of its indexing steps
    ([split(...)[1]], [split(...)[-1]], [tmp[-1]], ...) is reached only
    where the index exists, for every text, data set name and flag. *)
Theorem X5_extract_answer_never_raises
  (U : unicode) (w2n : str -> option str) (s d : str) (un : bool) :
  exists r, extract_answer U w2n s d un = Ok r.
Proof. apply extract_answer_total. Qed.

(** X6: for every response and every label that [str] can print (every
    label but an int with more digits than the limit), the reward function
    raises nothing and returns 0 or 1, whatever the symbolic library
    does. *)
Theorem X6_reward_is_a_bit
  (U : unicode) (w2n : str -> option str) (expr : Type)
  (parse : str -> result (parsed expr))
  (sympy_expr_eq : expr -> expr -> Z -> Z -> bool -> result bool)
  (response : str) (label : label_t) (l : str) :
  str_of_label label = Ok l ->
  fst (get_dapo_math_reward U w2n parse sympy_expr_eq response label) = Ok 0%Z
  \/ fst (get_dapo_math_reward U w2n parse sympy_expr_eq response label) = Ok 1%Z.
Proof.
  intros Hl. unfold get_dapo_math_reward.
  destruct (negb (truthy label)); [now left|]. rewrite Hl.
  destruct (extract_solution_total U w2n response) as [a ->].
  destruct (eqb_str a []); [now left|].
  destruct (_hf_verify _ _ _ _ _); simpl; auto.
Qed.

Lemma X6_reward_is_a_bit_witness :
  str_of_label (LInt 42) = Ok (u "42")
  /\ (fst (get_dapo_math_reward Sample.table Sample.w2n Sample.parse_raises
             Sample.expr_eq (u "so \boxed{41}") (LInt 42)) = Ok 0%Z
      \/ fst (get_dapo_math_reward Sample.table Sample.w2n Sample.parse_raises
                Sample.expr_eq (u "so \boxed{41}") (LInt 42)) = Ok 1%Z).
Proof.
  split; [reflexivity|].
  apply (@X6_reward_is_a_bit Sample.table Sample.w2n unit Sample.parse_raises
           Sample.expr_eq (u "so \boxed{41}") (LInt 42) (u "42")).
  reflexivity.
Defined.

(* ------------------------------------------------------------------ *)
(** ** Pieces and substrings *)

Lemma substring_refl (s : str) : substring s s.
Proof. exists [], []. now rewrite app_nil_r. Qed.

Lemma substring_trans (a b c : str) :
  substring a b -> substring b c -> substring a c.
Proof.
  intros (x & y & ->) (x' & y' & ->). exists (x' ++ x), (y ++ y').
  now rewrite <- !app_assoc.
Qed.

Lemma dropwhile_suffix (p : char -> bool) (s : str) :
  exists a, s = a ++ dropwhile p s.
Proof.
  induction s as [|c s (a & IH)]; simpl; [now exists []|].
  destruct (p c); [|now exists []]. exists (c :: a). simpl. now f_equal.
Qed.

Lemma strip_by_substring (p : char -> bool) (s : str) :
  substring (strip_by p s) s.
Proof.
  unfold strip_by, rstrip_by, lstrip_by.
  destruct (dropwhile_suffix p s) as [a Ha].
  destruct (dropwhile_suffix p (rev (dropwhile p s))) as [b Hb].
  exists a, (rev b). rewrite Ha at 1. f_equal.
  rewrite <- (rev_involutive (dropwhile p s)), Hb at 1.
  now rewrite rev_app_distr.
Qed.

Lemma first_piece (sep : str) (limit : option nat) (s : str) :
  sep <> [] -> limit <> Some O ->
  forall h t, split_go sep limit 0 s = h :: t ->
  contains sep h = false /\ exists r, s = h ++ r.
Proof.
  intros Hne Hl. induction s as [|c s IH]; intros h t E.
  - simpl in E. inversion E; subst. split; [|now exists []].
    destruct sep; [congruence|reflexivity].
  - cbn [split_go] in E.
    assert (Hm : forall X : list str,
               match limit with Some O => [c :: s] | _ => X end = X)
      by (intros X; destruct limit as [[|n]|]; congruence).
    rewrite Hm in E. clear Hm.
    destruct (starts_with sep (c :: s)) eqn:Es.
    + inversion E; subst. split; [|now exists (c :: s)].
      destruct sep; [congruence|reflexivity].
    + pose proof (split_go_nonempty sep limit 0 s) as N.
      destruct (split_go sep limit 0 s) as [|h' t'] eqn:E'; [congruence|].
      destruct (IH h' t' eq_refl) as [Hc (r & Hr)].
      simpl in E. inversion E; subst h t.
      split; [|exists r; simpl; now f_equal].
      cbn [contains]. rewrite Hc, orb_false_r.
      destruct (starts_with sep (c :: h')) eqn:E2; [|reflexivity].
      apply starts_with_extend with (t := r) in E2.
      simpl app in E2. rewrite <- Hr in E2. congruence.
Qed.

(* ------------------------------------------------------------------ *)
(** ** Box wrapping and response trimming *)

Lemma box_idempotent (x : str) :
  contains (u "\boxed") (box x) = true /\ box (box x) = box x.
Proof.
  assert (H : contains (u "\boxed") (box x) = true).
  { unfold box. destruct (contains (u "\boxed") x) eqn:E; simpl negb; cbv iota.
    - exact E.
    - change (u "\boxed{" ++ x ++ u "}")
        with ([] ++ u "\boxed" ++ (u "{" ++ x ++ u "}")).
      apply contains_intro. }
  split; [exact H|].
  unfold box at 1. now rewrite H.
Qed.

(** X7: box wrapping never wraps twice: the wrapped text always holds
    [\boxed], and wrapping it again changes nothing. *)
Theorem X7_box_idempotent (x : str) :
  contains (u "\boxed") (box x) = true /\ box (box x) = box x.
Proof. apply box_idempotent. Qed.

Section Trim.
Variable U : unicode.

Lemma cut_stop_word_substring (m w x : str) :
  cut_stop_word U m w = Ok x -> substring x m.
Proof.
  unfold cut_stop_word. destruct (contains w m).
  - pose proof (split_go_nonempty w None 0 m) as N.
    unfold split. destruct (split_go w None 0 m) as [|h t] eqn:E; [congruence|].
    simpl. intros H. inversion H; subst.
    destruct w as [|a w].
    + (* the empty separator is not among the stop words *)
      apply substring_trans with (b := h); [apply strip_by_substring|].
      destruct m as [|c m]; simpl in E; inversion E; subst.
      * apply substring_refl.
      * exists [], (c :: m). reflexivity.
    + destruct (@first_piece (a :: w) None m) with (h := h) (t := t)
        as [_ (r & Hr)]; try discriminate; try assumption.
      apply substring_trans with (b := h); [apply strip_by_substring|].
      exists [], r. exact Hr.
  - intros H. inversion H; subst. apply substring_refl.
Qed.

Lemma cut_stop_word_removed (m w x : str) :
  w <> [] -> cut_stop_word U m w = Ok x -> contains w x = false.
Proof.
  intros Hne. unfold cut_stop_word. destruct (contains w m) eqn:Ec.
  - pose proof (split_go_nonempty w None 0 m) as N.
    unfold split. destruct (split_go w None 0 m) as [|h t] eqn:E; [congruence|].
    simpl. intros H. inversion H; subst.
    destruct (@first_piece w None m Hne) with (h := h) (t := t)
      as [Hc _]; try discriminate; try assumption.
    apply contains_substring with (s2 := h); [apply strip_by_substring|exact Hc].
  - intros H. inversion H; subst. exact Ec.
Qed.

Lemma cut_stop_words_clean (l : list str) : forall m t,
  ~ In [] l -> cut_stop_words U m l = Ok t ->
  substring t m /\ forall w, In w l -> contains w t = false.
Proof.
  induction l as [|w l IH]; intros m t Hne H; simpl in H.
  - inversion H; subst. split; [apply substring_refl|]. intros w [].
  - destruct (cut_stop_word U m w) as [x|e] eqn:E; [|discriminate].
    simpl in H. destruct (IH x t) as [Hs Hc]; [simpl in Hne; tauto|exact H|].
    split.
    + eapply substring_trans; [exact Hs|]. eapply cut_stop_word_substring, E.
    + intros w' [<-|Hin]; [|now apply Hc].
      apply contains_substring with (s2 := x); [exact Hs|].
      apply cut_stop_word_removed with (m := m); [|exact E].
      intros ->. apply Hne. simpl. auto.
Qed.

End Trim.

(** X8: the trimmed response holds none of the stop tokens [</s>],
    [<|im_end|>], [<|endoftext|>] and [[END]]. *)
Theorem X8_trimmed_has_no_stop_token (U : unicode) (response t w : str) :
  trim_response U response = Ok t -> In w stop_words ->
  contains w t = false.
Proof.
  unfold trim_response. intros H Hin.
  eapply (cut_stop_words_clean U stop_words); [|exact H|exact Hin].
  unfold stop_words. simpl. intros [E|[E|[E|[E|[]]]]]; discriminate.
Qed.

Lemma X8_trimmed_has_no_stop_token_witness :
  trim_response Sample.table (u "a [END] b</s> c<|im_end|>") = Ok (u "a")
  /\ In (u "[END]") stop_words
  /\ contains (u "[END]") (u "a") = false.
Proof.
  assert (E : trim_response Sample.table (u "a [END] b</s> c<|im_end|>")
              = Ok (u "a")) by (vm_compute; reflexivity).
  assert (I : In (u "[END]") stop_words) by (simpl; auto).
  split; [exact E|]. split; [exact I|].
  exact (@X8_trimmed_has_no_stop_token Sample.table _ _ _ E I).
Defined.

(* ------------------------------------------------------------------ *)
(** ** The normal form holds no space *)

Section NoSpace.
Variable P : char -> Prop.

Lemma cons_head_Forall (c : char) (l : list str) :
  P c -> Forall (Forall P) l -> Forall (Forall P) (cons_head c l).
Proof.
  intros Hc Hl. destruct l as [|h t]; simpl.
  - repeat constructor. exact Hc.
  - inversion Hl; subst. constructor; [now constructor|assumption].
Qed.

Lemma split_go_Forall (sep : str) (s : str) : forall limit skip,
  Forall P s -> Forall (Forall P) (split_go sep limit skip s).
Proof.
  induction s as [|c s IH]; intros limit skip H; simpl.
  - repeat constructor.
  - inversion H; subst. destruct skip; [|now apply IH].
    destruct limit as [[|n]|].
    + repeat constructor; assumption.
    + destruct (starts_with sep (c :: s)).
      * constructor; [constructor|now apply IH].
      * apply cons_head_Forall; [assumption|now apply IH].
    + destruct (starts_with sep (c :: s)).
      * constructor; [constructor|now apply IH].
      * apply cons_head_Forall; [assumption|now apply IH].
Qed.

Hypothesis P_frac : Forall P (u "\frac{}").

Lemma P_lit (t : str) : incl t (u "\frac{}") -> Forall P t.
Proof.
  intros H. apply Forall_forall. intros x Hx.
  rewrite Forall_forall in P_frac. apply P_frac, H, Hx.
Qed.

Ltac lits :=
  let x := fresh "x" in let Hx := fresh "Hx" in
  apply P_lit; intros x Hx; cbv in Hx |- *; tauto.

Lemma fix_frac_piece_Forall (substr r : str) :
  Forall P substr -> fix_frac_piece substr = Some r -> Forall P r.
Proof.
  intros H. unfold fix_frac_piece.
  destruct (match substr with c :: _ => c =? ch "{" | [] => false end).
  - intros E. now inversion E; subst.
  - destruct substr as [|a [|b post]]; try discriminate.
    inversion H as [|? ? Ha H1]; subst. inversion H1 as [|? ? Hb Hp]; subst.
    assert (P123 : P 123).
    { rewrite Forall_forall in P_frac. apply P_frac. cbv. tauto. }
    assert (P125 : P 125).
    { rewrite Forall_forall in P_frac. apply P_frac. cbv. tauto. }
    destruct (negb (b =? ch "{")); destruct post; intros E; inversion E; subst;
      change (u "}") with [125]; repeat (constructor; try assumption);
      now inversion Hp.
Qed.

Lemma fix_fracs_loop_Forall (l : list str) : forall acc r,
  Forall P acc -> Forall (Forall P) l ->
  fix_fracs_loop acc l = Some r -> Forall P r.
Proof.
  induction l as [|x l IH]; intros acc r Ha Hl E; simpl in E.
  - now inversion E; subst.
  - inversion Hl; subst.
    destruct (fix_frac_piece x) as [piece|] eqn:Ep; [|discriminate].
    eapply IH; [|eassumption|exact E].
    change (Forall P (acc ++ u "\frac" ++ piece)).
    apply Forall_app. split; [assumption|].
    apply Forall_app. split; [lits|].
    eapply fix_frac_piece_Forall; eauto.
Qed.

Lemma fix_fracs_Forall (s : str) : Forall P s -> Forall P (_fix_fracs s).
Proof.
  intros H. unfold _fix_fracs.
  pose proof (@split_go_Forall (u "\frac") s None 0%nat H) as Hs.
  unfold split. destruct (split_go (u "\frac") None 0 s) as [|a [|b l]];
    try assumption.
  - now inversion Hs.
  - inversion Hs; subst.
    destruct (fix_fracs_loop a (b :: l)) as [r|] eqn:E; [|assumption].
    eapply fix_fracs_loop_Forall; eauto.
Qed.

Lemma fix_a_slash_b_Forall (U : unicode) (s : str) :
  Forall P s -> Forall P (_fix_a_slash_b U s).
Proof.
  intros H. unfold _fix_a_slash_b.
  destruct (split (u "/") s) as [|a [|b [|c l]]]; try assumption.
  destruct (int_unless_sqrt U a) as [a'|]; [|assumption].
  destruct (int_unless_sqrt U b) as [b'|]; [|assumption].
  destruct (fmt a') as [sa|]; [|assumption].
  destruct (fmt b') as [sb|]; [|destruct sa; assumption].
  destruct (eqb_str s (sa ++ u "/" ++ sb)) eqn:E; [|assumption].
  apply eqb_str_true in E. rewrite E in H.
  apply Forall_app in H. destruct H as [H1 H2].
  apply Forall_app in H2. destruct H2 as [_ H2].
  apply Forall_app. split; [lits|].
  apply Forall_app. split; [assumption|].
  apply Forall_app. split; [lits|].
  apply Forall_app. split; [assumption|lits].
Qed.

End NoSpace.

Lemma replace_go_char_removed (c : char) (s : str) :
  Forall (fun x => x <> c) (replace_go [c] [] 0 s).
Proof.
  induction s as [|x s IH]; simpl; [constructor|].
  destruct (N.eqb_spec c x) as [->|Hn]; simpl; [exact IH|].
  constructor; [congruence|exact IH].
Qed.

(** X9: the normal form never holds a space (U+0020), whatever the input,
    the unit flag and the number-word step. *)
Theorem X9_normal_form_has_no_space
  (U : unicode) (w2n : str -> option str) (s : str) (skip : bool) :
  ~ In (ch " ") (strip_string U w2n s skip).
Proof.
  unfold strip_string, strip_string_tail.
  set (x := pass_trailing_zeros U _). clearbody x.
  assert (H : Forall (fun c => c <> ch " ") (pass_final U x)).
  { unfold pass_final. destruct x as [|c x]; [constructor|].
    apply fix_a_slash_b_Forall; [repeat constructor; discriminate|].
    apply fix_fracs_Forall; [repeat constructor; discriminate|].
    apply replace_go_char_removed. }
  rewrite Forall_forall in H. intros Hin. now apply (H _ Hin).
Qed.

(* ------------------------------------------------------------------ *)
(** ** A boxed integer, end to end *)

Lemma digits_well_nested (n : str) : forall d,
  over ascii_digit n -> well_nested d n = (d =? 0)%nat.
Proof.
  induction n as [|c n IH]; intros d H; [reflexivity|].
  inversion H as [|? ? Hc Hn]; subst. simpl.
  destruct (N.eqb_spec c 123) as [->|_]; [discriminate|].
  destruct (N.eqb_spec c 125) as [->|_]; [discriminate|].
  now apply IH.
Qed.

Lemma not_choice_postprocess (d : str) :
  is_choice_name d = false ->
  existsb (eqb_str d) [u "sat_math"; u "aqua"] = false.
Proof.
  unfold is_choice_name. cbn [map existsb]. intros H.
  repeat (apply orb_false_iff in H; destruct H as [? H]).
  repeat (apply orb_false_iff; split); assumption.
Qed.

Lemma extract_cleanup_digits (U : unicode) (d n : str) :
  is_choice_name d = false -> contains (u "mmlu") d = false ->
  over ascii_digit n -> extract_cleanup U d n = Ok n.
Proof.
  intros Hd Hm Hn. unfold extract_cleanup.
  rewrite (@not_choice_postprocess d Hd), Hm. cbn [orb bind].
  rewrite (@sub_blocked numchar U re_newline [] n eq_refl (@digits_num n Hn)).
  destruct n as [|c n]; [reflexivity|].
  inversion Hn as [|? ? Hc Hn']; subst.
  destruct (N.eqb_spec c (ch ":")) as [->|_]; [discriminate|].
  assert (Hl : forall x, ascii_digit x = false ->
            match rev (c :: n) with
            | y :: _ => if y =? x then slice_drop_last (c :: n) else c :: n
            | [] => c :: n
            end = c :: n).
  { intros x Hx. destruct (rev (c :: n)) as [|y l] eqn:E; [reflexivity|].
    assert (Hy : ascii_digit y = true).
    { unfold over in Hn. rewrite Forall_forall in Hn. apply Hn.
      apply in_rev. rewrite E. simpl. auto. }
    destruct (N.eqb_spec y x) as [->|_]; [congruence|reflexivity]. }
  rewrite (Hl (ch ".") eq_refl). rewrite (Hl (ch "/") eq_refl). reflexivity.
Qed.

Lemma extract_answer_boxed_numeral
  (U : unicode) (w2n : str -> option str) (pre n post d : str) (un : bool) :
  is_choice_name d = false -> contains (u "mmlu") d = false ->
  over ascii_digit n ->
  w2n n = None \/ w2n n = Some n ->
  contains (u "ки") (pre ++ u "boxed" ++ u "{" ++ n ++ u "}" ++ post) = false ->
  contains (u "final answer is $")
           (pre ++ u "boxed" ++ u "{" ++ n ++ u "}" ++ post)
  && contains (u "$. I hope")
              (pre ++ u "boxed" ++ u "{" ++ n ++ u "}" ++ post) = false ->
  contains (u "boxed") (u "{" ++ n ++ u "}" ++ post) = false ->
  extract_answer U w2n (pre ++ u "boxed" ++ u "{" ++ n ++ u "}" ++ post) d un
  = Ok n.
Proof.
  intros Hd Hm Hn Hw Hk Hmin Hb. unfold extract_answer.
  unfold remove_ki. rewrite replace_absent by (discriminate || exact Hk).
  rewrite Hd.
  rewrite (@extract_raw_last_boxed U pre n post un Hmin Hb)
    by (now rewrite digits_well_nested).
  cbn [bind]. rewrite (@extract_cleanup_digits U d n Hd Hm Hn). cbn [bind].
  f_equal. now apply strip_string_digits.
Qed.

(** X10: a string of ASCII digits in the last box of a text is extracted
    as it is, for every data set that is not a multiple-choice one: no
    pass of the clean-up or of the normaliser touches it (given that the
    number-word step leaves the numeral alone and that the text holds no
    step tag and no Minerva pair). *)
Theorem X10_boxed_numeral_extracted
  (U : unicode) (w2n : str -> option str) (pre n post d : str) (un : bool) :
  is_choice_name d = false -> contains (u "mmlu") d = false ->
  over ascii_digit n ->
  w2n n = None \/ w2n n = Some n ->
  contains (u "ки") (pre ++ u "boxed" ++ u "{" ++ n ++ u "}" ++ post) = false ->
  contains (u "final answer is $")
           (pre ++ u "boxed" ++ u "{" ++ n ++ u "}" ++ post)
  && contains (u "$. I hope")
              (pre ++ u "boxed" ++ u "{" ++ n ++ u "}" ++ post) = false ->
  contains (u "boxed") (u "{" ++ n ++ u "}" ++ post) = false ->
  extract_answer U w2n (pre ++ u "boxed" ++ u "{" ++ n ++ u "}" ++ post) d un
  = Ok n.
Proof. apply extract_answer_boxed_numeral. Qed.

Lemma X10_boxed_numeral_extracted_witness :
  over ascii_digit (u "42")
  /\ Sample.w2n (u "42") = Some (u "42")
  /\ extract_answer Sample.table Sample.w2n
       (u "so \" ++ u "boxed" ++ u "{" ++ u "42" ++ u "}" ++ u ".") (u "gsm8k")
       true
     = Ok (u "42").
Proof.
  assert (H : over ascii_digit (u "42")) by (repeat constructor).
  split; [exact H|]. split; [reflexivity|].
  apply (@X10_boxed_numeral_extracted Sample.table Sample.w2n (u "so \")
           (u "42") (u ".") (u "gsm8k") true); try reflexivity; try exact H.
  right. reflexivity.
Defined.

Lemma reward_exact_match
  (U : unicode) (w2n : str -> option str) (expr : Type)
  (parse : str -> result (parsed expr))
  (sympy_expr_eq : expr -> expr -> Z -> Z -> bool -> result bool)
  (response a l : str) (label : label_t) :
  truthy label = true ->
  str_of_label label = Ok l ->
  extract_solution U w2n response = Ok a -> a <> [] ->
  box a = box l ->
  fst (get_dapo_math_reward U w2n parse sympy_expr_eq response label) = Ok 1%Z.
Proof.
  intros Hl Hs He Ha Hb. unfold get_dapo_math_reward.
  rewrite Hl, Hs, He. cbn [negb].
  apply eqb_str_false in Ha. rewrite Ha.
  unfold _hf_verify. now rewrite Hb, eqb_str_refl.
Qed.

(** X11: when the last 300 characters of the trimmed response end their
    last box with a non-empty string of ASCII digits that the number-word
    step leaves alone (the library raises on it or gives the same numeral
    back), and hold no step tag and no Minerva pair, and the label is that
    string, the reward is 1, whatever the symbolic library does (it is not
    even asked to parse). *)
Theorem X11_boxed_numeral_rewarded
  (U : unicode) (w2n : str -> option str) (expr : Type)
  (parse : str -> result (parsed expr))
  (sympy_expr_eq : expr -> expr -> Z -> Z -> bool -> result bool)
  (response t pre n post : str) :
  trim_response U response = Ok t ->
  slice_last 300 t = pre ++ u "boxed" ++ u "{" ++ n ++ u "}" ++ post ->
  over ascii_digit n -> n <> [] ->
  w2n n = None \/ w2n n = Some n ->
  contains (u "ки") (pre ++ u "boxed" ++ u "{" ++ n ++ u "}" ++ post) = false ->
  contains (u "final answer is $")
           (pre ++ u "boxed" ++ u "{" ++ n ++ u "}" ++ post)
  && contains (u "$. I hope")
              (pre ++ u "boxed" ++ u "{" ++ n ++ u "}" ++ post) = false ->
  contains (u "boxed") (u "{" ++ n ++ u "}" ++ post) = false ->
  fst (get_dapo_math_reward U w2n parse sympy_expr_eq response (LStr n))
  = Ok 1%Z.
Proof.
  intros Ht Hw Hn Hne Hw2 Hk Hmin Hb.
  apply reward_exact_match with (a := n) (l := n); try assumption;
    try reflexivity.
  - simpl. apply negb_true_iff. now apply eqb_str_false.
  - unfold extract_solution. rewrite Ht. cbn [bind]. rewrite Hw.
    now apply extract_answer_boxed_numeral.
Qed.

Lemma X11_boxed_numeral_rewarded_witness :
  fst (get_dapo_math_reward Sample.table Sample.w2n Sample.parse_raises
         Sample.expr_eq (u "Result: \boxed{42}<|im_end|>") (LStr (u "42")))
  = Ok 1%Z.
Proof.
  apply (@X11_boxed_numeral_rewarded Sample.table Sample.w2n unit
           Sample.parse_raises Sample.expr_eq (u "Result: \boxed{42}<|im_end|>")
           (u "Result: \boxed{42}") (u "Result: \") (u "42") []);
    try reflexivity.
  - repeat constructor.
  - discriminate.
  - right. reflexivity.
Defined.

(* ------------------------------------------------------------------ *)
(** ** Stripping *)

Section Strip.
Variable p : char -> bool.

Lemma dropwhile_head (s : str) :
  match dropwhile p s with [] => True | c :: _ => p c = false end.
Proof.
  induction s as [|c s IH]; simpl; [exact I|].
  destruct (p c) eqn:E; [exact IH|exact E].
Qed.

Lemma dropwhile_fixed (s : str) :
  match s with [] => True | c :: _ => p c = false end -> dropwhile p s = s.
Proof. destruct s as [|c s]; simpl; [reflexivity|]. now intros ->. Qed.

Lemma dropwhile_all (x s : str) :
  Forall (fun c => p c = true) x -> dropwhile p (x ++ s) = dropwhile p s.
Proof.
  induction 1 as [|c x Hc Hx IH]; [reflexivity|]. simpl. now rewrite Hc.
Qed.

Lemma dropwhile_app_keep (s t : str) :
  dropwhile p s <> [] -> dropwhile p (s ++ t) = dropwhile p s ++ t.
Proof.
  induction s as [|c s IH]; simpl; [congruence|].
  destruct (p c); [exact IH|reflexivity].
Qed.

Lemma strip_by_fixed (s : str) : trimmed p s -> strip_by p s = s.
Proof.
  intros [H1 H2]. unfold strip_by, rstrip_by, lstrip_by.
  rewrite (dropwhile_fixed s H1), (dropwhile_fixed (rev s) H2).
  apply rev_involutive.
Qed.

Lemma strip_by_trimmed (s : str) : trimmed p (strip_by p s).
Proof.
  unfold strip_by, rstrip_by, lstrip_by.
  set (t := dropwhile p s).
  assert (Ht : match t with [] => True | c :: _ => p c = false end)
    by apply dropwhile_head.
  split.
  - (* the first character survives the right strip *)
    destruct (dropwhile_suffix p (rev t)) as [a Ha].
    pose proof (dropwhile_head (rev t)) as Hd.
    destruct (dropwhile p (rev t)) as [|y l] eqn:E; [exact I|].
    assert (Et : t = rev l ++ y :: rev a).
    { rewrite <- (rev_involutive t), Ha, rev_app_distr. simpl.
      now rewrite <- app_assoc. }
    simpl. destruct (rev l) as [|z l'] eqn:El.
    + simpl. exact Hd.
    + simpl. rewrite Et in Ht. exact Ht.
  - rewrite rev_involutive. apply dropwhile_head.
Qed.

Lemma strip_by_idempotent (s : str) :
  strip_by p (strip_by p s) = strip_by p s.
Proof. apply strip_by_fixed, strip_by_trimmed. Qed.

Lemma strip_by_around (x r y : str) :
  r <> [] -> trimmed p r ->
  Forall (fun c => p c = true) x -> Forall (fun c => p c = true) y ->
  strip_by p (x ++ r ++ y) = r.
Proof.
  intros Hne [H1 H2] Hx Hy. unfold strip_by, rstrip_by, lstrip_by.
  rewrite (dropwhile_all _ Hx).
  rewrite dropwhile_app_keep by (rewrite (dropwhile_fixed r H1); exact Hne).
  rewrite (dropwhile_fixed r H1), rev_app_distr.
  rewrite dropwhile_all by (now apply Forall_rev).
  rewrite (dropwhile_fixed (rev r) H2). apply rev_involutive.
Qed.

End Strip.

(* ------------------------------------------------------------------ *)
(** ** The retrieval wrapper: formatting *)

Lemma dict_get_absent (items : list (str * json)) (key : str) (default : json) :
  forallb (fun kv => negb (eqb_str (fst kv) key)) items = true ->
  dict_get items key default = default.
Proof.
  induction items as [|[k v] items IH]; simpl; [reflexivity|].
  intros H. apply andb_prop in H. destruct H as [H1 H2].
  apply negb_true_iff in H1. rewrite H1. now apply IH.
Qed.

Lemma format_items_length (U : unicode) (rs : list json) : forall l,
  format_items U rs = Ok l -> length l = length (filter is_dict rs).
Proof.
  induction rs as [|r rs IH]; intros l H; simpl in H.
  - now inversion H.
  - destruct (format_item U r) as [c|e] eqn:Ec; [|discriminate]. simpl in H.
    destruct (format_items U rs) as [cs|e]; [|discriminate]. simpl in H.
    inversion H; subst. rewrite length_app, (IH cs eq_refl).
    destruct r as [| | | | |items]; simpl in Ec;
      try (inversion Ec; subst; reflexivity).
    destruct (json_truthy (dict_get items (u "contents") (JStr []))).
    + destruct (format_content U _) as [x|]; simpl in Ec; [|discriminate].
      inversion Ec; subst. reflexivity.
    + inversion Ec; subst. reflexivity.
Qed.

Lemma split_first_line (line text : str) :
  contains [NL] line = false ->
  split_max [NL] 1 (line ++ NL :: text) = [line; text].
Proof.
  unfold split_max. induction line as [|c line IH]; intros H.
  - simpl. destruct text; reflexivity.
  - cbn [contains] in H. apply orb_false_iff in H. destruct H as [H1 H2].
    cbn [app split_go].
    assert (E : starts_with [NL] (c :: line ++ NL :: text) = false).
    { cbn [starts_with] in H1 |- *. exact H1. }
    rewrite E, IH by assumption. reflexivity.
Qed.

Section Format.
Variable U : unicode.

(** the title and the text [format_content] settles on *)
Lemma format_content_parts (content : str) :
  exists title text,
    format_content U (JStr content)
    = Ok (([DQ] ++ title ++ [DQ]) ++ [NL] ++ text)
    /\ title <> [] /\ text <> []
    /\ contains [NL] title = false
    /\ trimmed is_quote title
    /\ trimmed (isspace U) text.
Proof.
  unfold format_content.
  pose proof (split_go_nonempty [NL] (Some 1%nat) 0 content) as N.
  unfold split_max.
  destruct (split_go [NL] (Some 1%nat) 0 content) as [|l0 ls] eqn:E;
    [congruence|].
  destruct (@first_piece [NL] (Some 1%nat) content) with (h := l0) (t := ls)
    as [Hnl _]; try discriminate; try assumption.
  set (t0 := strip_chars [DQ] (strip U l0)).
  assert (Ht0 : contains [NL] t0 = false).
  { apply contains_substring with (s2 := l0); [|exact Hnl].
    eapply substring_trans; apply strip_by_substring. }
  assert (Tt0 : trimmed is_quote t0) by apply strip_by_trimmed.
  set (x0 := match ls with l1 :: _ => strip U l1 | [] => [] end).
  assert (Tx0 : trimmed (isspace U) x0).
  { unfold x0. destruct ls; [split; exact I|apply strip_by_trimmed]. }
  exists (match t0 with _ :: _ => t0 | [] => u "No title." end),
         (match x0 with [] => no_snippet | _ => x0 end).
  split.
  { destruct ls as [|l1 ls']; fold t0; destruct t0, x0; reflexivity. }
  split; [destruct t0; discriminate|].
  split; [destruct x0; discriminate|].
  split; [destruct t0; [reflexivity|exact Ht0]|].
  split.
  - destruct t0; [split; reflexivity|exact Tt0].
  - destruct x0; [split; reflexivity|exact Tx0].
Qed.

Lemma format_content_again (title text : str) :
  title <> [] -> text <> [] -> contains [NL] title = false ->
  trimmed is_quote title -> trimmed (isspace U) text ->
  format_content U (JStr (([DQ] ++ title ++ [DQ]) ++ [NL] ++ text))
  = Ok (([DQ] ++ title ++ [DQ]) ++ [NL] ++ text).
Proof.
  intros Ht Hx Hnl Tt Tx. unfold format_content.
  assert (Hline : contains [NL] ([DQ] ++ title ++ [DQ]) = false).
  { destruct (contains [NL] ([DQ] ++ title ++ [DQ])) eqn:E; [|reflexivity].
    destruct (contains_elim _ _ E) as (a & b & Eq). exfalso.
    assert (Hin : In NL ([DQ] ++ title ++ [DQ]))
      by (rewrite Eq; apply in_or_app; right; simpl; auto).
    simpl in Hin. destruct Hin as [Hin|Hin]; [discriminate|].
    apply in_app_or in Hin. destruct Hin as [Hin|[Hin|[]]]; [|discriminate].
    apply in_split in Hin. destruct Hin as (a' & b' & ->).
    change (a' ++ NL :: b') with (a' ++ [NL] ++ b') in Hnl.
    now rewrite contains_intro in Hnl. }
  change (([DQ] ++ title ++ [DQ]) ++ [NL] ++ text)
    with (([DQ] ++ title ++ [DQ]) ++ NL :: text).
  rewrite (@split_first_line ([DQ] ++ title ++ [DQ]) text Hline).
  assert (S1 : strip U ([DQ] ++ title ++ [DQ]) = [DQ] ++ title ++ [DQ]).
  { apply strip_by_fixed. split; [reflexivity|].
    rewrite !rev_app_distr. reflexivity. }
  rewrite S1.
  assert (S2 : strip_chars [DQ] ([DQ] ++ title ++ [DQ]) = title).
  { apply (@strip_by_around (fun c => mem c [DQ]) [DQ] title [DQ]);
      try assumption; repeat constructor. }
  rewrite S2.
  assert (S3 : strip U text = text) by now apply strip_by_fixed.
  rewrite S3. destruct title; [congruence|]. destruct text; [congruence|].
  reflexivity.
Qed.

End Format.

(** X12: a decoded object without a [result] key gives the empty list: the
    default of [get] stands in, and nothing is raised. *)
Theorem X12_missing_result_key (U : unicode) (items : list (str * json)) :
  forallb (fun kv => negb (eqb_str (fst kv) (u "result"))) items = true ->
  local_search U (Body (JDict items)) = Ok [].
Proof.
  intros H. unfold local_search, get. cbn [bind].
  now rewrite (@dict_get_absent items (u "result") (JList [JList []]) H).
Qed.

Lemma X12_missing_result_key_witness :
  local_search Sample.table (Body (JDict [(u "error", JStr (u "busy"))]))
  = Ok [].
Proof.
  apply (@X12_missing_result_key Sample.table [(u "error", JStr (u "busy"))]).
  reflexivity.
Defined.

(** X13: when [local_search] returns, it returns one entry for each dict
    among the retrieval results, in order of appearance; results that are
    not dicts are passed over. *)
Theorem X13_one_entry_per_dict
  (U : unicode) (items : list (str * json)) (rs more : list json)
  (l : list context) :
  dict_get items (u "result") (JList [JList []]) = JList (JList rs :: more) ->
  local_search U (Body (JDict items)) = Ok l ->
  length l = length (filter is_dict rs).
Proof.
  intros Hr H. unfold local_search, get in H. cbn [bind] in H.
  rewrite Hr in H. cbn [first iterate bind] in H.
  now apply format_items_length with (U := U).
Qed.

Lemma X13_one_entry_per_dict_witness :
  exists l,
    local_search Sample.table
      (Body (JDict [(u "result",
                     JList [JList [JDict [(u "contents", JStr (u "T"))];
                                   JNum true; JDict []]])]))
    = Ok l
    /\ length l = 2%nat.
Proof.
  eexists. split; [reflexivity|].
  apply (@X13_one_entry_per_dict Sample.table
           [(u "result",
             JList [JList [JDict [(u "contents", JStr (u "T"))];
                           JNum true; JDict []]])]
           [JDict [(u "contents", JStr (u "T"))]; JNum true; JDict []] []);
    reflexivity.
Defined.

(** X14: every string [contents] is formatted as a quoted title, a newline
    and a text, where the title is not empty, holds no newline and has no
    quote at either end, and the text is not empty and has no white space
    at either end (the placeholders stand in for a missing title or text). *)
Theorem X14_formatted_entry_shape (U : unicode) (content : str) :
  exists title text,
    format_content U (JStr content)
    = Ok (([DQ] ++ title ++ [DQ]) ++ [NL] ++ text)
    /\ title <> [] /\ text <> []
    /\ contains [NL] title = false
    /\ trimmed is_quote title
    /\ trimmed (isspace U) text.
Proof. apply format_content_parts. Qed.

(** X15: formatting is idempotent: an entry that [format_content] has
    produced is left as it is when it comes back as [contents]. *)
Theorem X15_format_idempotent (U : unicode) (content : str) :
  exists out,
    format_content U (JStr content) = Ok out
    /\ format_content U (JStr out) = Ok out.
Proof.
  destruct (format_content_parts U content)
    as (title & text & E & Ht & Hx & Hnl & Tt & Tx).
  eexists. split; [exact E|]. now apply format_content_again.
Qed.

(* ------------------------------------------------------------------ *)
(** ** [int] and [str] on integers *)

Lemma digit_chars_over (d : Decimal.uint) : over ascii_digit (digit_chars d).
Proof.
  unfold over. induction d; [constructor|..];
    (change (digit_chars (?C d)) with (?x :: digit_chars d) ||
     idtac); unfold digit_chars in *; cbn [NilEmpty.string_of_uint list_ascii_of_string map];
    constructor; auto.
Qed.

Lemma int_digits_acc (U : unicode) (d : Decimal.uint) :
  forall a : positive,
    int_digits U (Npos a) true (digit_chars d)
    = Some (Npos (Pos.of_uint_acc d a)).
Proof.
  induction d; intros a; [reflexivity|..];
    unfold digit_chars in *;
    cbn [NilEmpty.string_of_uint list_ascii_of_string map];
    cbn [int_digits Pos.of_uint_acc];
    match goal with
    | |- context [N_of_ascii ?c] =>
        let v := eval vm_compute in (N_of_ascii c) in
        change (N_of_ascii c) with v
    end;
    cbv beta iota delta [decimal_value ascii_digit];
    cbn [N.eqb N.ltb N.leb N.compare Pos.eqb Pos.compare Pos.compare_cont
         andb N.sub Pos.sub Pos.sub_mask Pos.double_mask Pos.succ_double_mask
         Pos.pred_double Pos.double_pred_mask];
    rewrite <- IHd; f_equal; lia.
Qed.

Lemma int_digits_zero (U : unicode) (d : Decimal.uint) :
  int_digits U 0 true (digit_chars d) = Some (Pos.of_uint d).
Proof.
  induction d; [reflexivity|exact IHd|..];
    cbn [Pos.of_uint]; rewrite <- (@int_digits_acc U d); reflexivity.
Qed.

Lemma int_digits_first (U : unicode) (d : Decimal.uint) (acc : N) :
  d <> Decimal.Nil ->
  int_digits U acc false (digit_chars d) = int_digits U acc true (digit_chars d).
Proof. destruct d; [congruence|..]; reflexivity. Qed.

Lemma to_uint_not_nil (p : positive) : Pos.to_uint p <> Decimal.Nil.
Proof.
  intros E. pose proof (DecimalPos.Unsigned.of_to p) as H.
  rewrite E in H. discriminate.
Qed.

Lemma int_numeral_pos (p : positive) :
  int_numeral (Zpos p) = digit_chars (Pos.to_uint p).
Proof.
  unfold int_numeral, digit_chars. cbn [Z.to_int NilZero.string_of_int].
  unfold NilZero.string_of_uint.
  pose proof (to_uint_not_nil p). now destruct (Pos.to_uint p).
Qed.

Lemma int_numeral_neg (p : positive) :
  int_numeral (Zneg p) = 45 :: digit_chars (Pos.to_uint p).
Proof.
  unfold int_numeral, digit_chars. cbn [Z.to_int NilZero.string_of_int].
  unfold NilZero.string_of_uint.
  pose proof (to_uint_not_nil p). now destruct (Pos.to_uint p).
Qed.

Lemma signed_digit_of_digit (s : str) : over ascii_digit s -> over signed_digit s.
Proof.
  unfold over. apply Forall_impl. intros c H. unfold signed_digit.
  now rewrite H.
Qed.

Lemma int_numeral_over (z : Z) : over signed_digit (int_numeral z).
Proof.
  destruct z as [|p|p].
  - repeat constructor.
  - rewrite int_numeral_pos. apply signed_digit_of_digit, digit_chars_over.
  - rewrite int_numeral_neg. constructor; [reflexivity|].
    apply signed_digit_of_digit, digit_chars_over.
Qed.

Lemma signed_digit_not_space (U : unicode) (c : char) :
  signed_digit c = true -> isspace U c = false.
Proof.
  unfold signed_digit, ascii_digit, isspace. intros H.
  apply orb_prop in H. destruct H as [H|H].
  - apply andb_prop in H. destruct H as [H1 H2].
    apply N.leb_le in H1, H2.
    assert ((c <? 128) = true) as -> by (apply N.ltb_lt; lia).
    apply orb_false_iff. split; apply andb_false_iff.
    + right. apply N.leb_gt. lia.
    + right. apply N.leb_gt. lia.
  - apply N.eqb_eq in H. now subst.
Qed.

(** a numeral holds no underscore: all its characters count as digits *)
Lemma count_digits_digits (s : str) :
  over ascii_digit s -> count_digits s = N.of_nat (length s).
Proof.
  intros H. unfold count_digits. f_equal. f_equal.
  induction H as [|c s Hc Hs IH]; [reflexivity|].
  cbn [filter].
  assert (E : (c =? 95) = false).
  { unfold ascii_digit in Hc. apply andb_prop in Hc. destruct Hc as [_ L].
    apply N.leb_le in L. apply N.eqb_neq. lia. }
  rewrite E. cbn [negb]. now rewrite IH.
Qed.

Lemma int_limited_digits (U : unicode) (d : Decimal.uint) :
  d <> Decimal.Nil ->
  (N.of_nat (length (digit_chars d)) <= max_str_digits) ->
  int_limited U (digit_chars d) = Some (Pos.of_uint d).
Proof.
  intros Hn L. unfold int_limited.
  rewrite (count_digits_digits (digit_chars_over d)).
  assert (E : (max_str_digits <? N.of_nat (length (digit_chars d))) = false)
    by (apply N.ltb_ge; exact L).
  rewrite E, (int_digits_first U 0 Hn). apply int_digits_zero.
Qed.

(** [int(str(z)) == z] for every int that [str] can print *)
Lemma py_int_str (U : unicode) (z : Z) (s : str) :
  py_str_int z = Some s -> py_int U s = Some z.
Proof.
  unfold py_str_int. destruct (max_str_digits <? numeral_digits z) eqn:E;
    [discriminate|].
  intros H. inversion H; subst s. clear H. apply N.ltb_ge in E.
  unfold py_int, strip.
  rewrite (@strip_by_outside signed_digit (isspace U) (int_numeral z)
             (@signed_digit_not_space U) (int_numeral_over z)).
  unfold numeral_digits in E.
  destruct z as [|p|p].
  - reflexivity.
  - rewrite int_numeral_pos in E |- *.
    pose proof (to_uint_not_nil p) as Hn.
    pose proof (digit_chars_over (Pos.to_uint p)) as Ho.
    pose proof (@int_limited_digits U (Pos.to_uint p) Hn E) as H1.
    rewrite DecimalPos.Unsigned.of_to in H1.
    destruct (digit_chars (Pos.to_uint p)) as [|c r] eqn:Ed.
    + discriminate.
    + inversion Ho as [|? ? Hc _]. subst.
      unfold ascii_digit in Hc. apply andb_prop in Hc. destruct Hc as [L1 L2].
      apply N.leb_le in L1, L2.
      assert ((c =? 45) = false) as -> by (apply N.eqb_neq; lia).
      assert ((c =? 43) = false) as -> by (apply N.eqb_neq; lia).
      rewrite H1. reflexivity.
  - rewrite int_numeral_neg in E |- *. cbn [N.eqb Pos.eqb].
    cbn [length pred] in E.
    rewrite (@int_limited_digits U (Pos.to_uint p) (to_uint_not_nil p) E).
    rewrite DecimalPos.Unsigned.of_to. reflexivity.
Qed.

(* ------------------------------------------------------------------ *)
(** ** Fractions *)

Lemma py_str_int_numeral (z : Z) (s : str) :
  py_str_int z = Some s -> s = int_numeral z.
Proof.
  unfold py_str_int. destruct (max_str_digits <? numeral_digits z);
    [discriminate|]. intros H. now inversion H.
Qed.

Lemma slash_absent (z : Z) : contains (u "/") (int_numeral z) = false.
Proof.
  apply (@contains_outside signed_digit); [reflexivity|reflexivity|].
  apply int_numeral_over.
Qed.

Lemma sqrt_absent (z : Z) : contains (u "sqrt") (int_numeral z) = false.
Proof.
  apply (@contains_outside signed_digit); [reflexivity|reflexivity|].
  apply int_numeral_over.
Qed.

Lemma int_unless_sqrt_str (U : unicode) (z : Z) (s : str) :
  py_str_int z = Some s -> int_unless_sqrt U s = Some (VInt z).
Proof.
  intros H. unfold int_unless_sqrt. rewrite (py_int_str U z H).
  rewrite (py_str_int_numeral z H). now rewrite sqrt_absent.
Qed.

(** X16: a quotient of two integers written the way Python prints them,
    [a/b], becomes [\frac{a}{b}], whatever the signs; the integers are
    those that [str] can print (no more digits than the limit). *)
Theorem X16_integer_quotient_to_frac (U : unicode) (a b : Z) (sa sb : str) :
  py_str_int a = Some sa -> py_str_int b = Some sb ->
  _fix_a_slash_b U (sa ++ u "/" ++ sb)
  = u "\frac{" ++ sa ++ u "}{" ++ sb ++ u "}".
Proof.
  intros Ha Hb. unfold _fix_a_slash_b.
  rewrite (@split_app (u "/") sa sb) by (discriminate || reflexivity).
  pose proof (py_str_int_numeral a Ha) as Ea.
  pose proof (py_str_int_numeral b Hb) as Eb.
  assert (Sa : split (u "/") sa = [sa])
    by (apply split_absent; rewrite Ea; apply slash_absent).
  assert (Sb : split (u "/") sb = [sb])
    by (apply split_absent; rewrite Eb; apply slash_absent).
  rewrite Sa, Sb. cbn [app].
  rewrite (int_unless_sqrt_str U a Ha), (int_unless_sqrt_str U b Hb).
  cbn [fmt]. rewrite Ha, Hb. now rewrite eqb_str_refl.
Qed.

Lemma X16_integer_quotient_to_frac_witness :
  py_str_int (-3) = Some (u "-3") /\ py_str_int 14 = Some (u "14")
  /\ _fix_a_slash_b Sample.table (u "-3/14") = u "\frac{-3}{14}".
Proof.
  split; [reflexivity|]. split; [reflexivity|].
  apply (@X16_integer_quotient_to_frac Sample.table (-3) 14 (u "-3") (u "14"));
    reflexivity.
Defined.

(** [sep.join(s.split(sep)) == s] *)
Lemma join_cons_head (sep : str) (c : char) (l : list str) :
  l <> [] -> join sep (cons_head c l) = c :: join sep l.
Proof. destruct l; [congruence|reflexivity]. Qed.

Lemma join_split_go (sep : str) (s : str) :
  sep <> [] ->
  forall k, join sep (split_go sep None k s) = skipn k s.
Proof.
  intros Hne. induction s as [|c s IH]; intros k.
  - now destruct k.
  - destruct k as [|k]; cbn [split_go skipn]; [|apply IH].
    destruct (starts_with sep (c :: s)) eqn:E.
    + cbn [option_map]. 
      pose proof (split_go_nonempty sep None (pred (length sep)) s) as Hn.
      pose proof (IH (pred (length sep))) as J.
      destruct (split_go sep None (pred (length sep)) s) as [|p ps]; [congruence|].
      cbn [join map concat app] in *. rewrite <- app_assoc.
      change (p ++ concat (map (app sep) ps)) with (join sep (p :: ps)).
      cbn [join]. rewrite J. clear - E Hne.
      destruct sep as [|a sep]; [congruence|].
      cbn [length pred]. simpl in E. apply andb_prop in E.
      destruct E as [E1 E2]. apply N.eqb_eq in E1. subst. cbn [app]. f_equal.
      revert s E2. induction sep as [|b sep IHs]; intros s E2; [reflexivity|].
      destruct s as [|c' s]; [discriminate|].
      simpl in E2. apply andb_prop in E2. destruct E2 as [E1 E2].
      apply N.eqb_eq in E1. subst. cbn [app length skipn]. f_equal.
      now apply IHs.
    + rewrite join_cons_head by apply split_go_nonempty. f_equal. apply (IH O).
Qed.

Lemma join_split (sep s : str) : sep <> [] -> join sep (split sep s) = s.
Proof. intros Hne. apply (@join_split_go sep s Hne O). Qed.

(** the pieces of a split hold no separator *)
Lemma split_go_free (sep : str) (s : str) :
  sep <> [] ->
  forall k, Forall (fun p => contains sep p = false) (split_go sep None k s).
Proof.
  intros Hne. induction s as [|c s IH]; intros k.
  - cbn [split_go]. constructor; [|constructor].
    destruct sep; [congruence|reflexivity].
  - destruct k as [|k]; cbn [split_go]; [|apply IH].
    destruct (starts_with sep (c :: s)) eqn:E.
    + constructor; [destruct sep; [congruence|reflexivity]|apply IH].
    + pose proof (IH O) as F. pose proof (@join_split_go sep s Hne O) as J.
      cbn [skipn] in J.
      pose proof (split_go_nonempty sep None 0 s) as Hn.
      destruct (split_go sep None 0 s) as [|h t]; [congruence|].
      cbn [cons_head]. inversion F as [|x l Fh Ft [Ex El]]. clear Ex El x l.
      constructor; [|exact Ft].
      cbn [contains]. rewrite Fh, orb_false_r.
      destruct (starts_with sep (c :: h)) eqn:E'; [|reflexivity].
      apply (@starts_with_extend sep (c :: h) (concat (map (app sep) t))) in E'.
      cbn [join] in J. cbn [app] in E'. rewrite J in E'. congruence.
Qed.

Lemma split_join (sep : str) (ps : list str) :
  sep <> [] -> border_free sep = true ->
  Forall (fun p => contains sep p = false) ps ->
  forall p0, contains sep p0 = false ->
    split sep (join sep (p0 :: ps)) = p0 :: ps.
Proof.
  intros Hne B F. induction F as [|q qs Hq F IH]; intros p0 H0.
  - cbn [join map concat]. rewrite app_nil_r. now apply split_absent.
  - cbn [join map concat].
    change (sep ++ q) with (app sep q). rewrite <- app_assoc.
    change (q ++ concat (map (app sep) qs)) with (join sep (q :: qs)).
    rewrite split_app by assumption.
    rewrite (split_absent _ _ H0), (IH q Hq). reflexivity.
Qed.

Lemma fix_frac_piece_braced (q : str) :
  braced q = true -> fix_frac_piece q = Some q.
Proof. unfold fix_frac_piece, braced. now intros ->. Qed.

Lemma fix_fracs_loop_braced (qs : list str) :
  Forall (fun q => braced q = true) qs ->
  forall acc,
    fix_fracs_loop acc qs = Some (acc ++ concat (map (app (u "\frac")) qs)).
Proof.
  induction 1 as [|q qs Hq F IH]; intros acc; cbn [fix_fracs_loop map concat].
  - now rewrite app_nil_r.
  - rewrite (fix_frac_piece_braced _ Hq), IH. now rewrite <- !app_assoc.
Qed.

Lemma fix_fracs_pieces_braced (s : str) :
  Forall (fun q => braced q = true) (tl (split (u "\frac") s)) ->
  _fix_fracs s = s.
Proof.
  intros F. unfold _fix_fracs.
  pose proof (@join_split (u "\frac") s ltac:(discriminate)) as J.
  destruct (split (u "\frac") s) as [|p0 [|q qs]]; [reflexivity| |].
  - cbn [join map concat] in J. now rewrite app_nil_r in J.
  - cbn [tl] in F. rewrite (fix_fracs_loop_braced F). exact J.
Qed.

Lemma every_frac_braced_tail (a s : str) :
  every_frac_braced (a ++ s) = true -> every_frac_braced s = true.
Proof.
  induction a as [|c a IH]; [auto|].
  cbn [app every_frac_braced]. intros H. apply andb_prop in H. now apply IH.
Qed.

Lemma every_frac_braced_at (a b : str) :
  every_frac_braced (a ++ u "\frac" ++ b) = true -> braced b = true.
Proof.
  intros H. apply every_frac_braced_tail in H.
  change (u "\frac" ++ b) with (92 :: 102 :: 114 :: 97 :: 99 :: b) in H.
  cbn [every_frac_braced] in H. apply andb_prop in H. destruct H as [H _].
  change (u "\frac") with [92; 102; 114; 97; 99] in H.
  change (u "\frac{") with [92; 102; 114; 97; 99; 123] in H.
  cbn [starts_with N.eqb Pos.eqb andb negb orb] in H.
  destruct b as [|c b]; [discriminate|].
  cbn [braced]. change (ch "{") with 123.
  rewrite N.eqb_sym. now rewrite andb_true_r in H.
Qed.

Lemma braced_app (q r : str) :
  braced (q ++ r) = true -> braced r = false -> braced q = true.
Proof. destruct q; cbn [app]; [congruence|auto]. Qed.

Lemma joined_not_braced (l : list str) :
  braced (concat (map (app (u "\frac")) l)) = false.
Proof. now destruct l. Qed.

Lemma braced_pieces (s : str) :
  every_frac_braced s = true ->
  Forall (fun q => braced q = true) (tl (split (u "\frac") s)).
Proof.
  intros H. pose proof (@join_split (u "\frac") s ltac:(discriminate)) as J.
  destruct (split (u "\frac") s) as [|p0 ps]; [constructor|]. cbn [tl].
  apply Forall_forall. intros q Hq.
  destruct (in_split _ _ Hq) as (l1 & l2 & ->).
  cbn [join] in J. rewrite map_app, concat_app in J. cbn [map concat] in J.
  rewrite <- J in H.
  rewrite app_assoc, <- (app_assoc (u "\frac") q) in H.
  apply every_frac_braced_at in H.
  apply braced_app with (r := concat (map (app (u "\frac")) l2)); [exact H|].
  apply joined_not_braced.
Qed.

(** X17: a string in which every [\frac] is already followed by an opening
    brace is left as it is. *)
Theorem X17_braced_fracs_unchanged (s : str) :
  every_frac_braced s = true -> _fix_fracs s = s.
Proof. intros H. now apply fix_fracs_pieces_braced, braced_pieces. Qed.

Lemma X17_braced_fracs_unchanged_witness :
  _fix_fracs (u "x+\frac{1}{2}\frac{a}b") = u "x+\frac{1}{2}\frac{a}b".
Proof.
  apply (@X17_braced_fracs_unchanged (u "x+\frac{1}{2}\frac{a}b")).
  reflexivity.
Defined.

Lemma frac_not_here (c : char) (s : str) :
  c <> 92 -> contains (u "\frac") (c :: s) = contains (u "\frac") s.
Proof.
  intros H. change (u "\frac") with [92; 102; 114; 97; 99].
  cbn [contains starts_with].
  replace (92 =? c) with false by (symmetry; apply N.eqb_neq; congruence).
  reflexivity.
Qed.

Lemma frac_not_before (a c : char) (s : str) :
  c <> 102 ->
  contains (u "\frac") (a :: c :: s) = contains (u "\frac") (c :: s).
Proof.
  intros H. change (u "\frac") with [92; 102; 114; 97; 99].
  cbn [contains starts_with].
  replace (102 =? c) with false by (symmetry; apply N.eqb_neq; congruence).
  now rewrite andb_false_r.
Qed.

Lemma fix_frac_piece_fixed (p q : str) :
  fix_frac_piece p = Some q ->
  braced q = true
  /\ (contains (u "\frac") p = false -> contains (u "\frac") q = false).
Proof.
  unfold fix_frac_piece.
  destruct (match p with c :: _ => c =? ch "{" | [] => false end) eqn:B.
  - intros E. inversion E; subst. auto.
  - destruct p as [|a [|b post]]; try discriminate.
    assert (T : contains (u "\frac") (a :: b :: post) = false ->
                contains (u "\frac") post = false).
    { cbn [contains]. intros H. apply orb_false_iff in H. destruct H as [_ H].
      apply orb_false_iff in H. now destruct H. }
    assert (T' : contains (u "\frac") (a :: b :: post) = false ->
                 contains (u "\frac") (b :: post) = false).
    { cbn [contains]. intros H. apply orb_false_iff in H. now destruct H. }
    change (u "{") with [123]. change (u "}{") with [125; 123].
    change (u "}") with [125].
    assert (N1 : 123 <> 92) by discriminate.
    assert (N2 : 125 <> 92) by discriminate.
    assert (N3 : 125 <> 102) by discriminate.
    destruct (negb (b =? ch "{")) eqn:Eb; destruct post as [|c post];
      intros E; inversion E; subst; clear E; (split; [reflexivity|]);
      intros H; cbn [app].
    + rewrite (frac_not_here _ N1), (frac_not_before a _ N3),
        (frac_not_here _ N2), (frac_not_here _ N1), (frac_not_before b _ N3),
        (frac_not_here _ N2).
      reflexivity.
    + rewrite (frac_not_here _ N1), (frac_not_before a _ N3),
        (frac_not_here _ N2), (frac_not_here _ N1), (frac_not_before b _ N3),
        (frac_not_here _ N2).
      now apply T.
    + rewrite (frac_not_here _ N1), (frac_not_before a _ N3),
        (frac_not_here _ N2).
      now apply T'.
    + rewrite (frac_not_here _ N1), (frac_not_before a _ N3),
        (frac_not_here _ N2).
      now apply T'.
Qed.

Lemma fix_fracs_loop_spec (ps : list str) :
  Forall (fun p => contains (u "\frac") p = false) ps ->
  forall acc r,
    fix_fracs_loop acc ps = Some r ->
    exists qs,
      r = acc ++ concat (map (app (u "\frac")) qs)
      /\ Forall (fun q => contains (u "\frac") q = false) qs
      /\ Forall (fun q => braced q = true) qs.
Proof.
  induction 1 as [|p ps Hp F IH]; intros acc r E; cbn [fix_fracs_loop] in E.
  - inversion E; subst. exists []. cbn [map concat]. rewrite app_nil_r.
    repeat split; constructor.
  - destruct (fix_frac_piece p) as [q|] eqn:Ep; [|discriminate].
    destruct (fix_frac_piece_fixed _ Ep) as [Bq Fq].
    destruct (IH _ _ E) as (qs & -> & F1 & F2).
    exists (q :: qs). cbn [map concat]. rewrite <- !app_assoc.
    repeat split; constructor; auto.
Qed.

(** X18: [_fix_fracs] is idempotent. *)
Theorem X18_fix_fracs_idempotent (s : str) :
  _fix_fracs (_fix_fracs s) = _fix_fracs s.
Proof.
  assert (Hne : u "\frac" <> []) by discriminate.
  assert (H : _fix_fracs s = s
              \/ exists p0 qs,
                   _fix_fracs s = join (u "\frac") (p0 :: qs)
                   /\ contains (u "\frac") p0 = false
                   /\ Forall (fun q => contains (u "\frac") q = false) qs
                   /\ Forall (fun q => braced q = true) qs).
  { unfold _fix_fracs.
    pose proof (@split_go_free (u "\frac") s Hne O) as F.
    fold (split (u "\frac") s) in F.
    destruct (split (u "\frac") s) as [|p0 [|q qs]]; [now left| |].
    - right. exists p0, []. cbn [join map concat]. rewrite app_nil_r.
      inversion F; subst. repeat split; auto.
    - inversion F as [|? ? F0 F1]; subst.
      destruct (fix_fracs_loop p0 (q :: qs)) as [r|] eqn:E; [|now left].
      destruct (fix_fracs_loop_spec F1 _ E) as (qs' & -> & G1 & G2).
      right. now exists p0, qs'. }
  destruct H as [H|(p0 & qs & E & H0 & F1 & F2)].
  - now rewrite !H.
  - rewrite E. apply fix_fracs_pieces_braced.
    rewrite split_join; try assumption; reflexivity.
Qed.

(** X19: one [\frac] followed by two characters, the first not a brace:
    both get braces, except that an opening brace in second place is kept as
    the start of the denominator. *)
Theorem X19_frac_two_characters (pre post : str) (a b : char) :
  contains (u "\frac") pre = false ->
  contains (u "\frac") (a :: b :: post) = false ->
  a <> ch "{" ->
  _fix_fracs (pre ++ u "\frac" ++ a :: b :: post)
  = pre ++ u "\frac{" ++ [a] ++ u "}"
        ++ (if b =? ch "{" then [b] else u "{" ++ [b] ++ u "}") ++ post.
Proof.
  intros Hp Ht Ha. unfold _fix_fracs.
  rewrite split_app by (discriminate || reflexivity).
  rewrite (split_absent _ _ Hp), (split_absent _ _ Ht).
  cbn [app fix_fracs_loop]. unfold fix_frac_piece.
  apply N.eqb_neq in Ha. rewrite Ha.
  destruct (b =? ch "{"); destruct post; cbn [negb];
    rewrite <- ?app_assoc; reflexivity.
Qed.

Lemma X19_frac_two_characters_witness :
  _fix_fracs (u "x=\frac12+y") = u "x=\frac{1}{2}+y".
Proof.
  apply (@X19_frac_two_characters (u "x=") (u "+y") (ch "1") (ch "2"));
    [reflexivity|reflexivity|discriminate].
Defined.

(* ------------------------------------------------------------------ *)
(** ** Square roots *)

Lemma starts_with_decomp (p s : str) :
  starts_with p s = true -> exists t, s = p ++ t.
Proof.
  revert s. induction p as [|a p IH]; intros s H; [now exists s|].
  destruct s as [|c s]; [discriminate|].
  simpl in H. apply andb_prop in H. destruct H as [H1 H2].
  apply N.eqb_eq in H1. subst. destruct (IH _ H2) as [t ->]. now exists t.
Qed.

Lemma lit_matches (U : unicode) (l : str) :
  forall st st', matches U (lit l) st st' -> starts_with l (rest st) = true.
Proof.
  induction l as [|a l IH]; intros st st' M; [reflexivity|].
  cbn [lit matches] in M. destruct M as (st1 & (c & Er & Ec & _) & M2).
  rewrite Er. cbn [starts_with]. cbn [in_cset] in Ec.
  rewrite N.eqb_sym, Ec. cbn [andb]. now apply (IH st1 st').
Qed.

Lemma sqrt_needs_literal (U : unicode) p s st' :
  matches U re_sqrt (start p s) st' -> starts_with (u "\sqrt") s = true.
Proof.
  unfold re_sqrt. cbn [rseq]. intros M.
  change (matches U (RSeq (lit (u "\sqrt")) (RGroup 1 (plus CWord)))
            (start p s) st') in M.
  cbn [matches] in M. destruct M as (st1 & M1 & _).
  now apply lit_matches in M1.
Qed.

Lemma starts_with_contains (p s : str) :
  starts_with p s = true -> contains p s = true.
Proof. intros H. destruct s; cbn [contains]; now rewrite H. Qed.

Lemma sqrt_no_match (U : unicode) p s st' :
  contains (u "\sqrt") s = false -> ~ matches U re_sqrt (start p s) st'.
Proof.
  intros H M. apply sqrt_needs_literal, starts_with_contains in M. congruence.
Qed.

Lemma contains_tail (p : str) (c : char) (s : str) :
  contains p (c :: s) = false -> contains p s = false.
Proof. cbn [contains]. intros H. apply orb_false_iff in H. now destruct H. Qed.

(** X20: a string without [\sqrt] is left as it is. *)
Theorem X20_no_sqrt_unchanged (U : unicode) (s : str) :
  contains (u "\sqrt") s = false -> _fix_sqrt U s = s.
Proof.
  intros H. unfold _fix_sqrt.
  apply (@sub_no_match U re_sqrt (fun s => contains (u "\sqrt") s = false));
    [intros c s0; apply contains_tail| |exact H].
  intros p s0 st' H0. now apply sqrt_no_match.
Qed.

Lemma X20_no_sqrt_unchanged_witness :
  _fix_sqrt Sample.table (u "sqrt 2 + \frac12") = u "sqrt 2 + \frac12".
Proof.
  apply (@X20_no_sqrt_unchanged Sample.table (u "sqrt 2 + \frac12")).
  reflexivity.
Defined.

(** the text before the first match *)
Lemma scan_before (U : unicode) (re : regex) (tail : str) (pre : str) :
  forall p,
    (forall a b, pre = a ++ b -> b <> [] ->
       forall q st', ~ matches U re (start q (b ++ tail)) st') ->
    scan U re 0 p (pre ++ tail)
    = fold_right put_char (scan U re 0 (prev_after p pre) tail) pre.
Proof.
  induction pre as [|c pre IH]; intros p H; [reflexivity|].
  cbn [app scan fold_right prev_after].
  rewrite try_match_none.
  - f_equal. apply IH. intros a b E Hb. apply (H (c :: a) b); [|exact Hb].
    now rewrite E.
  - intros st'. apply (H [] (c :: pre)); [reflexivity|discriminate].
Qed.

Lemma scan_skip (U : unicode) (re : regex) (x s : str) : forall p,
  scan U re (length x) p (x ++ s) = scan U re 0 (prev_after p x) s.
Proof.
  induction x as [|c x IH]; intros p; [reflexivity|].
  cbn [length app scan prev_after]. apply IH.
Qed.

Lemma put_chars_match (pre : str) (m : rmatch) (r : scanned) :
  fold_right put_char (put_match m r) pre = ((pre, m) :: fst r, snd r).
Proof.
  induction pre as [|c pre IH]; [reflexivity|].
  cbn [fold_right]. rewrite IH. reflexivity.
Qed.

Lemma try_match_sqrt (U : unicode) (p : option char) (w post : str) :
  w <> [] -> Forall (fun c => isword U c = true) w ->
  isword U (hd 0 post) = false \/ post = [] ->
  try_match U re_sqrt false p (u "\sqrt" ++ w ++ post)
  = Some ((5 + length w)%nat, [(1%nat, w)]).
Proof.
  intros Hne Hw Hp. destruct w as [|c0 w]; [congruence|].
  inversion Hw as [|? ? Hc0 Hw']; subst.
  unfold try_match, re_sqrt.
  change (u "\sqrt") with [92; 115; 113; 114; 116].
  cbn [rseq lit plus run rest prev caps app in_cset N.eqb Pos.eqb].
  rewrite Hc0.
  erewrite star_greedy_max; [| exact Hw' | exact Hp | reflexivity].
  cbn [andb rest caps length].
  f_equal. f_equal.
  - rewrite !length_app. cbn [length]. lia.
  - do 2 f_equal.
    change (S (length (w ++ post))) with (length ((c0 :: w) ++ post)).
    change (c0 :: w ++ post) with ((c0 :: w) ++ post).
    apply firstn_prefix.
Qed.

(** X21: a [\sqrt] followed by letters, digits or underscores gets them in
    braces: the run of word characters up to the first other character is
    the argument. *)
Theorem X21_sqrt_argument_braced (U : unicode) (pre w post : str) :
  contains (u "\sqrt") pre = false ->
  contains (u "\sqrt") post = false ->
  w <> [] -> Forall (fun c => isword U c = true) w ->
  isword U (hd 0 post) = false \/ post = [] ->
  _fix_sqrt U (pre ++ u "\sqrt" ++ w ++ post)
  = pre ++ u "\sqrt{" ++ w ++ u "}" ++ post.
Proof.
  intros Hpre Hpost Hne Hw Hp. unfold _fix_sqrt, sub, finditer.
  rewrite scan_before.
  2:{ intros a b E Hb q st' M.
      apply sqrt_needs_literal in M.
      apply occurrence_fits in M; [|reflexivity|exact Hb].
      apply starts_with_decomp in M. destruct M as [t ->].
      rewrite E, contains_intro in Hpre. discriminate. }
  pose proof (@try_match_sqrt U (prev_after None pre) w post Hne Hw Hp) as T.
  remember (u "\sqrt" ++ w ++ post) as s eqn:Es.
  assert (Es' : s = 92 :: ([115; 113; 114; 116] ++ w) ++ post).
  { rewrite Es. now rewrite <- app_assoc. }
  rewrite Es' in T |- *. cbn [scan]. rewrite T.
  cbn [Nat.add pred].
  replace (S (S (S (S (length w))))) with (length ([115; 113; 114; 116] ++ w))
    by (rewrite length_app; reflexivity).
  rewrite scan_skip.
  rewrite (@scan_no_match U re_sqrt (fun s => contains (u "\sqrt") s = false));
    [|intros c s0; apply contains_tail
     |intros q s0 st' H0; now apply sqrt_no_match|exact Hpost].
  rewrite put_chars_match. cbn [fst snd sub_segs].
  unfold expand, mk. cbn [flat_map group m_caps lookup Nat.eqb].
  rewrite <- !app_assoc. reflexivity.
Qed.

Lemma X21_sqrt_argument_braced_witness :
  _fix_sqrt Sample.table (u "2\sqrt3x+1") = u "2\sqrt{3x}+1".
Proof.
  apply (@X21_sqrt_argument_braced Sample.table (u "2") (u "3x") (u "+1"));
    [reflexivity|reflexivity|discriminate|repeat constructor|left; reflexivity].
Defined.

(* ------------------------------------------------------------------ *)
(** ** The Minerva format *)

Lemma split_go_limit_first (sep tail : str) (n : nat) :
  sep <> [] -> border_free sep = true ->
  forall pre, contains sep pre = false ->
    split_go sep (Some (S n)) 0 (pre ++ sep ++ tail)
    = pre :: split_go sep (Some n) 0 tail.
Proof.
  intros Hne B. induction pre as [|c pre IH]; intros H.
  - cbn [app]. destruct sep as [|a sep]; [congruence|].
    cbn [app split_go]. change (a :: sep ++ tail) with ((a :: sep) ++ tail).
    rewrite starts_with_self. cbn [option_map length pred]. f_equal.
    apply split_go_skip.
  - cbn [contains] in H. apply orb_false_iff in H. destruct H as [H1 H2].
    cbn [app split_go].
    destruct (starts_with sep (c :: pre ++ sep ++ tail)) eqn:E.
    + apply (@occurrence_fits sep (c :: pre) tail B) in E; [|discriminate].
      congruence.
    + rewrite (IH H2). reflexivity.
Qed.

Lemma split_go_limit_zero (sep s : str) : split_go sep (Some O) 0 s = [s].
Proof. now destruct s. Qed.

Lemma extract_raw_minerva (U : unicode) (pre ans post : str) (un : bool) :
  contains (u "final answer is $") pre = false ->
  contains (u "$. I hope") ans = false ->
  extract_raw U (pre ++ u "final answer is $" ++ ans ++ u "$. I hope" ++ post) un
  = Ok (Some (strip U ans)).
Proof.
  intros Hp Ha. unfold extract_raw.
  rewrite (contains_intro (u "final answer is $") pre _).
  replace (contains (u "$. I hope")
             (pre ++ u "final answer is $" ++ ans ++ u "$. I hope" ++ post))
    with true.
  2:{ symmetry.
      replace (pre ++ u "final answer is $" ++ ans ++ u "$. I hope" ++ post)
        with ((pre ++ u "final answer is $" ++ ans) ++ u "$. I hope" ++ post)
        by (now rewrite <- !app_assoc).
      apply contains_intro. }
  cbn [andb]. unfold split_max.
  rewrite split_go_limit_first by (discriminate || reflexivity || exact Hp).
  rewrite split_go_limit_zero. cbn [index nth_error bind].
  rewrite split_go_limit_first by (discriminate || reflexivity || exact Ha).
  reflexivity.
Qed.

(** X22: the Minerva format comes first: the text between the first
    [final answer is $] and the first [$. I hope] after it is the answer,
    whatever boxes or other markers the text holds. *)
Theorem X22_minerva_answer_first (U : unicode) (pre ans post : str) (un : bool) :
  contains (u "final answer is $") pre = false ->
  contains (u "$. I hope") ans = false ->
  extract_raw U (pre ++ u "final answer is $" ++ ans ++ u "$. I hope" ++ post) un
  = Ok (Some (strip U ans)).
Proof. apply extract_raw_minerva. Qed.

Lemma X22_minerva_answer_first_witness :
  extract_raw Sample.table
    (u "\boxed{7}. The " ++ u "final answer is $" ++ u " 12 " ++ u "$. I hope"
       ++ u " it is correct \boxed{8}")
    false
  = Ok (Some (u "12")).
Proof.
  apply (@X22_minerva_answer_first Sample.table
           (u "\boxed{7}. The ") (u " 12 ") (u " it is correct \boxed{8}") false);
    vm_compute; reflexivity.
Defined.

(* ------------------------------------------------------------------ *)
(** ** Multiple choice: the last step *)

Lemma rstrip_by_end (p : char -> bool) (c : char) (s : str) :
  p c = true -> endswith (rstrip_by p s) [c] = false.
Proof.
  intros Hc. unfold endswith, rstrip_by. rewrite rev_involutive.
  pose proof (dropwhile_head p (rev s)) as H.
  destruct (dropwhile p (rev s)) as [|h t]; [reflexivity|].
  cbn [rev app starts_with].
  destruct (N.eqb_spec c h) as [->|_]; [congruence|reflexivity].
Qed.

Lemma choice_answer_clean_form (U : unicode) (pred : str) :
  exists x, choice_answer_clean U pred = Ok (rstrip_chars (u "/") x).
Proof.
  unfold choice_answer_clean.
  assert (Hicl : exists p, choice_icl pred = Ok p).
  { unfold choice_icl. destruct (existsb _ _); [|eauto]. apply index_0_split. }
  destruct Hicl as [p ->]. cbn [bind].
  assert (Hsplit : exists x, choice_split U p = Ok x).
  { unfold choice_split. destruct (1 <? length _)%nat; [|eauto].
    rewrite (index_last_ok [] (@re_split_nonempty U re_trigger p)).
    simpl. eauto. }
  destruct Hsplit as [[flag seg] ->]. cbn [bind].
  destruct (choice_letters U (choice_trim seg)) as [|a l].
  - simpl. destruct flag; simpl; eauto.
  - cbn [length Nat.eqb]. destruct flag.
    + simpl. eauto.
    + rewrite (@index_last_ok _ (a :: l) []) by discriminate. simpl. eauto.
Qed.

(** X23: the answer to a multiple-choice question never ends in a slash. *)
Theorem X23_choice_answer_no_final_slash (U : unicode) (pred : str) :
  exists r, choice_answer_clean U pred = Ok r /\ endswith r (u "/") = false.
Proof.
  destruct (choice_answer_clean_form U pred) as [x E].
  eexists. split; [exact E|]. now apply rstrip_by_end.
Qed.

(* ------------------------------------------------------------------ *)
(** ** Multiple-choice cleaning: what the patterns find *)

Section ChoiceFacts.
Variable U : unicode.

Lemma is_choice_letter_cases (c : char) :
  is_choice_letter c = true ->
  c = 65 \/ c = 66 \/ c = 67 \/ c = 68 \/ c = 69.
Proof.
  unfold is_choice_letter. intros H. apply andb_prop in H.
  destruct H as [H1 H2]. apply N.leb_le in H1, H2. lia.
Qed.

Lemma try_match_choice_at (p : option char) (c : char) (s : str) :
  try_match U re_choice false p (c :: s)
  = if is_choice_letter c && negb (word_opt U p)
       && negb (word_opt U (hd_error s))
    then Some (1%nat, [(1%nat, [c])]) else None.
Proof.
  assert (Hw : match s with [] => false | c0 :: _ => isword U c0 end
               = word_opt U (hd_error s)) by (now destruct s).
  unfold try_match, re_choice.
  change (u "A") with [65]. change (u "B") with [66]. change (u "C") with [67].
  change (u "D") with [68]. change (u "E") with [69].
  cbn [rseq lit run rest prev caps andb in_cset].
  unfold word_before, word_after. cbn [prev rest].
  change (match p with Some c0 => isword U c0 | None => false end)
    with (word_opt U p).
  rewrite Hw.
  destruct (is_choice_letter c) eqn:L.
  - apply is_choice_letter_cases in L.
    assert (Hc : isword U c = true)
      by (destruct L as [->|[->|[->|[->| ->]]]]; reflexivity).
    rewrite Hc.
    replace (length (c :: s) - length s)%nat with 1%nat
      by (cbn [length]; lia).
    cbn [firstn].
    destruct (word_opt U p); cbn [xorb andb negb];
      [reflexivity|].
    assert (E1 : (S (length s) - length s = 1)%nat) by lia.
    destruct (word_opt U (hd_error s)); cbn [negb];
      destruct L as [->|[->|[->|[->| ->]]]];
      cbn [N.eqb Pos.eqb rest caps length]; rewrite ?E1; reflexivity.
  - cbn [andb].
    assert (N65 : (c =? 65) = false /\ (c =? 66) = false /\ (c =? 67) = false
                  /\ (c =? 68) = false /\ (c =? 69) = false).
    { unfold is_choice_letter in L. apply andb_false_iff in L.
      repeat split; apply N.eqb_neq; intros ->; destruct L; discriminate. }
    destruct N65 as (E1 & E2 & E3 & E4 & E5).
    rewrite E1, E2, E3, E4, E5.
    now destruct (xorb _ _).
Qed.

Lemma try_match_choice_end (p : option char) :
  try_match U re_choice false p [] = None.
Proof.
  unfold try_match, re_choice.
  change (u "A") with [65]. change (u "B") with [66]. change (u "C") with [67].
  change (u "D") with [68]. change (u "E") with [69].
  cbn [rseq lit run rest prev caps andb in_cset].
  now destruct (xorb _ _).
Qed.

Lemma put_char_groups (g : nat) (c : char) (r : scanned) :
  map (fun x => group g (snd x)) (fst (put_char c r))
  = map (fun x => group g (snd x)) (fst r).
Proof. destruct r as [[|[pre m] l] t]; reflexivity. Qed.

(** [re.findall(r"\b(A|B|C|D|E)\b", s)] is the list of the standalone
    letters of [s] *)
Lemma scan_choice (s : str) : forall p,
  map (fun x => group 1 (snd x)) (fst (scan U re_choice 0 p s))
  = map (fun c => [c]) (standalone_letters U p s).
Proof.
  induction s as [|c s IH]; intros p.
  - cbn [scan]. now rewrite try_match_choice_end.
  - cbn [scan standalone_letters]. rewrite try_match_choice_at.
    destruct (is_choice_letter c && negb (word_opt U p)
              && negb (word_opt U (hd_error s))).
    + cbn [pred put_match fst map app snd]. f_equal. apply IH.
    + cbn [app]. rewrite put_char_groups. apply IH.
Qed.

Lemma choice_letters_standalone (s : str) :
  choice_letters U s
  = map (fun c => [c]) (standalone_letters U None (upper U s)).
Proof. unfold choice_letters, findall, finditer. apply scan_choice. Qed.

End ChoiceFacts.

Section TriggerFacts.
Variable U : unicode.

Lemma run_lit (l : str) : forall st k,
  run U (lit l) st k
  = if starts_with l (rest st)
    then k {| prev := prev_after (prev st) l;
              rest := skipn (length l) (rest st); caps := caps st |}
    else None.
Proof.
  induction l as [|a l IH]; intros st k.
  - destruct st. reflexivity.
  - cbn [lit run starts_with in_cset].
    destruct (rest st) as [|c s'] eqn:Er; [reflexivity|].
    rewrite (N.eqb_sym a c).
    destruct (N.eqb_spec c a) as [->|_]; [|reflexivity].
    rewrite IH. cbn [rest prev caps andb prev_after length skipn]. reflexivity.
Qed.

Lemma starts_with_length (l s : str) :
  starts_with l s = true ->
  (length s - length (skipn (length l) s) = length l)%nat.
Proof.
  intros H. apply starts_with_decomp in H. destruct H as [t ->].
  rewrite skipn_app, Nat.sub_diag, skipn_all. cbn [skipn app].
  rewrite length_app. lia.
Qed.

Lemma try_match_trigger (p : option char) (s : str) :
  try_match U re_trigger false p s
  = if trigger_here s then Some (9%nat, []) else None.
Proof.
  unfold try_match, re_trigger, trigger_here.
  cbn [run andb]. rewrite !run_lit. cbn [rest caps].
  destruct (starts_with (u "choice is") s) eqn:E1.
  - cbn [orb rest caps]. now rewrite (starts_with_length _ _ E1).
  - destruct (starts_with (u "answer is") s) eqn:E2; [|reflexivity].
    cbn [orb rest caps]. now rewrite (starts_with_length _ _ E2).
Qed.

Lemma after_last_trigger_cons (c : char) (s : str) :
  trigger_here (c :: s) = false ->
  after_last_trigger (c :: s) = after_last_trigger s.
Proof.
  intros H. cbn [after_last_trigger]. rewrite H.
  now destruct (after_last_trigger s).
Qed.

(** two occurrences of trigger phrases do not overlap: nothing starts
    inside one *)
Lemma after_last_trigger_inside (c : char) (s : str) :
  trigger_here (c :: s) = true ->
  exists x, s = x ++ skipn 9 (c :: s) /\ length x = 8%nat
            /\ after_last_trigger s = after_last_trigger (skipn 9 (c :: s)).
Proof.
  unfold trigger_here. intros H. apply orb_prop in H.
  destruct H as [H|H]; apply starts_with_decomp in H; destruct H as [t E];
    inversion E; subst; cbn [skipn app].
  - exists (u "hoice is"). split; [reflexivity|]. split; [reflexivity|].
    change (u "hoice is" ++ t)
      with (104 :: 111 :: 105 :: 99 :: 101 :: 32 :: 105 :: 115 :: t).
    repeat (rewrite after_last_trigger_cons by reflexivity). reflexivity.
  - exists (u "nswer is"). split; [reflexivity|]. split; [reflexivity|].
    change (u "nswer is" ++ t)
      with (110 :: 115 :: 119 :: 101 :: 114 :: 32 :: 105 :: 115 :: t).
    repeat (rewrite after_last_trigger_cons by reflexivity). reflexivity.
Qed.

Lemma put_char_snd (c : char) (r : scanned) :
  fst r <> [] -> fst (put_char c r) <> [] /\ snd (put_char c r) = snd r.
Proof.
  destruct r as [[|[pre m] l] t]; cbn; [congruence|]. split; [discriminate|reflexivity].
Qed.

(** [re.split] on the trigger phrases: the last piece is the text after the
    last trigger phrase, and there is more than one piece when a trigger
    phrase occurs *)
Lemma scan_trigger (n : nat) : forall s p,
  (length s <= n)%nat ->
  match after_last_trigger s with
  | Some t => fst (scan U re_trigger 0 p s) <> []
              /\ snd (scan U re_trigger 0 p s) = t
  | None => scan U re_trigger 0 p s = ([], s)
  end.
Proof.
  induction n as [|n IH]; intros s p L.
  - destruct s; [|cbn [length] in L; lia].
    cbn [after_last_trigger scan]. now rewrite try_match_trigger.
  - destruct s as [|c s].
    { cbn [after_last_trigger scan]. now rewrite try_match_trigger. }
    cbn [length] in L.
    cbn [scan]. rewrite try_match_trigger.
    destruct (trigger_here (c :: s)) eqn:T.
    + destruct (after_last_trigger_inside c s T) as (x & Ex & Lx & Ea).
      cbn [after_last_trigger]. rewrite T, Ea.
      cbn [pred put_match fst snd].
      assert (Es : scan U re_trigger 8 (Some c) s
                   = scan U re_trigger 0 (prev_after (Some c) x)
                       (skipn 9 (c :: s))).
      { rewrite Ex at 1. rewrite <- Lx. apply scan_skip. }
      rewrite Es.
      assert (L' : (length (skipn 9 (c :: s)) <= n)%nat).
      { rewrite length_skipn. cbn [length]. lia. }
      pose proof (IH (skipn 9 (c :: s)) (prev_after (Some c) x) L') as H.
      destruct (after_last_trigger (skipn 9 (c :: s))) as [t|].
      * split; [discriminate|]. now destruct H.
      * split; [discriminate|]. now rewrite H.
    + rewrite (after_last_trigger_cons c s T).
      pose proof (IH s (Some c) ltac:(lia)) as H.
      destruct (after_last_trigger s) as [t|].
      * destruct H as [H1 H2]. rewrite <- H2. now apply put_char_snd.
      * rewrite H. reflexivity.
Qed.

Lemma choice_split_spec (p : str) :
  choice_split U p
  = Ok match after_last_trigger p with
       | Some t => (true, t)
       | None => (false, p)
       end.
Proof.
  unfold choice_split, re_split, finditer.
  pose proof (@scan_trigger (length p) p None (le_n _)) as H.
  destruct (after_last_trigger p) as [t|].
  - destruct H as [H1 H2].
    destruct (fst (scan U re_trigger 0 None p)) as [|m l] eqn:E; [congruence|].
    assert (E1 : (1 <? length (map fst (m :: l)
                                 ++ [snd (scan U re_trigger 0 None p)]))%nat
                 = true).
    { apply Nat.ltb_lt. rewrite length_app. cbn [length map]. lia. }
    rewrite E1.
    rewrite index_last_app. cbn [bind]. now rewrite H2.
  - rewrite H. reflexivity.
Qed.

End TriggerFacts.

Lemma hd_split_blank (s : str) :
  index (split [NL; NL] s) 0 = Ok (before_blank_line s).
Proof.
  unfold split, index.
  induction s as [|c s IH]; [reflexivity|].
  cbn [split_go before_blank_line].
  destruct (starts_with [NL; NL] (c :: s)); [reflexivity|].
  pose proof (split_go_nonempty [NL; NL] None 0 s) as Hn.
  destruct (split_go [NL; NL] None 0 s) as [|h t]; [congruence|].
  cbn [cons_head nth_error] in *. now inversion IH.
Qed.

Lemma choice_icl_spec (pred : str) : choice_icl pred = Ok (icl_cut pred).
Proof.
  unfold choice_icl, icl_cut, direct_answer_trigger. cbn [existsb].
  rewrite orb_false_r.
  destruct (_ || _); [apply hd_split_blank|reflexivity].
Qed.

Lemma last_default {A : Type} (l : list A) :
  forall x a b, last (x :: l) a = last (x :: l) b.
Proof.
  induction l as [|y l IH]; intros x a b; [reflexivity|].
  change (last (y :: l) a = last (y :: l) b). apply IH.
Qed.

Lemma last_map_cons {A B : Type} (f : A -> B) (l : list A) :
  forall a d, last (map f (a :: l)) d = f (last l a).
Proof.
  induction l as [|b l IH]; intros a d; [reflexivity|].
  change (last (map f (a :: b :: l)) d) with (last (map f (b :: l)) d).
  rewrite IH. f_equal.
  destruct l as [|c l]; [reflexivity|].
  change (last (c :: l) b = last (c :: l) a). apply last_default.
Qed.

(** C8: [choice_answer_clean] returns a string on every input and never
    raises.  With the prediction cut at the first blank line when a trigger
    phrase occurs more than once, the segment after the last trigger phrase
    (the whole text when there is none) kept and its boundary punctuation
    stripped: when that segment, in upper case, holds standalone letters
    A-E, the result is the first of them if a trigger phrase occurred
    ([answer_flag]) and the last of them otherwise; when it holds none, the
    result is the trimmed segment. *)
Theorem C8_choice_answer_clean_total (U : unicode) (pred : str) :
  exists r,
    choice_answer_clean U pred = Ok r
    /\ match standalone_letters U None (upper U (kept_segment pred)) with
       | [] =>
         r = rstrip_chars (u "/") (rstrip_chars (u ".")
               (strip_chars (u ".") (strip U (kept_segment pred))))
       | first :: rest =>
         r = [if answer_flag pred then first else last rest first]
       end.
Proof.
  unfold choice_answer_clean.
  rewrite choice_icl_spec. cbn [bind]. rewrite choice_split_spec. cbn [bind].
  unfold kept_segment, answer_flag, choice_trim.
  set (p := icl_cut pred).
  set (flag := match after_last_trigger p with Some _ => true | None => false end).
  set (seg := match after_last_trigger p with Some t => t | None => p end).
  assert (E : match after_last_trigger p with
              | Some t => (true, t) | None => (false, p) end = (flag, seg))
    by (unfold flag, seg; now destruct (after_last_trigger p)).
  rewrite E. clear E.
  set (x := lstrip_chars (u ":") _).
  rewrite choice_letters_standalone.
  destruct (standalone_letters U None (upper U x)) as [|first rest] eqn:El.
  - cbn [map length Nat.eqb]. destruct flag; cbn [index index_last nth_error rev app bind];
      eexists; split; reflexivity.
  - assert (Hin : forall c, In c (first :: rest) ->
                    rstrip_chars (u "/") (rstrip_chars (u ".") [c]) = [c]).
    { intros c Hc. apply rstrip_letter.
      pose proof (choice_letters_in U x) as F.
      rewrite choice_letters_standalone, El in F.
      rewrite Forall_forall in F. apply F.
      exact (in_map (fun c : N => [c]) _ _ Hc). }
    cbn [map length Nat.eqb]. destruct flag.
    + cbn [index nth_error bind]. eexists. split; [reflexivity|].
      apply Hin. now left.
    + change ([first] :: map (fun c => [c]) rest)
        with (map (fun c : N => [c]) (first :: rest)).
      rewrite (@index_last_ok _ (map (fun c : N => [c]) (first :: rest)) [])
        by discriminate.
      cbn [bind]. eexists. split; [reflexivity|].
      rewrite last_map_cons. apply Hin.
      replace (last rest first) with (last (first :: rest) first)
        by (destruct rest; reflexivity).
      apply last_In. discriminate.
Qed.

(* ------------------------------------------------------------------ *)
(** ** Fixed points of the normaliser *)




Section PrefixFacts.
Variable U : unicode.






End PrefixFacts.

(* ------------------------------------------------------------------ *)
(** *** The trailing-zero patterns *)

Section PointFacts.
Variable U : unicode.









End PointFacts.

(* ------------------------------------------------------------------ *)
(** *** Square roots, quotients *)

Section SqrtFacts.
Variable U : unicode.







End SqrtFacts.

(* ------------------------------------------------------------------ *)
(** *** Unit texts *)

Section UnitFacts.
Variable U : unicode.

(** a search that knows the character before each position *)
Section ScanPrev.
Variable re : regex.
Variable Q : option char -> str -> Prop.
Hypothesis Q_tail : forall p c s, Q p (c :: s) -> Q (Some c) s.
Hypothesis no_match : forall p s st', Q p s -> ~ matches U re (start p s) st'.


End ScanPrev.









End UnitFacts.

(* ------------------------------------------------------------------ *)
(** *** The passes on a stable string *)


Section StableFacts.
Variable U : unicode.
Variable t : str.

Hypothesis Hspace : forallb (fun c => negb (isspace U c)) t = true.
Hypothesis Hrew : forallb (fun w => negb (contains w t)) rewritten = true.



















End StableFacts.

Section Stable.
Variable U : unicode.
Variable w2n : str -> option str.


End Stable.



(** Stable strings are common among answers: decimals, signed integers,
    sums, fractions and roots in braces are stable; a decimal that ends in
    zeros after the point alone, a quotient of integers, a standalone unit
    and a root without braces are not. *)
Lemma stable_examples :
  map (fun s => stable Sample.table false (u s))
      ["3.5"; "-3"; "x+1"; "\frac{1}{2}"; "\sqrt{2}"; "x/y"; "(1,2)";
       "3.0"; "1/2"; "a+1"; "\sqrt2"]%string
  = [true; true; true; true; true; true; true;
     false; false; false; false].
Proof. vm_compute. reflexivity. Qed.
